(** * Frame generation client (services/gemini.ts): a shallow embedding

    The development follows the TypeScript module top to bottom:

    - JavaScript strings as lists of UTF-16 code units, with the string
      primitives the module calls ([length], [slice], [includes]);
    - the two regular expressions of the response parser, as syntax trees run
      by a backtracking matcher that explores alternatives in the order of
      [String.prototype.match];
    - the platform's [atob] and the module's [b64toBlob];
    - the response of the service as a JavaScript value, read with the
      property accesses of the module, which throw a [TypeError] on
      [undefined] and [null];
    - the host environment (credential, remote service, engine, [fetch], AI
      Studio bridge, clock) as a record of oracles, and asynchronous code as
      a computation that returns a value or throws, with the requests it
      sent;
    - [getAiClient], [generateSingleFrame], [fetchAndCreateBlobUrl],
      [generateAnimationFrames], [checkApiKey] and [promptApiKeySelection].

    What the embedding leaves out or fixes:

    - [count], [index] and [total] are integers ([Z]), and so are the
      numbers of a response; fractional numbers and [NaN] are not
      represented;
    - the instruction text sent with a request is represented by the three
      values that fill its template, the string made by
      [URL.createObjectURL] by the blob it designates;
    - [console] output does not appear;
    - time is a sequence of instants.  The host gives the instant at which
      each frame is started (the delay awaited before it is over), the
      instant at which its chat request is answered and the instant at
      which it settles; the module does the rest: a frame sends its first
      request when it is started and what follows when the answer has
      arrived, and the join of a group is made when the last frame of the
      group is started.  The instants need not be consistent with one
      another: every run of the module is the run of some host, and there
      are hosts that no run corresponds to;
    - the requests of a run are listed in the order in which they are sent;
      the frames of a group that is started all run to their end, also when
      one of them has already made the join fail, and what they send then is
      listed with the rest;
    - the two loops carry a bound on their number of iterations;
      [batchLoop_zseq] and [groupLoop_fuel] show that the bounds used are
      never the reason why a loop stops. *)

From Stdlib Require Import String Ascii.
From Stdlib Require Import List NArith ZArith Lia Bool Permutation.
Import ListNotations.

(* ------------------------------------------------------------------ *)
(** ** JavaScript strings *)
(* ------------------------------------------------------------------ *)

(** A string is its sequence of UTF-16 code units. *)
Definition jsstring := list N.

(** A string literal of the source (ASCII only). *)
Definition lit (s : String.string) : jsstring :=
  map N_of_ascii (String.list_ascii_of_string s).
Arguments lit s%_string.

(** A single character literal. *)
Definition chr (a : ascii) : N := N_of_ascii a.
Arguments chr a%_char.

(** [ToBoolean] on a string: only the empty string is falsy. *)
Definition truthy (s : jsstring) : bool :=
  match s with
  | [] => false
  | _ :: _ => true
  end.

(** [ToBoolean] on a value that may be [undefined] or [null]. *)
Definition truthy_opt (o : option jsstring) : bool :=
  match o with
  | None => false
  | Some s => truthy s
  end.

(** [s.slice(a, b)] for [0 <= a <= b]. *)
Definition js_slice (s : jsstring) (a b : nat) : jsstring :=
  firstn (b - a) (skipn a s).

(** [s.includes(c)] for a one-character search string. *)
Definition includes_char (s : jsstring) (c : N) : bool :=
  existsb (N.eqb c) s.

(** [LineTerminator]: what [.] refuses to match (no [s] flag). *)
Definition isLineTerminator (c : N) : bool :=
  ((c =? 10) || (c =? 13) || (c =? 8232) || (c =? 8233))%N.

(** The class [\s]: [WhiteSpace] and [LineTerminator] of ECMAScript. *)
Definition isWhiteSpace (c : N) : bool :=
  ((c =? 9) || (c =? 10) || (c =? 11) || (c =? 12) || (c =? 13) || (c =? 32)
   || (c =? 160) || (c =? 5760) || ((8192 <=? c) && (c <=? 8202))
   || (c =? 8232) || (c =? 8233) || (c =? 8239) || (c =? 8287)
   || (c =? 12288) || (c =? 65279))%N.

(* ------------------------------------------------------------------ *)
(** ** Regular expressions *)
(* ------------------------------------------------------------------ *)

(** The fragment of the pattern language the module uses.  Quantifiers are
    applied to single-character classes only, as in the source. *)
Inductive regex : Type :=
| Chr (c : N)                    (* a literal character *)
| Opt (r : regex)                (* r?    greedy *)
| LazyStar (p : N -> bool)       (* [p]*? lazy *)
| Plus (p : N -> bool)           (* [p]+  greedy *)
| Cat (r1 r2 : regex)            (* r1 r2 *)
| Group (r : regex).             (* ( r ) capturing *)

Declare Scope regex_scope.
Delimit Scope regex_scope with re.
Bind Scope regex_scope with regex.
Infix ">>" := Cat (at level 60, right associativity) : regex_scope.

(** [.] and [[^\s]]. *)
Definition dot (c : N) : bool := negb (isLineTerminator c).
Definition notSpace (c : N) : bool := negb (isWhiteSpace c).

(** What a continuation receives: the captures closed so far and the input
    that is left. *)
Definition cont := list jsstring -> jsstring -> option (list jsstring * jsstring).

(** Backtracking matcher in continuation-passing style.  An alternative is
    abandoned when the continuation answers [None]; the order in which
    alternatives are tried is the priority order of the language: a greedy
    quantifier tries one more repetition first, a lazy one tries the rest of
    the pattern first. *)
Fixpoint exec (r : regex) (caps : list jsstring) (s : jsstring) (k : cont)
  : option (list jsstring * jsstring) :=
  match r with
  | Chr c =>
      match s with
      | x :: s' => if (x =? c)%N then k caps s' else None
      | [] => None
      end
  | Opt r' =>
      match exec r' caps s k with
      | Some m => Some m
      | None => k caps s
      end
  | LazyStar p =>
      (fix lazy (s : jsstring) :=
         match k caps s with
         | Some m => Some m
         | None =>
             match s with
             | x :: s' => if p x then lazy s' else None
             | [] => None
             end
         end) s
  | Plus p =>
      (fix greedy (s : jsstring) :=
         match s with
         | x :: s' =>
             if p x then
               match greedy s' with
               | Some m => Some m
               | None => k caps s'
               end
             else None
         | [] => None
         end) s
  | Cat r1 r2 => exec r1 caps s (fun caps' s' => exec r2 caps' s' k)
  | Group r' =>
      exec r' caps s
        (fun caps' s' => k (caps' ++ [firstn (length s - length s') s]) s')
  end.

(** The array returned by [match]: element 0 and the captures. *)
Record MatchResult : Type := mkMatch {
  whole : jsstring;
  groups : list jsstring
}.

(** [m[1]]. *)
Definition group1 (m : MatchResult) : option jsstring := nth_error (groups m) 0.

(** An attempt anchored at the start of [s]. *)
Definition match_at (r : regex) (s : jsstring) : option MatchResult :=
  match exec r [] s (fun caps rest => Some (caps, rest)) with
  | Some (caps, rest) => Some (mkMatch (firstn (length s - length rest) s) caps)
  | None => None
  end.

(** [s.match(r)] for a pattern without the [g] flag: the attempt is repeated
    from each index in turn, the leftmost success is the answer. *)
Fixpoint js_match (r : regex) (s : jsstring) : option MatchResult :=
  match match_at r s with
  | Some m => Some m
  | None =>
      match s with
      | [] => None
      | _ :: s' => js_match r s'
      end
  end.

(** [/!\[.*?\]\((.*?)\)/] *)
Definition markdownImageRe : regex :=
  (Chr (chr "!") >> Chr (chr "[") >> LazyStar dot >> Chr (chr "]") >> Chr (chr "(")
   >> Group (LazyStar dot) >> Chr (chr ")"))%re.

(** [/(https?:\/\/[^\s]+)/] *)
Definition urlRe : regex :=
  Group (Chr (chr "h") >> Chr (chr "t") >> Chr (chr "t") >> Chr (chr "p")
         >> Opt (Chr (chr "s")) >> Chr (chr ":") >> Chr (chr "/") >> Chr (chr "/")
         >> Plus notSpace)%re.

(* ------------------------------------------------------------------ *)
(** ** Base64 *)
(* ------------------------------------------------------------------ *)

(** ASCII whitespace, which [atob] removes before decoding. *)
Definition isAsciiWhitespace (c : N) : bool :=
  ((c =? 9) || (c =? 10) || (c =? 12) || (c =? 13) || (c =? 32))%N.

(** Value of a character of the base64 alphabet. *)
Definition base64Value (c : N) : option N :=
  if ((65 <=? c) && (c <=? 90))%N then Some (c - 65)%N
  else if ((97 <=? c) && (c <=? 122))%N then Some (c - 71)%N
  else if ((48 <=? c) && (c <=? 57))%N then Some (c + 4)%N
  else if (c =? 43)%N then Some 62%N
  else if (c =? 47)%N then Some 63%N
  else None.

Fixpoint sextets (s : jsstring) : option (list N) :=
  match s with
  | [] => Some []
  | c :: s' =>
      match base64Value c, sextets s' with
      | Some v, Some vs => Some (v :: vs)
      | _, _ => None
      end
  end.

(** Four sextets give three bytes; a rest of three gives two bytes and a rest
    of two gives one, the spare low bits being dropped. *)
Fixpoint decodeSextets (vs : list N) : list N :=
  match vs with
  | a :: b :: c :: d :: rest =>
      let n := N.lor (N.lor (N.shiftl a 18) (N.shiftl b 12)) (N.lor (N.shiftl c 6) d) in
      N.land (N.shiftr n 16) 255 :: N.land (N.shiftr n 8) 255 :: N.land n 255
        :: decodeSextets rest
  | [a; b; c] =>
      let n := N.lor (N.lor (N.shiftl a 12) (N.shiftl b 6)) c in
      [N.land (N.shiftr n 10) 255; N.land (N.shiftr n 2) 255]
  | [a; b] =>
      let n := N.lor (N.shiftl a 6) b in
      [N.land (N.shiftr n 4) 255]
  | _ => []
  end.

(** Removal of one or two trailing [=]. *)
Definition stripPadding (s : jsstring) : jsstring :=
  match rev s with
  | x :: r =>
      if (x =? 61)%N then
        match r with
        | y :: r' => if (y =? 61)%N then rev r' else rev r
        | [] => rev r
        end
      else s
  | [] => s
  end.

(** The platform's [atob] (forgiving base64 decoding): [None] stands for the
    [InvalidCharacterError] it throws, [Some] holds the binary string, one
    character per decoded byte. *)
Definition atob (data : jsstring) : option jsstring :=
  let d := filter (fun c => negb (isAsciiWhitespace c)) data in
  let d := if (length d mod 4 =? 0)%nat then stripPadding d else d in
  if (length d mod 4 =? 1)%nat then None
  else option_map decodeSextets (sextets d).

(** [new Blob(parts, { type })]. *)
Record Blob : Type := mkBlob {
  blob_parts : list (list N);
  blob_type : jsstring
}.

(** [new Uint8Array(numbers)]: every element is reduced modulo 256. *)
Definition Uint8Array (numbers : list N) : list N :=
  map (fun n => (n mod 256)%N) numbers.

(** The [for] loop of [b64toBlob], from [offset] on.  [fuel] bounds the number
    of iterations; [sliceLoop_fuel] shows that the length of the string is
    enough for a positive slice size. *)
Fixpoint sliceLoop (fuel : nat) (byteCharacters : jsstring) (sliceSize offset : nat)
  : list (list N) :=
  match fuel with
  | O => []
  | S fuel' =>
      if (offset <? length byteCharacters)%nat then
        let slice := js_slice byteCharacters offset (offset + sliceSize) in
        let byteNumbers := slice in   (* byteNumbers[i] = slice.charCodeAt(i) *)
        Uint8Array byteNumbers
          :: sliceLoop fuel' byteCharacters sliceSize (offset + sliceSize)
      else []
  end.

(** [b64toBlob(b64Data, contentType, sliceSize)]; [None] when [atob] throws. *)
Definition b64toBlob (b64Data contentType : jsstring) (sliceSize : nat) : option Blob :=
  match atob b64Data with
  | None => None
  | Some byteCharacters =>
      let byteArrays :=
        sliceLoop (length byteCharacters) byteCharacters sliceSize 0 in
      Some (mkBlob byteArrays contentType)
  end.

(* ------------------------------------------------------------------ *)
(** ** JavaScript values and exceptions *)
(* ------------------------------------------------------------------ *)

(** An exception: an error made with [new Error(message)], or a [TypeError]
    thrown by the engine.  Errors that come from outside the module are
    represented by their message. *)
Inductive JsError : Type :=
| Error (message : jsstring)
| TypeError (message : jsstring).

Definition message (e : JsError) : jsstring :=
  match e with
  | Error m => m
  | TypeError m => m
  end.

(** A promise that has settled: fulfilled with a value or rejected. *)
Inductive result (A : Type) : Type :=
| Ok (a : A)
| Throw (e : JsError).
Arguments Ok {A} a.
Arguments Throw {A} e.

(** The values a response can be made of: what [JSON.parse] builds, and
    [undefined].  An object is given by its own properties, each name once. *)
#[warnings="-register-all"]
Inductive JsValue : Type :=
| JsUndefined
| JsNull
| JsBoolean (b : bool)
| JsNumber (n : Z)
| JsString (s : jsstring)
| JsArray (items : list JsValue)
| JsObject (props : list (jsstring * JsValue)).

(** [ToBoolean]. *)
Definition ToBoolean (v : JsValue) : bool :=
  match v with
  | JsUndefined | JsNull => false
  | JsBoolean b => b
  | JsNumber n => negb (n =? 0)%Z
  | JsString s => truthy s
  | JsArray _ | JsObject _ => true
  end.

Definition nullish (v : JsValue) : bool :=
  match v with
  | JsUndefined | JsNull => true
  | _ => false
  end.

(** The four properties the module reads from a response. *)
Inductive Name : Type :=
| ChoicesP      (* .choices *)
| ZeroP         (* [0] *)
| MessageP      (* .message *)
| ContentP.     (* .content *)

Definition name_of (p : Name) : jsstring :=
  match p with
  | ChoicesP => lit "choices"
  | ZeroP => lit "0"
  | MessageP => lit "message"
  | ContentP => lit "content"
  end.

Fixpoint same_string (a b : jsstring) : bool :=
  match a, b with
  | [], [] => true
  | x :: a', y :: b' => (x =? y)%N && same_string a' b'
  | _, _ => false
  end.

(** The own property [name] of an object, [undefined] when there is none. *)
Fixpoint own (props : list (jsstring * JsValue)) (name : jsstring) : JsValue :=
  match props with
  | [] => JsUndefined
  | (n, v) :: props' => if same_string n name then v else own props' name
  end.

(** [v[p]] for a value that is neither [undefined] nor [null].  None of the
    four names is defined by a prototype: an object has the property or
    not, an array and a string have an element [0] or not, a boolean and a
    number have none of them. *)
Definition property (v : JsValue) (p : Name) : JsValue :=
  match v with
  | JsObject props => own props (name_of p)
  | JsArray items =>
      match p, items with
      | ZeroP, x :: _ => x
      | _, _ => JsUndefined
      end
  | JsString s =>
      match p, s with
      | ZeroP, c :: _ => JsString [c]
      | _, _ => JsUndefined
      end
  | _ => JsUndefined
  end.

(** What makes the engine throw a [TypeError]: reading a property of
    [undefined] or [null], or calling what is not a function. *)
Inductive Fault : Type :=
| ReadOf (v : JsValue) (name : jsstring)
| CallOf (v : JsValue) (name : jsstring).

(* ------------------------------------------------------------------ *)
(** ** Asynchronous computations and the host environment *)
(* ------------------------------------------------------------------ *)

(** [new OpenAI({ apiKey, baseURL, dangerouslyAllowBrowser: true })]. *)
Record Client : Type := mkClient {
  apiKey : jsstring;
  baseURL : jsstring
}.

(** The instruction text is a fixed template with three holes; a prompt is
    represented by what fills them: [index + 1], [total] and the action. *)
Record Prompt : Type := mkPrompt {
  frame_number : Z;
  frame_total : Z;
  action : jsstring
}.

(** The argument of [openai.chat.completions.create]: the model and the two
    parts of the single user message. *)
Record ChatRequest : Type := mkChatRequest {
  model : jsstring;
  text : Prompt;
  image_url : jsstring
}.

(** What a frame hands out: the string made by [URL.createObjectURL] for a
    blob, or an ordinary URL. *)
Inductive FrameUrl : Type :=
| BlobUrl (b : Blob)
| PlainUrl (u : jsstring).

(** The requests the module makes: a call of
    [openai.chat.completions.create] or a call of [fetch]. *)
Inductive Event : Type :=
| ChatCompletion (c : Client) (req : ChatRequest)
| Fetch (url : jsstring).

(** Everything outside the module.
    - [env_API_KEY]: [process.env.API_KEY], [None] when undefined;
    - [aistudio_hasSelectedApiKey]: [None] when [window], [window.aistudio]
      or its method is missing, [Some None] when the call throws, otherwise
      its answer;
    - [completion]: what awaiting [openai.chat.completions.create(request)]
      gives, a rejection or the response, that is the body the service sent;
    - [complains]: the message the engine gives to a [TypeError];
    - [fetch_blob]: [fetch(url)] followed by [res.blob()], [None] when either
      rejects;
    - [starts_at]: the instant at which frame [j] is started, the delay
      awaited before it being over;
    - [replies_at]: the instant at which the chat request of frame [j]
      settles; what the frame sends after its first request, it sends then;
    - [settles_at]: the instant at which the promise of frame [j] settles. *)
Record World : Type := mkWorld {
  env_API_KEY : option jsstring;
  aistudio_hasSelectedApiKey : option (option bool);
  completion : Client -> ChatRequest -> result JsValue;
  complains : Fault -> jsstring;
  fetch_blob : jsstring -> option Blob;
  starts_at : Z -> N;
  replies_at : Z -> N;
  settles_at : Z -> N
}.

(** [signal.aborted] as read once [g] groups have been joined ([g = 0]: when
    the call is made).  The reads of one run happen at these instants only:
    nothing is awaited between the check that follows a group and the check
    that precedes the next one. *)
Record AbortSignal : Type := mkSignal {
  aborted_after : nat -> bool
}.

(** An asynchronous computation run to its end: how it settled and the
    requests it sent, in the order in which it sent them. *)
Definition Async (A : Type) : Type := (result A * list Event)%type.

Definition ret {A} (a : A) : Async A := (Ok a, []).
Definition throw {A} (e : JsError) : Async A := (Throw e, []).
Definition emit (ev : Event) : Async unit := (Ok tt, [ev]).

Definition bind {A B} (m : Async A) (f : A -> Async B) : Async B :=
  match m with
  | (Ok a, t) => let (r, t') := f a in (r, t ++ t')
  | (Throw e, t) => (Throw e, t)
  end.

(** [try { m } catch (e) { h e }]. *)
Definition try_catch {A} (m : Async A) (h : JsError -> Async A) : Async A :=
  match m with
  | (Ok a, t) => (Ok a, t)
  | (Throw e, t) => let (r, t') := h e in (r, t ++ t')
  end.

(** A platform call that settles as [r]. *)
Definition settle {A} (r : result A) : Async A := (r, []).

Declare Scope async_scope.
Delimit Scope async_scope with async.
Notation "x <- m ;; k" := (bind m (fun x => k))
  (at level 61, m at next level, right associativity) : async_scope.
Notation "m ;; k" := (bind m (fun _ => k))
  (at level 61, right associativity) : async_scope.
Local Open Scope async_scope.

(** [m && m[i]] for a match result: the captured text when it is truthy. *)
Definition and_then (m : option MatchResult) (get : MatchResult -> option jsstring)
  : option jsstring :=
  match m with
  | None => None
  | Some m' =>
      match get m' with
      | Some u => if truthy u then Some u else None
      | None => None
      end
  end.

Definition noApiKey : JsError :=
  Error (lit "API Key not found. Please select an API Key.").
Definition noContent : JsError :=
  Error (lit "OpenAI API returned no content.").
Definition abortedByUser : JsError :=
  Error (lit "Generation aborted by user.").
Definition notFound (content : jsstring) : JsError :=
  Error (lit "Could not find image in response: " ++ js_slice content 0 100 ++ lit "...").

Section Service.

Variable w : World.

(** [getAiClient] *)
Definition getAiClient : Async Client :=
  if negb (truthy_opt (env_API_KEY w)) then throw noApiKey
  else
    match env_API_KEY w with
    | Some key =>
        ret (mkClient key (lit "https://ark.cn-beijing.volces.com/api/v3"))
    | None => throw noApiKey
    end.

(** [fetchAndCreateBlobUrl] *)
Definition fetchAndCreateBlobUrl (url : jsstring) : Async FrameUrl :=
  try_catch
    (emit (Fetch url) ;;
     match fetch_blob w url with
     | Some blob => ret (BlobUrl blob)
     | None => throw (Error (lit "fetch failed"))
     end)
    (fun e => ret (PlainUrl url)).

(** [v[p]]: a [TypeError] when [v] is [undefined] or [null]. *)
Definition read (v : JsValue) (p : Name) : result JsValue :=
  if nullish v then Throw (TypeError (complains w (ReadOf v (name_of p))))
  else Ok (property v p).

(** [v?.[p]]: [undefined] when [v] is [undefined] or [null]. *)
Definition read_opt (v : JsValue) (p : Name) : JsValue :=
  if nullish v then JsUndefined else property v p.

(** [response.choices[0]?.message?.content] *)
Definition content_of (response : JsValue) : result JsValue :=
  match read response ChoicesP with
  | Throw e => Throw e
  | Ok choices =>
      match read choices ZeroP with
      | Throw e => Throw e
      | Ok choice => Ok (read_opt (read_opt choice MessageP) ContentP)
      end
  end.

(** [generateSingleFrame] *)
Definition generateSingleFrame
    (imageBase64 mimeType prompt : jsstring) (index total : Z) : Async FrameUrl :=
  openai <- getAiClient ;;
  try_catch
    (let request :=
       mkChatRequest (lit "ep-20251127000002-dblf6")
         (mkPrompt (index + 1) total prompt)
         (lit "data:" ++ mimeType ++ lit ";base64," ++ imageBase64) in
     emit (ChatCompletion openai request) ;;
     response <- settle (completion w openai request) ;;
     content <- settle (content_of response) ;;
     if negb (ToBoolean content) then throw noContent
     else
       match content with
       | JsString content =>
           (* Strategy 1 *)
           let markdownMatch := js_match markdownImageRe content in
           match and_then markdownMatch group1 with
           | Some url => fetchAndCreateBlobUrl url
           | None =>
               (* Strategy 2 *)
               let urlMatch := js_match urlRe content in
               match and_then urlMatch (fun m => Some (whole m)) with
               | Some url => fetchAndCreateBlobUrl url
               | None =>
                   (* Strategy 3 *)
                   if (100 <? length content)%nat
                      && negb (includes_char content (chr " "))
                   then
                     match b64toBlob content (lit "image/png") 512 with
                     | Some blob => ret (BlobUrl blob)
                     | None => throw (notFound content)   (* caught: not base64 *)
                     end
                   else throw (notFound content)
               end
           end
       | _ =>
           (* [content.match] is not a function *)
           throw (TypeError (complains w (CallOf content (lit "match"))))
       end)
    (fun error => throw error).

(** The rejection a join meets first.  Each promise comes with the instant
    at which the join meets its settlement; of two rejections met at the
    same instant the one of the earlier promise in the array is met first. *)
Fixpoint first_rejection {A} (ps : list (N * result A)) : option (N * JsError) :=
  match ps with
  | [] => None
  | (_, Ok _) :: ps' => first_rejection ps'
  | (t, Throw e) :: ps' =>
      match first_rejection ps' with
      | Some (t', e') => if (t' <? t)%N then Some (t', e') else Some (t, e)
      | None => Some (t, e)
      end
  end.

Fixpoint fulfilled {A} (ps : list (N * result A)) : list A :=
  match ps with
  | [] => []
  | (_, Ok a) :: ps' => a :: fulfilled ps'
  | (_, Throw _) :: ps' => fulfilled ps'
  end.

(** [Promise.all], called at the instant [now] on promises given with the
    instants at which they settle.  It subscribes to the promises in the
    order of the array: the settlements that have happened when it is called
    are met then, in that order, and before any other; the others are met
    as they happen.  It is rejected with the reason of the first rejection
    it meets, otherwise fulfilled with the values in the order of the
    array. *)
Definition Promise_all {A} (now : N) (ps : list (N * result A)) : result (list A) :=
  match first_rejection (map (fun p => (N.max now (fst p), snd p)) ps) with
  | Some (_, e) => Throw e
  | None => Ok (fulfilled ps)
  end.

(** A frame that has been started, with the requests it has yet to send,
    takes its place among those that wait for their reply: after the ones
    whose reply does not arrive later. *)
Fixpoint arrive (p : Z * list Event) (waiting : list (Z * list Event))
  : list (Z * list Event) :=
  match waiting with
  | [] => [p]
  | q :: waiting' =>
      if (replies_at w (fst p) <? replies_at w (fst q))%N then p :: q :: waiting'
      else q :: arrive p waiting'
  end.

(** The requests of the frames of a group, in the order in which they are
    sent.  A frame sends its first request when it is started and the rest
    when the reply to the first has arrived.  [frames] are the frames still
    to be started, in the order of the loop, each with its requests;
    [waiting] are the frames already started, in the order in which their
    replies arrive, each with what it has yet to send.  When a frame is
    started, the frames whose reply has arrived in the meantime have sent
    what they had to; when all are started, the others send it as their
    replies arrive. *)
Fixpoint issued (frames waiting : list (Z * list Event)) : list Event :=
  match frames with
  | [] => concat (map snd waiting)
  | (j, requests) :: frames' =>
      let arrived q := (replies_at w (fst q) <? starts_at w j)%N in
      concat (map snd (filter arrived waiting))
        ++ firstn 1 requests
        ++ issued frames'
             (arrive (j, skipn 1 requests)
                (filter (fun q => negb (arrived q)) waiting))
  end.

Definition batchSize : Z := 3.

Section Run.

Variables imageBase64 mimeType prompt : jsstring.
Variable count : Z.
Variable signal : option AbortSignal.

(** [signal?.aborted] *)
Definition aborted (g : nat) : bool :=
  match signal with
  | Some s => aborted_after s g
  | None => false
  end.

(** The inner loop, from [j] on: the frames it starts, in order, each after
    the delay the loop awaits. *)
Fixpoint batchLoop (fuel : nat) (i j : Z) : list (Z * Async FrameUrl) :=
  match fuel with
  | O => []
  | S fuel' =>
      if (j <? Z.min (i + batchSize) count)%Z then
        (j, generateSingleFrame imageBase64 mimeType prompt j count)
          :: batchLoop fuel' i (j + 1)%Z
      else []
  end.

(** One group: its frames are started in turn and the join is made as soon
    as the last one is started; every frame runs to its end, whatever the
    join says. *)
Definition runBatch (i : Z) : Async (list FrameUrl) :=
  let batchPromises := batchLoop (Z.to_nat batchSize) i i in
  let joined := last (map (fun p => starts_at w (fst p)) batchPromises) 0%N in
  (Promise_all joined
     (map (fun p => (settles_at w (fst p), fst (snd p))) batchPromises),
   issued (map (fun p => (fst p, snd (snd p))) batchPromises) []).

(** The outer loop, from [i] on, [g] groups having been joined. *)
Fixpoint groupLoop (fuel : nat) (g : nat) (i : Z) (urls : list FrameUrl)
  : Async (list FrameUrl) :=
  match fuel with
  | O => ret urls
  | S fuel' =>
      if (i <? count)%Z then
        if aborted g then throw abortedByUser
        else
          batchResults <- runBatch i ;;
          if aborted (S g) then throw abortedByUser
          else groupLoop fuel' (S g) (i + batchSize)%Z (urls ++ batchResults)
      else ret urls
  end.

(** [generateAnimationFrames] *)
Definition generateAnimationFrames : Async (list FrameUrl) :=
  groupLoop (Z.to_nat count) 0 0 [].

End Run.

(** [checkApiKey] *)
Definition checkApiKey : bool :=
  if match env_API_KEY w with
     | Some key => truthy key && (0 <? length key)%nat
     | None => false
     end
  then true
  else
    (* Legacy check for AIStudio environment *)
    match aistudio_hasSelectedApiKey w with
    | Some (Some answer) => answer
    | Some None => false   (* caught *)
    | None => false
    end.

End Service.

(* ------------------------------------------------------------------ *)
(** ** The branches of the parser and the strategies of the specification *)
(* ------------------------------------------------------------------ *)

(** The strings a pattern denotes, without priorities. *)
Fixpoint lang (r : regex) (a : jsstring) : Prop :=
  match r with
  | Chr c => a = [c]
  | Opt r' => a = [] \/ lang r' a
  | LazyStar p => forallb p a = true
  | Plus p => a <> [] /\ forallb p a = true
  | Cat r1 r2 => exists a1 a2, a = a1 ++ a2 /\ lang r1 a1 /\ lang r2 a2
  | Group r' => lang r' a
  end.

(** Length of the whitespace-free run that starts at the head of [s]. *)
Fixpoint runFrom (s : jsstring) : nat :=
  match s with
  | c :: s' => if notSpace c then S (runFrom s') else 0
  | [] => 0
  end.

(** Length of the longest whitespace-free run of [s]. *)
Fixpoint longestRun (s : jsstring) : nat :=
  match s with
  | [] => 0
  | _ :: s' => Nat.max (runFrom s) (longestRun s')
  end.

(** [p] occurs in [s]. *)
Definition infix_of (p s : jsstring) : Prop :=
  exists pre post, s = pre ++ p ++ post.

(** An image reference on one line: [![alt](target)]. *)
Definition imageReference (a : jsstring) : Prop :=
  exists alt target,
    a = lit "![" ++ alt ++ lit "](" ++ target ++ lit ")"
    /\ forallb dot alt = true /\ forallb dot target = true.

(** [http://] or [https://] followed by at least one character, none of them
    whitespace. *)
Definition httpUrl (a : jsstring) : Prop :=
  exists tail,
    (a = lit "http://" ++ tail \/ a = lit "https://" ++ tail)
    /\ tail <> [] /\ forallb notSpace tail = true.

(** The names of the three strategies, in the order of the specification. *)
Inductive Strategy : Type :=
| MarkdownImage
| BareUrl
| Base64Token.

Definition strategies : list Strategy := [MarkdownImage; BareUrl; Base64Token].

(** Place of a strategy in the list. *)
Definition rank (s : Strategy) : nat :=
  match s with
  | MarkdownImage => 0
  | BareUrl => 1
  | Base64Token => 2
  end.

(** *** The strategies in the words of the specification

    (a) "a markdown image reference containing an embedded URL": the reply
        contains [![alt](target)] on one line, the target not empty;
    (b) "a bare HTTP(S) URL appearing anywhere in the text";
    (c) "a long, whitespace-free token", long meaning at least 100
        characters. *)
Definition spec_matches (s : Strategy) (reply : jsstring) : Prop :=
  match s with
  | MarkdownImage =>
      exists alt target,
        target <> [] /\ forallb dot alt = true /\ forallb dot target = true
        /\ infix_of (lit "![" ++ alt ++ lit "](" ++ target ++ lit ")") reply
  | BareUrl => exists a, httpUrl a /\ infix_of a reply
  | Base64Token => 100 <= longestRun reply
  end.

(** *** The branches of [generateSingleFrame]

    The three branches of the function taken apart: what the test of each
    branch finds in a reply (lines 75-76, 81-82 and 88-90 of the source),
    the tests tried in the order of the source, and what the branch does
    with what was found (lines 77, 83 and 91).  [frame_settles] shows that
    put together again they are the function. *)
Inductive Finding : Type :=
| FoundUrl (u : jsstring)
| FoundBlob (b : Blob).

Definition applies (s : Strategy) (content : jsstring) : option Finding :=
  match s with
  | MarkdownImage =>
      option_map FoundUrl (and_then (js_match markdownImageRe content) group1)
  | BareUrl =>
      option_map FoundUrl
        (and_then (js_match urlRe content) (fun m => Some (whole m)))
  | Base64Token =>
      if (100 <? length content)%nat && negb (includes_char content (chr " "))
      then option_map FoundBlob (b64toBlob content (lit "image/png") 512)
      else None
  end.

(** The first branch whose test succeeds. *)
Fixpoint first_match (ss : list Strategy) (content : jsstring)
  : option (Strategy * Finding) :=
  match ss with
  | [] => None
  | s :: ss' =>
      match applies s content with
      | Some x => Some (s, x)
      | None => first_match ss' content
      end
  end.

(** A URL is fetched and materialized, decoded bytes are handed out as they
    are. *)
Definition resolve (w : World) (x : Finding) : Async FrameUrl :=
  match x with
  | FoundUrl u => fetchAndCreateBlobUrl w u
  | FoundBlob b => ret (BlobUrl b)
  end.

(** The chain of branches, ended by the diagnostic error. *)
Definition parseReply (w : World) (content : jsstring) : Async FrameUrl :=
  match first_match strategies content with
  | Some (_, x) => resolve w x
  | None => throw (notFound content)
  end.

(** The client and the request of one frame. *)
Definition newClient (key : jsstring) : Client :=
  mkClient key (lit "https://ark.cn-beijing.volces.com/api/v3").

Definition frameRequest (imageBase64 mimeType prompt : jsstring) (index total : Z)
  : ChatRequest :=
  mkChatRequest (lit "ep-20251127000002-dblf6")
    (mkPrompt (index + 1) total prompt)
    (lit "data:" ++ mimeType ++ lit ";base64," ++ imageBase64).

(** What [content] holds in [generateSingleFrame] once the request has been
    answered: a rejection of the call, a [TypeError] of the reading, or the
    value read. *)
Definition replyContent (w : World) (c : Client) (req : ChatRequest)
  : result JsValue :=
  match completion w c req with
  | Ok response => content_of w response
  | Throw e => Throw e
  end.

(** [n] consecutive indices from [i] on. *)
Fixpoint zseq (i : Z) (n : nat) : list Z :=
  match n with
  | O => []
  | S n' => i :: zseq (i + 1) n'
  end.

(** The frames of the group that starts at index [i]. *)
Definition members (count i : Z) : list Z :=
  zseq i (Nat.min (Z.to_nat batchSize) (Z.to_nat (Z.min (i + batchSize) count - i))).

(** The same host with other instants: for the settling of the frames, or
    for everything. *)
Definition with_times (w : World) (times : Z -> N) : World :=
  mkWorld (env_API_KEY w) (aistudio_hasSelectedApiKey w) (completion w)
    (complains w) (fetch_blob w) (starts_at w) (replies_at w) times.

Definition with_instants (w : World) (starts replies settles : Z -> N) : World :=
  mkWorld (env_API_KEY w) (aistudio_hasSelectedApiKey w) (completion w)
    (complains w) (fetch_blob w) starts replies settles.

(** A chat request, as opposed to a fetch. *)
Definition isChat (ev : Event) : bool :=
  match ev with
  | ChatCompletion _ _ => true
  | Fetch _ => false
  end.

(* ------------------------------------------------------------------ *)
(** ** Sample hosts and replies *)
(* ------------------------------------------------------------------ *)

(** The body of a well-formed response whose first choice carries
    [content]. *)
Definition responseWith (content : JsValue) : JsValue :=
  JsObject
    [(lit "id", JsString (lit "chatcmpl-0"));
     (lit "choices",
      JsArray
        [JsObject
           [(lit "index", JsNumber 0);
            (lit "message",
             JsObject [(lit "role", JsString (lit "assistant"));
                       (lit "content", content)]);
            (lit "finish_reason", JsString (lit "stop"))]])].

(** A body without choices, as a gateway sends with an error. *)
Definition errorBody : JsValue :=
  JsObject [(lit "error", JsObject [(lit "code", JsString (lit "ModelLoading"))])].

(** The messages of one engine. *)
Definition engine : Fault -> jsstring :=
  fun f =>
    match f with
    | ReadOf JsNull name =>
        lit "Cannot read properties of null (reading '" ++ name ++ lit "')"
    | ReadOf _ name =>
        lit "Cannot read properties of undefined (reading '" ++ name ++ lit "')"
    | CallOf _ name => lit "content." ++ name ++ lit " is not a function"
    end.

(** The starts of the frames: the groups two seconds apart, the frames of a
    group after the delays of 0, 100 and 200 milliseconds. *)
Definition staggered : Z -> N :=
  fun j =>
    (2000 * Z.to_N (j / 3)
     + match (j mod 3)%Z with
       | 0%Z => 0
       | 1%Z => 100
       | _ => 300
       end)%N.

(** A host whose service answers frame [j] with [reply j] after
    [latency j]; a frame settles one instant after the answer. *)
Definition host (key : option jsstring) (bridge : option (option bool))
    (reply : Z -> result JsValue) (fetched : jsstring -> option Blob)
    (latency : Z -> N) : World :=
  mkWorld key bridge (fun _ req => reply (frame_number (text req) - 1)%Z)
    engine fetched staggered
    (fun j => staggered j + latency j)%N
    (fun j => staggered j + latency j + 1)%N.

(** A host with a credential and no AI Studio bridge. *)
Definition sampleKey : jsstring := lit "sk-test".

Definition hostWith (reply : Z -> result JsValue)
    (fetched : jsstring -> option Blob) (latency : Z -> N) : World :=
  host (Some sampleKey) None reply fetched latency.

(** No URL can be fetched; every URL yields the same blob. *)
Definition offline : jsstring -> option Blob := fun _ => None.
Definition pixel : Blob := mkBlob [[137; 80; 78; 71]%N] (lit "image/png").
Definition online : jsstring -> option Blob := fun _ => Some pixel.

(** Every answer takes 800 milliseconds, so that the frames of a group
    settle in the order of their starts, the first two while the last is
    not yet started... *)
Definition steady : Z -> N := fun _ => 800%N.

(** ... the later a frame of a group is started, the shorter its answer
    takes, so that the frames of a group settle in the reverse order... *)
Definition reversed : Z -> N := fun j => (1000 - 400 * Z.to_N (j mod 3))%N.

(** ... every answer takes 10 milliseconds, so that a frame has settled when
    the next one is started... *)
Definition quick : Z -> N := fun _ => 10%N.

(** ... the answer to frame 0 takes 250 milliseconds and the others 10. *)
Definition slowFirst : Z -> N := fun j => if (j =? 0)%Z then 250%N else 10%N.

(** Replies and arguments used in the examples. *)
Definition markdownSample : jsstring := lit "![alt](https://x/y.png)".
Definition urlSample : jsstring := lit "https://x/y.png".
Definition wrapped : jsstring :=
  repeat (chr "A") 50 ++ [10%N] ++ repeat (chr "A") 50 ++ [10%N].
Definition dashes : jsstring := repeat (chr "-") 500.
Definition zeros : jsstring := repeat (chr "A") 500.
Definition emptyTarget : jsstring := lit "![]()" ++ markdownSample.
Definition twoImages : jsstring :=
  lit "![first](https://a/b.png) and " ++ markdownSample.
Definition brokenOpening : jsstring := lit "![x" ++ markdownSample.
Definition longUrl : jsstring := lit "https://x/" ++ repeat (chr "A") 100.
Definition refImage : jsstring := lit "iVBORw0KGgo=".
Definition png : jsstring := lit "image/png".
Definition walk : jsstring := lit "walk".
Definition answer (reply : jsstring) : Z -> result JsValue :=
  fun _ => Ok (responseWith (JsString reply)).

(** A service that answers frame [j] with a URL ending in the digit [j]. *)
Definition numbered : Z -> result JsValue :=
  fun j => Ok (responseWith (JsString (lit "https://cdn/f" ++ [chr "0" + Z.to_N j]%N))).

Definition numberedUrl (j : Z) : FrameUrl :=
  PlainUrl (lit "https://cdn/f" ++ [chr "0" + Z.to_N j]%N).

(** A signal seen aborted from the boundary [b] on. *)
Definition abortedFrom (b : nat) : AbortSignal := mkSignal (fun g => b <=? g).

(** A service whose first answer has no content and whose others hold no
    image. *)
Definition refusing : Z -> result JsValue :=
  fun j =>
    if (j =? 0)%Z then Ok (responseWith JsNull)
    else Ok (responseWith (JsString (lit "I cannot draw that."))).

(** A host without credential whose AI Studio bridge reports a selected key. *)
Definition studioHost : World :=
  host None (Some (Some true)) (fun _ => Ok (responseWith JsNull)) offline steady.

(** A host whose credential is the empty string. *)
Definition emptyKeyHost : World :=
  host (Some []) None (fun _ => Ok (responseWith JsNull)) online steady.

(** A host without credential whose bridge reports no selected key. *)
Definition unselectedHost : World :=
  host None (Some (Some false)) (fun _ => Ok (responseWith JsNull)) online steady.

(* ------------------------------------------------------------------ *)
(** ** The key prompt, and further notions and samples *)
(* ------------------------------------------------------------------ *)

(** What the module shows to the user or writes to the console. *)
Inductive Notice : Type :=
| ConsoleWarn (msg : jsstring)
| Alert (msg : jsstring).

(** The text passed to [alert], code unit by code unit: it asks to set
    [API_KEY] in the [.env] file and to restart the service. *)
Definition configureKeyNotice : jsstring :=
  [35831; 22312; 32; 46; 101; 110; 118; 32; 25991; 20214; 20013; 37197; 32622;
   32; 65; 80; 73; 95; 75; 69; 89; 32; 40; 20363; 22914; 32; 65; 80; 73; 95;
   75; 69; 89; 61; 115; 107; 45; 46; 46; 46; 41; 65292; 28982; 21518; 37325;
   21551; 26381; 21153; 12290]%N.

(** [promptApiKeySelection] *)
Definition promptApiKeySelection (w : World) : result unit * list Notice :=
  if truthy_opt (env_API_KEY w) then (Ok tt, [])
  else
    (Ok tt,
     [ConsoleWarn (lit "API Key not found in environment.");
      Alert configureKeyNotice]).

(** The character of the base64 alphabet that stands for a value below 64. *)
Definition base64Char (v : N) : N :=
  if (v <? 26)%N then (v + 65)%N
  else if (v <? 52)%N then (v + 71)%N
  else if (v <? 62)%N then (v - 4)%N
  else if (v =? 62)%N then 43%N
  else 47%N.

(** The 6-bit values that encode a sequence of bytes: four for every three
    bytes, two or three for what is left. *)
Fixpoint sextetsOf (bytes : list N) : list N :=
  match bytes with
  | a :: b :: c :: rest =>
      (a / 4 :: (a mod 4) * 16 + b / 16 :: (b mod 16) * 4 + c / 64 :: c mod 64
         :: sextetsOf rest)%N
  | [a; b] => [a / 4; (a mod 4) * 16 + b / 16; (b mod 16) * 4]%N
  | [a] => [a / 4; (a mod 4) * 16]%N
  | [] => []
  end.

(** The [=] signs that complete the last group of four characters. *)
Definition paddingOf (bytes : list N) : jsstring :=
  match length bytes mod 3 with
  | 0 => []
  | 1 => [61; 61]%N
  | _ => [61]%N
  end.

(** Standard base64 with padding, what the platform's [btoa] produces for a
    binary string. *)
Definition encodeBase64 (bytes : list N) : jsstring :=
  map base64Char (sextetsOf bytes) ++ paddingOf bytes.

(** Replies used in the examples. *)
Definition nestedParens : jsstring := lit "![map](https://x/y_(1).png) done".
Definition urlInSentence : jsstring := lit "See (https://x/y.png), please.".

(** A host whose bridge throws and whose credential is set. *)
Definition brokenStudioHost : World :=
  host (Some sampleKey) (Some None) (fun _ => Ok (responseWith JsNull)) offline steady.

(** A service that rejects the request for frame 4 and answers the others. *)
Definition failingAt4 : Z -> result JsValue :=
  fun j => if (j =? 4)%Z then Throw (Error (lit "429 Too Many Requests")) else numbered j.

(** A service that answers with a body without choices; one whose answer
    carries a number where the text is expected. *)
Definition unavailable : Z -> result JsValue := fun _ => Ok errorBody.
Definition numeric : Z -> result JsValue := fun _ => Ok (responseWith (JsNumber 42)).

(* ------------------------------------------------------------------ *)
(** ** Properties of the matcher *)
(* ------------------------------------------------------------------ *)

Example markdown_example :
  option_map groups (js_match markdownImageRe (lit "see ![alt](https://x/y.png) ok"))
  = Some [lit "https://x/y.png"].
Proof. reflexivity. Qed.

Example url_example :
  option_map whole (js_match urlRe (lit "see https://x/y.png ok"))
  = Some (lit "https://x/y.png").
Proof. reflexivity. Qed.

Example markdown_first_image :
  option_map groups (js_match markdownImageRe (lit "![a](u1) and ![b](u2)"))
  = Some [lit "u1"].
Proof. reflexivity. Qed.

Example markdown_lazy_target :
  option_map groups (js_match markdownImageRe (lit "![a]b](c)d)"))
  = Some [lit "c"].
Proof. reflexivity. Qed.

Example markdown_one_line :
  js_match markdownImageRe (lit "![a" ++ [10%N] ++ lit "](u)") = None.
Proof. reflexivity. Qed.

Example url_needs_a_tail : js_match urlRe (lit "see http:// now") = None.
Proof. reflexivity. Qed.

Example url_takes_punctuation :
  option_map whole (js_match urlRe (lit "(http://x/y.png)."))
  = Some (lit "http://x/y.png).").
Proof. reflexivity. Qed.

Example atob_example : atob (lit "aGVsbG8=") = Some (lit "hello").
Proof. reflexivity. Qed.

Example atob_example2 : atob (lit "aGVs bG8") = Some (lit "hello").
Proof. reflexivity. Qed.

Example atob_example3 : atob (lit "aGVsbG8-") = None.
Proof. reflexivity. Qed.

(** *** The matcher *)

Lemma exec_lazy_eq p caps s k :
  exec (LazyStar p) caps s k =
  match k caps s with
  | Some m => Some m
  | None =>
      match s with
      | x :: s' => if p x then exec (LazyStar p) caps s' k else None
      | [] => None
      end
  end.
Proof. destruct s; reflexivity. Qed.

Lemma exec_plus_eq p caps s k :
  exec (Plus p) caps s k =
  match s with
  | x :: s' =>
      if p x then
        match exec (Plus p) caps s' k with
        | Some m => Some m
        | None => k caps s'
        end
      else None
  | [] => None
  end.
Proof. destruct s; reflexivity. Qed.

Lemma exec_lazy_sound p caps k m :
  forall s, exec (LazyStar p) caps s k = Some m ->
  exists a rest, s = a ++ rest /\ forallb p a = true /\ k caps rest = Some m.
Proof.
  induction s as [|x s IH]; rewrite exec_lazy_eq; intros H.
  - destruct (k caps []) eqn:E; [|discriminate].
    exists [], []. inversion H; subst. auto.
  - destruct (k caps (x :: s)) eqn:E.
    + exists [], (x :: s). inversion H; subst. auto.
    + destruct (p x) eqn:Px; [|discriminate].
      destruct (IH H) as (a & rest & -> & Ha & Hk).
      exists (x :: a), rest. simpl. rewrite Px. auto.
Qed.

Lemma exec_plus_sound p caps k m :
  forall s, exec (Plus p) caps s k = Some m ->
  exists a rest, s = a ++ rest /\ (a <> [] /\ forallb p a = true) /\ k caps rest = Some m.
Proof.
  induction s as [|x s IH]; rewrite exec_plus_eq; intros H; [discriminate|].
  destruct (p x) eqn:Px; [|discriminate].
  destruct (exec (Plus p) caps s k) eqn:E.
  - destruct (IH H) as (a & rest & -> & [_ Ha] & Hk).
    exists (x :: a), rest. simpl. rewrite Px. repeat split; auto. discriminate.
  - exists [x], s. simpl. rewrite Px. repeat split; auto. discriminate.
Qed.

(** Whatever the matcher consumes belongs to the language of the pattern. *)
Lemma exec_sound r :
  forall caps s k m, exec r caps s k = Some m ->
  exists a rest caps', s = a ++ rest /\ lang r a /\ k caps' rest = Some m.
Proof.
  induction r as [c|r IH|p|p|r1 IH1 r2 IH2|r IH]; intros caps s k m H.
  - destruct s as [|x s]; simpl in H; [discriminate|].
    destruct (N.eqb_spec x c); [|discriminate]. subst.
    exists [c], s, caps. simpl. auto.
  - simpl in H. destruct (exec r caps s k) eqn:E.
    + inversion H; subst. destruct (IH _ _ _ _ E) as (a & rest & caps' & ? & ? & ?).
      exists a, rest, caps'. simpl. auto.
    + exists [], s, caps. simpl. auto.
  - destruct (exec_lazy_sound _ _ _ _ _ H) as (a & rest & ? & ? & ?).
    exists a, rest, caps. simpl. auto.
  - destruct (exec_plus_sound _ _ _ _ _ H) as (a & rest & ? & ? & ?).
    exists a, rest, caps. simpl. auto.
  - simpl in H. destruct (IH1 _ _ _ _ H) as (a1 & rest1 & caps1 & -> & L1 & H2).
    destruct (IH2 _ _ _ _ H2) as (a2 & rest & caps2 & -> & L2 & Hk).
    exists (a1 ++ a2), rest, caps2. rewrite <- app_assoc. simpl. eauto 8.
  - simpl in H. destruct (IH _ _ _ _ H) as (a & rest & caps' & ? & ? & ?).
    eexists a, rest, _. eauto.
Qed.

Lemma firstn_app_length_sub (a rest : jsstring) :
  firstn (length (a ++ rest) - length rest) (a ++ rest) = a.
Proof.
  rewrite length_app, Nat.add_sub, firstn_app, Nat.sub_diag, firstn_all.
  simpl. apply app_nil_r.
Qed.

Lemma match_at_sound r s m :
  match_at r s = Some m -> exists rest, s = whole m ++ rest /\ lang r (whole m).
Proof.
  unfold match_at. destruct (exec r [] s _) as [[caps rest]|] eqn:E; [|discriminate].
  intros H; inversion H; subst; clear H. simpl.
  destruct (exec_sound _ _ _ _ _ E) as (a & rest' & caps' & -> & La & Hk).
  inversion Hk; subst. rewrite firstn_app_length_sub. eauto.
Qed.

(** A match is an occurrence of a string of the language. *)
Lemma js_match_sound r :
  forall s m, js_match r s = Some m ->
  exists pre post, s = pre ++ whole m ++ post /\ lang r (whole m).
Proof.
  induction s as [|x s IH]; intros m H; simpl in H.
  - destruct (match_at r []) eqn:E; [|discriminate]. inversion H; subst.
    destruct (match_at_sound _ _ _ E) as (rest & ? & ?). exists [], rest. auto.
  - destruct (match_at r (x :: s)) eqn:E.
    + inversion H; subst.
      destruct (match_at_sound _ _ _ E) as (rest & ? & ?). exists [], rest. auto.
    + destruct (IH _ H) as (pre & post & -> & L). exists (x :: pre), post. auto.
Qed.

Lemma exec_lazy_complete p caps k rest :
  (forall caps', k caps' rest <> None) ->
  forall a, forallb p a = true -> exec (LazyStar p) caps (a ++ rest) k <> None.
Proof.
  intros Hk. induction a as [|x a IH]; intros Ha.
  - rewrite exec_lazy_eq. simpl. specialize (Hk caps).
    destruct (k caps rest); congruence.
  - change ((x :: a) ++ rest) with (x :: (a ++ rest)). rewrite exec_lazy_eq.
    simpl in Ha. apply andb_prop in Ha as [Px Ha]. rewrite Px.
    destruct (k caps (x :: a ++ rest)); [discriminate|]. auto.
Qed.

Lemma exec_plus_complete p caps k rest :
  (forall caps', k caps' rest <> None) ->
  forall a, a <> [] -> forallb p a = true -> exec (Plus p) caps (a ++ rest) k <> None.
Proof.
  intros Hk. induction a as [|x a IH]; intros Hne Ha; [congruence|].
  change ((x :: a) ++ rest) with (x :: (a ++ rest)). rewrite exec_plus_eq.
  simpl in Ha. apply andb_prop in Ha as [Px Ha]. rewrite Px.
  destruct (exec (Plus p) caps (a ++ rest) k) eqn:E; [discriminate|].
  destruct a as [|y a]; [apply Hk|].
  exfalso. apply IH; auto. discriminate.
Qed.

(** If the input starts with a string of the language and the continuation
    accepts what follows, the matcher finds a match (possibly another one). *)
Lemma exec_complete r :
  forall caps k a rest, lang r a -> (forall caps', k caps' rest <> None) ->
  exec r caps (a ++ rest) k <> None.
Proof.
  induction r as [c|r IH|p|p|r1 IH1 r2 IH2|r IH]; intros caps k a rest La Hk.
  - simpl in La. subst. simpl. rewrite N.eqb_refl. apply Hk.
  - simpl in *. destruct La as [->|La].
    + simpl. destruct (exec r caps rest k); [discriminate|apply Hk].
    + specialize (IH caps k a rest La Hk).
      destruct (exec r caps (a ++ rest) k); congruence.
  - apply exec_lazy_complete; auto.
  - destruct La. apply exec_plus_complete; auto.
  - simpl in La. destruct La as (a1 & a2 & -> & L1 & L2).
    rewrite <- app_assoc. simpl. apply IH1; auto.
  - simpl in *. apply IH; auto.
Qed.

Lemma match_at_complete r a rest : lang r a -> match_at r (a ++ rest) <> None.
Proof.
  intros La. unfold match_at.
  pose proof (exec_complete r [] (fun caps rest => Some (caps, rest)) a rest La) as H.
  destruct (exec r [] (a ++ rest) _) as [[? ?]|]; [discriminate|].
  exfalso. apply H; [discriminate|reflexivity].
Qed.

(** Every occurrence of a string of the language makes [match] succeed. *)
Lemma js_match_complete r a post :
  lang r a -> forall pre, js_match r (pre ++ a ++ post) <> None.
Proof.
  intros La. induction pre as [|x pre IH].
  - simpl. pose proof (match_at_complete r a post La) as H.
    destruct (a ++ post); simpl; destruct (match_at r _); congruence.
  - simpl. destruct (match_at r _); [discriminate|exact IH].
Qed.

(** *** The two patterns *)

Lemma markdown_shape a :
  lang markdownImageRe a ->
  exists alt url,
    a = lit "![" ++ alt ++ lit "](" ++ url ++ lit ")"
    /\ forallb dot alt = true /\ forallb dot url = true.
Proof.
  simpl. intros (a1 & r1 & -> & -> & a2 & r2 & -> & -> & alt & r3 & -> & Halt
                 & a4 & r4 & -> & -> & a5 & r5 & -> & -> & url & a7 & -> & Hurl & ->).
  exists alt, url. repeat split; auto.
Qed.

Lemma url_shape a :
  lang urlRe a ->
  exists tail, tail <> [] /\ forallb notSpace tail = true
    /\ (a = lit "http://" ++ tail \/ a = lit "https://" ++ tail).
Proof.
  simpl. intros (a1 & r1 & -> & -> & a2 & r2 & -> & -> & a3 & r3 & -> & ->
                 & a4 & r4 & -> & -> & a5 & r5 & -> & Hs & a6 & r6 & -> & ->
                 & a7 & r7 & -> & -> & a8 & tail & -> & -> & Hne & Htail).
  exists tail. repeat split; auto. destruct Hs as [->| ->]; auto.
Qed.

(** Without [!] there is no markdown image, without [:] no URL. *)
Lemma markdown_needs_bang s :
  ~ In (chr "!") s -> js_match markdownImageRe s = None.
Proof.
  intros Hn. destruct (js_match markdownImageRe s) as [m|] eqn:E; [|reflexivity].
  exfalso. apply js_match_sound in E as (pre & post & -> & L).
  apply markdown_shape in L as (alt & url & Hw & _). rewrite Hw in Hn.
  apply Hn. apply in_or_app. right. apply in_or_app. left. left. reflexivity.
Qed.

Lemma url_needs_colon s :
  ~ In (chr ":") s -> js_match urlRe s = None.
Proof.
  intros Hn. destruct (js_match urlRe s) as [m|] eqn:E; [|reflexivity].
  exfalso. apply js_match_sound in E as (pre & post & -> & L).
  apply url_shape in L as (tail & _ & _ & [Hw | Hw]); rewrite Hw in Hn;
    apply Hn; apply in_or_app; right; apply in_or_app; left; simpl; tauto.
Qed.

(** A whitespace-free piece of [s] is no longer than [longestRun s]. *)
Lemma runFrom_prefix run :
  forallb notSpace run = true -> forall post, length run <= runFrom (run ++ post).
Proof.
  induction run as [|c run IH]; simpl; intros H post; [lia|].
  apply andb_prop in H as [Hc H]. rewrite Hc. specialize (IH H post). lia.
Qed.

Lemma longestRun_ge_runFrom s : runFrom s <= longestRun s.
Proof. destruct s; simpl; [lia|]. apply Nat.le_max_l. Qed.

Lemma longestRun_bound run post :
  forallb notSpace run = true ->
  forall pre, length run <= longestRun (pre ++ run ++ post).
Proof.
  intros H. induction pre as [|c pre IH]; simpl.
  - etransitivity; [apply (runFrom_prefix run H post)|apply longestRun_ge_runFrom].
  - etransitivity; [exact IH|]. apply Nat.le_max_r.
Qed.

(** *** Base64 *)

Lemma sextets_alphabet s vs :
  sextets s = Some vs -> forall c, In c s -> base64Value c <> None.
Proof.
  revert vs. induction s as [|x s IH]; intros vs H c Hc; [destruct Hc|].
  simpl in H. destruct (base64Value x) eqn:Ex; [|discriminate].
  destruct (sextets s) eqn:Es; [|discriminate].
  destruct Hc as [->|Hc]; [congruence|]. eapply IH; eauto.
Qed.

Lemma stripPadding_keeps s c :
  In c s -> In c (stripPadding s) \/ c = 61%N.
Proof.
  unfold stripPadding. intros Hc.
  destruct (rev s) as [|x r] eqn:E; [auto|].
  assert (Hs : s = rev r ++ [x]).
  { rewrite <- (rev_involutive s), E. reflexivity. }
  destruct (N.eqb_spec x 61) as [->|Hx]; [|auto].
  assert (Hr : In c (rev r) \/ c = 61%N).
  { subst s. apply in_app_or in Hc as [?|[<-|[]]]; auto. }
  destruct Hr as [Hr|?]; [|auto].
  destruct r as [|y r]; [auto|].
  destruct (N.eqb_spec y 61) as [->|Hy]; [|auto].
  simpl in Hr. apply in_app_or in Hr as [?|[<-|[]]]; auto.
Qed.

(** What [atob] accepts is made of the alphabet, [=] and ASCII whitespace. *)
Lemma atob_alphabet data bytes :
  atob data = Some bytes ->
  forall c, In c data ->
    isAsciiWhitespace c = true \/ c = 61%N \/ base64Value c <> None.
Proof.
  unfold atob. intros H c Hc.
  destruct (isAsciiWhitespace c) eqn:Ews; [auto|]. right.
  set (d := filter (fun c => negb (isAsciiWhitespace c)) data) in *.
  assert (Hd : In c d) by (apply filter_In; rewrite Ews; auto).
  set (d' := if (length d mod 4 =? 0)%nat then stripPadding d else d) in *.
  assert (Hd' : In c d' \/ c = 61%N).
  { subst d'. destruct (length d mod 4 =? 0)%nat; [|auto].
    apply stripPadding_keeps; exact Hd. }
  destruct Hd' as [Hd'|?]; [|auto]. right.
  destruct (length d' mod 4 =? 1)%nat; [discriminate|].
  destruct (sextets d') as [vs|] eqn:Es; [|discriminate].
  eapply sextets_alphabet; eauto.
Qed.

Lemma atob_no_markdown data bytes :
  atob data = Some bytes -> js_match markdownImageRe data = None.
Proof.
  intros H. apply markdown_needs_bang. intros Hc.
  destruct (atob_alphabet _ _ H _ Hc) as [E|[E|E]];
    [discriminate E|discriminate E|apply E; reflexivity].
Qed.

Lemma atob_no_url data bytes :
  atob data = Some bytes -> js_match urlRe data = None.
Proof.
  intros H. apply url_needs_colon. intros Hc.
  destruct (atob_alphabet _ _ H _ Hc) as [E|[E|E]];
    [discriminate E|discriminate E|apply E; reflexivity].
Qed.

(** *** Slicing *)

Lemma sliceLoop_concat s n :
  0 < n ->
  forall fuel offset, length s - offset <= fuel ->
  concat (sliceLoop fuel s n offset) = Uint8Array (skipn offset s).
Proof.
  intros Hn. induction fuel as [|fuel IH]; intros offset Hf; simpl.
  - rewrite skipn_all2 by lia. reflexivity.
  - destruct (Nat.ltb_spec offset (length s)).
    + simpl. rewrite IH by lia. unfold js_slice, Uint8Array.
      rewrite <- map_app. f_equal.
      replace (offset + n - offset) with n by lia.
      transitivity (firstn n (skipn offset s) ++ skipn n (skipn offset s));
        [|apply firstn_skipn].
      f_equal. rewrite skipn_skipn. f_equal. lia.
    + rewrite skipn_all2 by lia. reflexivity.
Qed.

Lemma b64toBlob_bytes data type blob :
  b64toBlob data type 512 = Some blob ->
  exists bytes, atob data = Some bytes
    /\ concat (blob_parts blob) = Uint8Array bytes /\ blob_type blob = type.
Proof.
  unfold b64toBlob. destruct (atob data) as [bytes|]; [|discriminate].
  intros H; inversion H; subst; clear H. exists bytes. simpl.
  rewrite sliceLoop_concat by lia. auto.
Qed.

(* ------------------------------------------------------------------ *)
(** ** What the patterns match and capture *)
(* ------------------------------------------------------------------ *)

(** *** Priorities of the quantifiers *)

(** A lazy star stops at the first place where the rest of the pattern
    succeeds. *)
Lemma exec_lazy_first p caps k m :
  forall s, exec (LazyStar p) caps s k = Some m ->
  exists a rest, s = a ++ rest /\ forallb p a = true /\ k caps rest = Some m
    /\ forall a1 a2, a = a1 ++ a2 -> a2 <> [] -> k caps (a2 ++ rest) = None.
Proof.
  induction s as [|x s IH]; rewrite exec_lazy_eq; intros H.
  - destruct (k caps []) eqn:E; [|discriminate].
    exists [], []. inversion H; subst. repeat split; auto.
    intros a1 a2 Ha Hne. destruct a1, a2; try discriminate. congruence.
  - destruct (k caps (x :: s)) eqn:E.
    + exists [], (x :: s). inversion H; subst. repeat split; auto.
      intros a1 a2 Ha Hne. destruct a1, a2; try discriminate. congruence.
    + destruct (p x) eqn:Px; [|discriminate].
      destruct (IH H) as (a & rest & -> & Ha & Hk & Hmin).
      exists (x :: a), rest. simpl. rewrite Px. repeat split; auto.
      intros a1 a2 Hsplit Hne. destruct a1 as [|y a1]; simpl in Hsplit.
      * subst a2. exact E.
      * inversion Hsplit; subst. apply Hmin with a1; auto.
Qed.

(** A greedy plus followed by a pattern that cannot fail takes every
    character it can. *)
Lemma exec_plus_longest p caps k m :
  (forall s', k caps s' <> None) ->
  forall s, exec (Plus p) caps s k = Some m ->
  exists a rest, s = a ++ rest /\ a <> [] /\ forallb p a = true
    /\ k caps rest = Some m
    /\ match rest with [] => True | c :: _ => p c = false end.
Proof.
  intros Hk. induction s as [|x s IH]; rewrite exec_plus_eq; intros H; [discriminate|].
  destruct (p x) eqn:Px; [|discriminate].
  destruct (exec (Plus p) caps s k) eqn:E.
  - destruct (IH H) as (a & rest & -> & _ & Ha & Hkr & Hnext).
    exists (x :: a), rest. simpl. rewrite Px. repeat split; auto. discriminate.
  - exists [x], s. simpl. rewrite Px. repeat split; auto; [discriminate|].
    destruct s as [|c s']; [exact I|].
    destruct (p c) eqn:Pc; [|reflexivity]. exfalso.
    rewrite exec_plus_eq, Pc in E.
    destruct (exec (Plus p) caps s' k); [discriminate|]. exact (Hk _ E).
Qed.

(** *** What the two patterns capture *)

Lemma match_at_markdown s m :
  match_at markdownImageRe s = Some m ->
  exists alt url post,
    s = lit "![" ++ alt ++ lit "](" ++ url ++ lit ")" ++ post
    /\ whole m = lit "![" ++ alt ++ lit "](" ++ url ++ lit ")"
    /\ groups m = [url]
    /\ forallb dot alt = true /\ forallb dot url = true
    /\ ~ In (chr ")") url.
Proof.
  unfold match_at.
  destruct (exec markdownImageRe [] s _) as [[caps rest]|] eqn:E; [|discriminate].
  intros H; inversion H; subst m; clear H. cbn [whole groups].
  unfold markdownImageRe in E. cbn [exec] in E.
  destruct s as [|c0 s]; [discriminate|].
  destruct (N.eqb_spec c0 (chr "!")) as [->|]; [|discriminate].
  destruct s as [|c1 s]; [discriminate|].
  destruct (N.eqb_spec c1 (chr "[")) as [->|]; [|discriminate].
  change ((fix lazy (s0 : jsstring) := _) s) with
    (exec (LazyStar dot) [] s
       (fun caps' s' =>
          exec (Chr (chr "]") >> Chr (chr "(") >> Group (LazyStar dot) >> Chr (chr ")"))
            caps' s' (fun caps rest => Some (caps, rest)))) in E.
  apply exec_lazy_first in E as (alt & r1 & -> & Halt & E & _).
  cbn [exec] in E.
  destruct r1 as [|c2 r1]; [discriminate|].
  destruct (N.eqb_spec c2 (chr "]")) as [->|]; [|discriminate].
  destruct r1 as [|c3 s2]; [discriminate|].
  destruct (N.eqb_spec c3 (chr "(")) as [->|]; [|discriminate].
  change ((fix lazy (s0 : jsstring) := _) s2) with
    (exec (LazyStar dot) [] s2
       (fun caps' s' =>
          exec (Chr (chr ")")) (caps' ++ [firstn (length s2 - length s') s2]) s'
            (fun caps rest => Some (caps, rest)))) in E.
  apply exec_lazy_first in E as (url & r2 & Hs2 & Hurl & E & Hmin).
  cbn [exec] in E.
  destruct r2 as [|c4 post]; [discriminate|].
  destruct (N.eqb_spec c4 (chr ")")) as [->|]; [|discriminate].
  inversion E; subst caps rest; clear E.
  exists alt, url, post. subst s2.
  assert (Hcap : firstn (length (url ++ chr ")" :: post) - length (chr ")" :: post))
                   (url ++ chr ")" :: post) = url)
    by apply firstn_app_length_sub.
  assert (Heq : chr "!" :: chr "[" :: alt ++ chr "]" :: chr "(" :: url ++ chr ")" :: post
                = (lit "![" ++ alt ++ lit "](" ++ url ++ lit ")") ++ post).
  { change (lit "![") with [chr "!"; chr "["].
    change (lit "](") with [chr "]"; chr "("].
    change (lit ")") with [chr ")"].
    cbn [app]. rewrite <- !app_assoc. cbn [app]. rewrite <- !app_assoc.
    reflexivity. }
  split; [rewrite Heq, <- !app_assoc; reflexivity|].
  split; [rewrite Heq; apply firstn_app_length_sub|].
  split; [cbn [app]; f_equal; exact Hcap|].
  split; [exact Halt|]. split; [exact Hurl|].
  intros Hin. apply in_split in Hin as (u1 & u2 & ->).
  specialize (Hmin u1 (chr ")" :: u2) eq_refl ltac:(discriminate)).
  cbn in Hmin. discriminate Hmin.
Qed.

Lemma exec_chr_inv c caps s k m :
  exec (Chr c) caps s k = Some m -> exists s', s = c :: s' /\ k caps s' = Some m.
Proof.
  destruct s as [|x s']; simpl; [discriminate|].
  destruct (N.eqb_spec x c) as [->|]; [|discriminate]. eauto.
Qed.

Lemma exec_cat_chr c r caps s k m :
  exec (Chr c >> r) caps s k = Some m ->
  exists s', s = c :: s' /\ exec r caps s' k = Some m.
Proof. intros H. apply (exec_chr_inv c caps s _ m H). Qed.

Lemma exec_cat_opt r r2 caps s k m :
  exec (Opt r >> r2) caps s k = Some m ->
  exec (r >> r2) caps s k = Some m \/ exec r2 caps s k = Some m.
Proof.
  cbn [exec]. destruct (exec r caps s _) eqn:E; intros H; [left|right]; congruence.
Qed.

Lemma match_at_url s m :
  match_at urlRe s = Some m ->
  exists tail post,
    (whole m = lit "http://" ++ tail \/ whole m = lit "https://" ++ tail)
    /\ s = whole m ++ post
    /\ groups m = [whole m]
    /\ tail <> [] /\ forallb notSpace tail = true
    /\ match post with [] => True | c :: _ => isWhiteSpace c = true end.
Proof.
  unfold match_at.
  destruct (exec urlRe [] s _) as [[caps rest]|] eqn:E; [|discriminate].
  intros H; inversion H; subst m; clear H. cbn [whole groups].
  unfold urlRe in E.
  change (exec (Group ?r) [] s ?k) with
    (exec r [] s (fun caps' s' => k (caps' ++ [firstn (length s - length s') s]) s')) in E.
  assert (Htail : forall prefix t,
    s = prefix ++ t ->
    exec (Plus notSpace) [] t
      (fun caps' s' => Some (caps' ++ [firstn (length s - length s') s], s'))
    = Some (caps, rest) ->
    exists tail, t = tail ++ rest /\ caps = [prefix ++ tail]
      /\ firstn (length s - length rest) s = prefix ++ tail
      /\ tail <> [] /\ forallb notSpace tail = true
      /\ match rest with [] => True | c :: _ => isWhiteSpace c = true end).
  { intros prefix t Hs Ht.
    apply exec_plus_longest in Ht as (tail & rest' & -> & Hne & Hall & Hk & Hnext);
      [|discriminate].
    inversion Hk; subst rest'; clear Hk.
    assert (Hw : firstn (length s - length rest) s = prefix ++ tail).
    { rewrite Hs, app_assoc. apply firstn_app_length_sub. }
    exists tail. rewrite Hw. repeat split; auto.
    destruct rest as [|c r]; [exact I|].
    unfold notSpace in Hnext. apply negb_false_iff. exact Hnext. }
  apply exec_cat_chr in E as (s0 & Hs0 & E).
  apply exec_cat_chr in E as (s1 & -> & E).
  apply exec_cat_chr in E as (s2 & -> & E).
  apply exec_cat_chr in E as (s3 & -> & E).
  apply exec_cat_opt in E as [E|E].
  - apply exec_cat_chr in E as (s4 & -> & E).
    apply exec_cat_chr in E as (s5 & -> & E).
    apply exec_cat_chr in E as (s6 & -> & E).
    apply exec_cat_chr in E as (s7 & -> & E).
    destruct (Htail (lit "https://") s7 Hs0 E) as (tail & -> & -> & Hw & ? & ? & ?).
    exists tail, rest. rewrite Hw. repeat split; auto.
  - apply exec_cat_chr in E as (s5 & -> & E).
    apply exec_cat_chr in E as (s6 & -> & E).
    apply exec_cat_chr in E as (s7 & -> & E).
    destruct (Htail (lit "http://") s7 Hs0 E) as (tail & -> & -> & Hw & ? & ? & ?).
    exists tail, rest. rewrite Hw. repeat split; auto.
Qed.

(** [match] returns the attempt at the leftmost index that has one. *)
Lemma js_match_leftmost r :
  forall s m, js_match r s = Some m ->
  exists pre rest, s = pre ++ rest /\ match_at r rest = Some m
    /\ forall p1 p2, pre = p1 ++ p2 -> p2 <> [] -> match_at r (p2 ++ rest) = None.
Proof.
  induction s as [|x s IH]; intros m H; cbn [js_match] in H.
  - destruct (match_at r []) eqn:E; [|discriminate]. inversion H; subst.
    exists [], []. repeat split; auto.
    intros p1 p2 Hp Hne. destruct p1, p2; try discriminate. congruence.
  - destruct (match_at r (x :: s)) eqn:E.
    + inversion H; subst. exists [], (x :: s). repeat split; auto.
      intros p1 p2 Hp Hne. destruct p1, p2; try discriminate. congruence.
    + destruct (IH _ H) as (pre & rest & -> & Hm & Hleft).
      exists (x :: pre), rest. repeat split; auto.
      intros p1 p2 Hp Hne. destruct p1 as [|y p1]; simpl in Hp.
      * subst p2. exact E.
      * inversion Hp; subst. apply Hleft with p1; auto.
Qed.

Lemma imageReference_lang a : imageReference a <-> lang markdownImageRe a.
Proof.
  split.
  - intros (alt & target & -> & Ha & Ht). cbn [lang markdownImageRe].
    exists [chr "!"], (lit "[" ++ alt ++ lit "](" ++ target ++ lit ")").
    split; [reflexivity|]. split; [reflexivity|].
    exists [chr "["], (alt ++ lit "](" ++ target ++ lit ")").
    split; [reflexivity|]. split; [reflexivity|].
    exists alt, (lit "](" ++ target ++ lit ")").
    split; [reflexivity|]. split; [exact Ha|].
    exists [chr "]"], (lit "(" ++ target ++ lit ")").
    split; [reflexivity|]. split; [reflexivity|].
    exists [chr "("], (target ++ lit ")").
    split; [reflexivity|]. split; [reflexivity|].
    exists target, (lit ")"). auto.
  - intros H. apply markdown_shape in H as (alt & target & ? & ? & ?).
    exists alt, target. auto.
Qed.

Lemma httpUrl_lang a : httpUrl a <-> lang urlRe a.
Proof.
  split.
  - intros (tail & Ha & Hne & Ht). cbn [lang urlRe].
    assert (Hrest : forall x,
      (x = lit "://" ++ tail) ->
      exists a1 a2, x = a1 ++ a2 /\ a1 = [chr ":"] /\
      exists a3 a4, a2 = a3 ++ a4 /\ a3 = [chr "/"] /\
      exists a5 a6, a4 = a5 ++ a6 /\ a5 = [chr "/"] /\ a6 <> [] /\ forallb notSpace a6 = true).
    { intros x ->. exists [chr ":"], (lit "//" ++ tail). split; [reflexivity|].
      split; [reflexivity|]. exists [chr "/"], (lit "/" ++ tail).
      split; [reflexivity|]. split; [reflexivity|].
      exists [chr "/"], tail. auto. }
    destruct Ha as [-> | ->].
    + exists [chr "h"], (lit "ttp://" ++ tail). split; [reflexivity|]. split; [reflexivity|].
      exists [chr "t"], (lit "tp://" ++ tail). split; [reflexivity|]. split; [reflexivity|].
      exists [chr "t"], (lit "p://" ++ tail). split; [reflexivity|]. split; [reflexivity|].
      exists [chr "p"], (lit "://" ++ tail). split; [reflexivity|]. split; [reflexivity|].
      exists [], (lit "://" ++ tail). split; [reflexivity|]. split; [left; reflexivity|].
      apply Hrest. reflexivity.
    + exists [chr "h"], (lit "ttps://" ++ tail). split; [reflexivity|]. split; [reflexivity|].
      exists [chr "t"], (lit "tps://" ++ tail). split; [reflexivity|]. split; [reflexivity|].
      exists [chr "t"], (lit "ps://" ++ tail). split; [reflexivity|]. split; [reflexivity|].
      exists [chr "p"], (lit "s://" ++ tail). split; [reflexivity|]. split; [reflexivity|].
      exists [chr "s"], (lit "://" ++ tail). split; [reflexivity|]. split; [right; reflexivity|].
      apply Hrest. reflexivity.
  - intros H. apply url_shape in H as (tail & ? & ? & ?). exists tail. auto.
Qed.

Lemma js_match_occurs r s :
  js_match r s <> None <-> exists pre a post, s = pre ++ a ++ post /\ lang r a.
Proof.
  split.
  - destruct (js_match r s) as [m|] eqn:E; [|congruence]. intros _.
    apply js_match_sound in E as (pre & post & ? & ?). eauto.
  - intros (pre & a & post & -> & La). apply js_match_complete. exact La.
Qed.

Lemma match_at_none_lang r x :
  match_at r x = None -> forall a tail, x = a ++ tail -> ~ lang r a.
Proof.
  intros H a tail -> La. exact (match_at_complete r a tail La H).
Qed.

(** X1. The markdown pattern matches a text exactly when the text contains
    an image reference written on one line, [![alt](target)], where [alt]
    and [target] may be empty. *)
Theorem markdown_pattern_matches s :
  js_match markdownImageRe s <> None
  <-> exists pre a post, s = pre ++ a ++ post /\ imageReference a.
Proof.
  rewrite js_match_occurs. split; intros (pre & a & post & Hs & Ha);
    exists pre, a, post; (split; [exact Hs|]); apply imageReference_lang; exact Ha.
Qed.

(** X2. The URL pattern matches a text exactly when the text contains
    [http://] or [https://] followed by a character that is not
    whitespace. *)
Theorem url_pattern_matches s :
  js_match urlRe s <> None
  <-> exists pre c post,
        isWhiteSpace c = false
        /\ (s = pre ++ lit "http://" ++ c :: post
            \/ s = pre ++ lit "https://" ++ c :: post).
Proof.
  rewrite js_match_occurs. split.
  - intros (pre & a & post & -> & Ha). apply httpUrl_lang in Ha.
    destruct Ha as (tail & Ha & Hne & Ht).
    destruct tail as [|c tail]; [congruence|].
    simpl in Ht. apply andb_prop in Ht as [Hc _].
    exists pre, c, (tail ++ post). split; [apply negb_true_iff; exact Hc|].
    destruct Ha as [-> | ->]; [left|right]; rewrite <- !app_assoc; reflexivity.
  - intros (pre & c & post & Hc & Hs).
    assert (Hn : forallb notSpace [c] = true).
    { simpl. unfold notSpace. rewrite Hc. reflexivity. }
    destruct Hs as [-> | ->].
    + exists pre, (lit "http://" ++ [c]), post. split.
      * rewrite <- !app_assoc. reflexivity.
      * apply httpUrl_lang. exists [c]. split; [left; reflexivity|].
        split; [discriminate|exact Hn].
    + exists pre, (lit "https://" ++ [c]), post. split.
      * rewrite <- !app_assoc. reflexivity.
      * apply httpUrl_lang. exists [c]. split; [right; reflexivity|].
        split; [discriminate|exact Hn].
Qed.

Lemma applies_markdown_shape reply target :
  applies MarkdownImage reply = Some (FoundUrl target) ->
  exists pre alt post,
    reply = pre ++ (lit "![" ++ alt ++ lit "](" ++ target ++ lit ")") ++ post
    /\ target <> []
    /\ ~ In (chr ")") target
    /\ forallb dot target = true /\ forallb dot alt = true
    /\ forall p1 p2 a tail,
         pre = p1 ++ p2 -> p2 <> [] ->
         p2 ++ (lit "![" ++ alt ++ lit "](" ++ target ++ lit ")") ++ post = a ++ tail ->
         ~ imageReference a.
Proof.
  unfold applies, and_then.
  destruct (js_match markdownImageRe reply) as [m|] eqn:E; [|discriminate].
  apply js_match_leftmost in E as (pre & rest & -> & Hm & Hleft).
  apply match_at_markdown in Hm as (alt & url & post & -> & Hw & Hg & Ha & Hu & Hp).
  unfold group1. rewrite Hg. cbn [nth_error].
  destruct (truthy url) eqn:Ht; [|discriminate].
  intros H; inversion H; subst url; clear H.
  exists pre, alt, post.
  assert (Heq : lit "![" ++ alt ++ lit "](" ++ target ++ lit ")" ++ post
                = (lit "![" ++ alt ++ lit "](" ++ target ++ lit ")") ++ post).
  { rewrite <- !app_assoc. reflexivity. }
  rewrite Heq in *. split; [reflexivity|].
  split; [destruct target; [discriminate Ht|discriminate]|].
  split; [exact Hp|]. split; [exact Hu|]. split; [exact Ha|].
  intros p1 p2 a tail Hpre Hne Hs Hi.
  apply imageReference_lang in Hi.
  exact (match_at_none_lang _ _ (Hleft p1 p2 Hpre Hne) a tail Hs Hi).
Qed.

(** X3. What strategy (a) extracts is the target of the first image
    reference of the reply: it is not empty, it stops before the first
    closing parenthesis, it holds no line terminator, and no image reference
    starts at an earlier index. *)
Theorem markdown_target_shape reply target :
  applies MarkdownImage reply = Some (FoundUrl target) ->
  exists pre alt post,
    reply = pre ++ (lit "![" ++ alt ++ lit "](" ++ target ++ lit ")") ++ post
    /\ target <> []
    /\ ~ In (chr ")") target
    /\ forallb dot target = true /\ forallb dot alt = true
    /\ forall p1 p2 a tail,
         pre = p1 ++ p2 -> p2 <> [] ->
         p2 ++ (lit "![" ++ alt ++ lit "](" ++ target ++ lit ")") ++ post = a ++ tail ->
         ~ imageReference a.
Proof. apply applies_markdown_shape. Qed.

Lemma markdown_target_shape_witness :
  exists pre alt post,
    nestedParens = pre ++ (lit "![" ++ alt ++ lit "](" ++ lit "https://x/y_(1" ++ lit ")") ++ post
    /\ lit "https://x/y_(1" <> []
    /\ ~ In (chr ")") (lit "https://x/y_(1")
    /\ forallb dot (lit "https://x/y_(1") = true /\ forallb dot alt = true
    /\ forall p1 p2 a tail,
         pre = p1 ++ p2 -> p2 <> [] ->
         p2 ++ (lit "![" ++ alt ++ lit "](" ++ lit "https://x/y_(1" ++ lit ")") ++ post
         = a ++ tail ->
         ~ imageReference a.
Proof.
  apply (markdown_target_shape nestedParens (lit "https://x/y_(1")). reflexivity.
Defined.

Lemma applies_url_shape reply url :
  applies BareUrl reply = Some (FoundUrl url) ->
  exists pre tail post,
    reply = pre ++ url ++ post
    /\ (url = lit "http://" ++ tail \/ url = lit "https://" ++ tail)
    /\ tail <> [] /\ forallb notSpace tail = true
    /\ match post with [] => True | c :: _ => isWhiteSpace c = true end
    /\ forall p1 p2 a rest,
         pre = p1 ++ p2 -> p2 <> [] -> p2 ++ url ++ post = a ++ rest ->
         ~ httpUrl a.
Proof.
  unfold applies, and_then.
  destruct (js_match urlRe reply) as [m|] eqn:E; [|discriminate].
  apply js_match_leftmost in E as (pre & rest & -> & Hm & Hleft).
  apply match_at_url in Hm as (tail & post & Hw & -> & _ & Hne & Ht & Hnext).
  destruct (truthy (whole m)); [|discriminate].
  intros H; inversion H as [Hu]; clear H. rewrite Hu in *.
  exists pre, tail, post. repeat split; auto.
  intros p1 p2 a rest Hpre Hp2 Hs Hi. apply httpUrl_lang in Hi.
  exact (match_at_none_lang _ _ (Hleft p1 p2 Hpre Hp2) a rest Hs Hi).
Qed.

(** X4. What strategy (b) extracts is the first [http://] or [https://] URL
    of the reply, taken up to the next whitespace character or the end of
    the reply, whatever punctuation that includes. *)
Theorem bare_url_shape reply url :
  applies BareUrl reply = Some (FoundUrl url) ->
  exists pre tail post,
    reply = pre ++ url ++ post
    /\ (url = lit "http://" ++ tail \/ url = lit "https://" ++ tail)
    /\ tail <> [] /\ forallb notSpace tail = true
    /\ match post with [] => True | c :: _ => isWhiteSpace c = true end
    /\ forall p1 p2 a rest,
         pre = p1 ++ p2 -> p2 <> [] -> p2 ++ url ++ post = a ++ rest ->
         ~ httpUrl a.
Proof. apply applies_url_shape. Qed.

Lemma bare_url_shape_witness :
  exists pre tail post,
    urlInSentence = pre ++ lit "https://x/y.png)," ++ post
    /\ (lit "https://x/y.png)," = lit "http://" ++ tail
        \/ lit "https://x/y.png)," = lit "https://" ++ tail)
    /\ tail <> [] /\ forallb notSpace tail = true
    /\ match post with [] => True | c :: _ => isWhiteSpace c = true end
    /\ forall p1 p2 a rest,
         pre = p1 ++ p2 -> p2 <> [] ->
         p2 ++ lit "https://x/y.png)," ++ post = a ++ rest ->
         ~ httpUrl a.
Proof.
  apply (bare_url_shape urlInSentence (lit "https://x/y.png),")). reflexivity.
Defined.

(** *** The branches and the wording of the specification *)

Lemma first_image_reference reply :
  (exists a, imageReference a /\ infix_of a reply) ->
  exists m target, js_match markdownImageRe reply = Some m /\ group1 m = Some target.
Proof.
  intros (a & Ha & pre & post & ->). apply imageReference_lang in Ha.
  destruct (js_match markdownImageRe (pre ++ a ++ post)) as [m|] eqn:E.
  - exists m. destruct (js_match_leftmost _ _ _ E) as (p & rest & _ & Hm & _).
    apply match_at_markdown in Hm as (alt & url & post' & _ & _ & Hg & _).
    exists url. split; [reflexivity|]. unfold group1. rewrite Hg. reflexivity.
  - exfalso. exact (js_match_complete _ _ _ Ha pre E).
Qed.

Lemma no_image_reference reply :
  js_match markdownImageRe reply = None ->
  ~ exists a, imageReference a /\ infix_of a reply.
Proof.
  intros E (a & Ha & pre & post & ->). apply imageReference_lang in Ha.
  exact (js_match_complete _ _ _ Ha pre E).
Qed.

Lemma spec_markdown_reference reply :
  spec_matches MarkdownImage reply -> exists a, imageReference a /\ infix_of a reply.
Proof.
  intros (alt & target & _ & Ha & Ht & Hin).
  exists (lit "![" ++ alt ++ lit "](" ++ target ++ lit ")").
  split; [exists alt, target; auto|exact Hin].
Qed.

(** The first branch succeeds exactly when the target of the first image
    reference is not empty. *)
Lemma markdown_branch reply m target :
  js_match markdownImageRe reply = Some m -> group1 m = Some target ->
  (target <> [] -> applies MarkdownImage reply = Some (FoundUrl target))
  /\ (target = [] -> applies MarkdownImage reply = None).
Proof.
  intros Hm Hg. unfold applies, and_then. rewrite Hm, Hg.
  split; intros H; [destruct target; [congruence|reflexivity]|subst; reflexivity].
Qed.

Lemma markdown_branch_spec reply url :
  applies MarkdownImage reply = Some (FoundUrl url) -> spec_matches MarkdownImage reply.
Proof.
  intros H. apply applies_markdown_shape in H
    as (pre & alt & post & -> & Hne & _ & Ht & Ha & _).
  exists alt, url. repeat split; auto. exists pre, post. reflexivity.
Qed.

(** The second branch succeeds exactly when the reply holds a URL. *)
Lemma url_branch reply :
  spec_matches BareUrl reply <-> exists url, applies BareUrl reply = Some (FoundUrl url).
Proof.
  split.
  - intros (a & Ha & pre & post & ->). apply httpUrl_lang in Ha.
    unfold applies, and_then.
    destruct (js_match urlRe (pre ++ a ++ post)) as [m|] eqn:E.
    + destruct (js_match_leftmost _ _ _ E) as (p & rest & _ & Hm & _).
      apply match_at_url in Hm as (tail & post' & Hw & _).
      exists (whole m).
      assert (Ht : truthy (whole m) = true) by (destruct Hw as [-> | ->]; reflexivity).
      rewrite Ht. reflexivity.
    + exfalso. exact (js_match_complete _ _ _ Ha pre E).
  - intros (url & H). apply applies_url_shape in H
      as (pre & tail & post & -> & Hu & Hne & Ht & _).
    exists url. split; [exists tail; auto|exists pre, post; reflexivity].
Qed.

(** The third branch succeeds only on replies in which the two patterns
    find nothing. *)
Lemma base64_branch reply x :
  applies Base64Token reply = Some x ->
  (exists blob, x = FoundBlob blob)
  /\ js_match markdownImageRe reply = None /\ js_match urlRe reply = None.
Proof.
  unfold applies. destruct (_ && _); [|discriminate].
  destruct (b64toBlob reply _ _) as [blob|] eqn:E; [|discriminate].
  intros H; inversion H; subst x; clear H.
  apply b64toBlob_bytes in E as (bytes & Ha & _).
  split; [eauto|]. split; [eapply atob_no_markdown|eapply atob_no_url]; eassumption.
Qed.

Lemma sample_is_reference : imageReference markdownSample.
Proof. exists (lit "alt"), urlSample. repeat split; reflexivity. Qed.

Lemma sample_is_url : httpUrl urlSample.
Proof.
  exists (lit "x/y.png"). split; [right; reflexivity|].
  split; [discriminate|reflexivity].
Qed.

Lemma sample_holds_url reply :
  infix_of markdownSample reply -> spec_matches BareUrl reply.
Proof.
  intros (pre & post & ->). exists urlSample. split; [exact sample_is_url|].
  exists (pre ++ lit "![alt]("), (lit ")" ++ post).
  rewrite <- !app_assoc. reflexivity.
Qed.

(* ------------------------------------------------------------------ *)
(** ** Properties of one frame *)
(* ------------------------------------------------------------------ *)

(** *** One frame *)

Lemma bind_ret_l {A B} (a : A) (f : A -> Async B) : bind (ret a) f = f a.
Proof. unfold bind, ret. destruct (f a). reflexivity. Qed.

Lemma try_rethrow {A} (m : Async A) : try_catch m (fun e => throw e) = m.
Proof.
  destruct m as [[a|e] t]; simpl; [reflexivity|]. rewrite app_nil_r. reflexivity.
Qed.

Section Frame.

Variable w : World.
Variables imageBase64 mimeType prompt : jsstring.
Variables index total : Z.
Variable key : jsstring.

Hypothesis Hkey : env_API_KEY w = Some key.
Hypothesis Hkey_truthy : truthy key = true.

Let request := frameRequest imageBase64 mimeType prompt index total.
Let sent := ChatCompletion (newClient key) request.

Lemma frame_settles r :
  replyContent w (newClient key) request = r ->
  generateSingleFrame w imageBase64 mimeType prompt index total =
  match r with
  | Throw e => (Throw e, [sent])
  | Ok (JsString content) =>
      if truthy content
      then (fst (parseReply w content), sent :: snd (parseReply w content))
      else (Throw noContent, [sent])
  | Ok v =>
      if ToBoolean v
      then (Throw (TypeError (complains w (CallOf v (lit "match")))), [sent])
      else (Throw noContent, [sent])
  end.
Proof.
  intros Hr. unfold generateSingleFrame, getAiClient.
  rewrite Hkey. simpl truthy_opt. rewrite Hkey_truthy. simpl negb. cbv iota.
  rewrite bind_ret_l. cbv zeta. rewrite try_rethrow. subst sent request.
  unfold replyContent, frameRequest, newClient in *.
  destruct (completion w _ _) as [response|e]; [|subst r; reflexivity].
  unfold bind, emit, settle. cbv beta iota.
  destruct (content_of w response) as [v|e]; [|subst r; reflexivity].
  subst r.
  destruct v as [| |b|n|content|items|props]; cbn [ToBoolean negb];
    try reflexivity.
  { destruct b; reflexivity. }
  { destruct (n =? 0)%Z; reflexivity. }
  destruct (truthy content); [|reflexivity]. simpl negb. cbv iota.
  unfold parseReply, strategies, first_match, applies.
  destruct (and_then (js_match markdownImageRe content) group1) as [u|].
  { simpl. destruct (fetchAndCreateBlobUrl w u) as [[?|?] ?]; reflexivity. }
  destruct (and_then (js_match urlRe content) _) as [u|].
  { simpl. destruct (fetchAndCreateBlobUrl w u) as [[?|?] ?]; reflexivity. }
  simpl option_map. cbv iota.
  change (chr " ") with 32%N.
  destruct ((100 <? length content)%nat && negb (includes_char content 32));
    [|reflexivity].
  destruct (b64toBlob content (lit "image/png") 512); reflexivity.
Qed.

Lemma frame_parses content :
  replyContent w (newClient key) request = Ok (JsString content) ->
  truthy content = true ->
  generateSingleFrame w imageBase64 mimeType prompt index total =
  (fst (parseReply w content), sent :: snd (parseReply w content)).
Proof.
  intros Hr Ht. rewrite (frame_settles _ Hr), Ht. reflexivity.
Qed.

End Frame.

Lemma fetch_fallback w url :
  fetch_blob w url = None ->
  fetchAndCreateBlobUrl w url = (Ok (PlainUrl url), [Fetch url]).
Proof. intros H. unfold fetchAndCreateBlobUrl. simpl. rewrite H. reflexivity. Qed.

Lemma fetch_success w url blob :
  fetch_blob w url = Some blob ->
  fetchAndCreateBlobUrl w url = (Ok (BlobUrl blob), [Fetch url]).
Proof. intros H. unfold fetchAndCreateBlobUrl. simpl. rewrite H. reflexivity. Qed.

Lemma missing_key_frame w imageBase64 mimeType prompt index total :
  truthy_opt (env_API_KEY w) = false ->
  generateSingleFrame w imageBase64 mimeType prompt index total = (Throw noApiKey, []).
Proof. intros H. unfold generateSingleFrame, getAiClient. rewrite H. reflexivity. Qed.

Lemma first_match_none content :
  applies MarkdownImage content = None ->
  applies BareUrl content = None ->
  applies Base64Token content = None ->
  first_match strategies content = None.
Proof.
  intros H1 H2 H3. unfold strategies, first_match.
  rewrite H1, H2, H3. reflexivity.
Qed.

Lemma base64_rejected content :
  (length content <= 100 \/ includes_char content (chr " ") = true
   \/ atob content = None) ->
  applies Base64Token content = None.
Proof.
  intros H. unfold applies.
  destruct (Nat.ltb_spec 100 (length content)); [|reflexivity].
  destruct (includes_char content (chr " ")) eqn:E; [reflexivity|]. simpl.
  destruct H as [H|[H|H]]; [lia|discriminate|].
  unfold b64toBlob. rewrite H. reflexivity.
Qed.

Section Sample.
Local Arguments Nat.sub : simpl never.
Local Arguments firstn : simpl never.

Lemma match_at_markdownSample post :
  match_at markdownImageRe (markdownSample ++ post)
  = Some (mkMatch markdownSample [urlSample]).
Proof.
  unfold match_at. cbn.
  match goal with |- context [firstn (?a - length post) _] =>
    replace (a - length post) with 23 by lia end.
  match goal with |- context [firstn (?a - S (length post)) _] =>
    replace (a - S (length post)) with 15 by lia end.
  reflexivity.
Qed.
End Sample.

Lemma match_at_needs_open c s :
  (c <> chr "!" \/ forall s', s <> chr "[" :: s') ->
  match_at markdownImageRe (c :: s) = None.
Proof.
  intros H. unfold match_at. simpl exec.
  destruct (N.eqb_spec c 33) as [->|]; [|reflexivity].
  destruct H as [H|H]; [contradiction H; reflexivity|].
  destruct s as [|d s]; [reflexivity|].
  destruct (N.eqb_spec d 91) as [->|]; [|reflexivity].
  contradiction (H s). reflexivity.
Qed.

Lemma infix_of_tail (p s : jsstring) c : infix_of p s -> infix_of p (c :: s).
Proof. intros (pre & post & ->). exists (c :: pre), post. reflexivity. Qed.

Lemma infix_of_In (p s : jsstring) c : infix_of p s -> In c p -> In c s.
Proof.
  intros (pre & post & ->) H. apply in_or_app. right. apply in_or_app. left. exact H.
Qed.

(** The sample is found wherever it stands, provided no image reference is
    opened before it. *)
Lemma js_match_markdownSample post :
  forall pre, ~ infix_of (lit "![") pre ->
  js_match markdownImageRe (pre ++ markdownSample ++ post)
  = Some (mkMatch markdownSample [urlSample]).
Proof.
  induction pre as [|c pre IH]; intros Hn.
  - change ([] ++ markdownSample ++ post) with (markdownSample ++ post).
    pose proof (match_at_markdownSample post) as H.
    change (markdownSample ++ post) with (33%N :: tl markdownSample ++ post) in *.
    cbn [js_match]. rewrite H. reflexivity.
  - change ((c :: pre) ++ markdownSample ++ post)
      with (c :: (pre ++ markdownSample ++ post)).
    cbn [js_match]. rewrite match_at_needs_open.
    + apply IH. intros Hin. apply Hn. apply infix_of_tail. exact Hin.
    + destruct (N.eq_dec c (chr "!")) as [->|Hc]; [right|left; exact Hc].
      intros s' Hs'. destruct pre as [|d pre]; [discriminate Hs'|].
      inversion Hs'; subst d. apply Hn. exists [], pre. reflexivity.
Qed.

Lemma fetch_total w url :
  fetchAndCreateBlobUrl w url =
  (Ok match fetch_blob w url with
      | Some blob => BlobUrl blob
      | None => PlainUrl url
      end, [Fetch url]).
Proof.
  destruct (fetch_blob w url) as [blob|] eqn:E.
  - apply fetch_success; exact E.
  - apply fetch_fallback; exact E.
Qed.

Lemma land_255_byte n : (N.land n 255 < 256)%N.
Proof.
  change 255%N with (N.ones 8). rewrite N.land_ones.
  apply N.mod_lt. discriminate.
Qed.

Lemma decodeSextets_bytes :
  forall n vs, length vs <= n -> Forall (fun b => (b < 256)%N) (decodeSextets vs).
Proof.
  induction n as [|n IH]; intros vs Hl.
  - destruct vs; [constructor|simpl in Hl; lia].
  - destruct vs as [|a [|b [|c [|d rest]]]]; simpl;
      repeat (constructor; try apply land_255_byte).
    apply IH. simpl in Hl. lia.
Qed.

Lemma atob_bytes data bytes :
  atob data = Some bytes -> Forall (fun b => (b < 256)%N) bytes.
Proof.
  unfold atob. destruct (_ =? 1)%nat; [discriminate|].
  destruct (sextets _) as [vs|]; [|discriminate].
  intros H; inversion H; subst. eapply decodeSextets_bytes. reflexivity.
Qed.

Lemma Uint8Array_bytes l :
  Forall (fun b => (b < 256)%N) l -> Uint8Array l = l.
Proof.
  unfold Uint8Array. induction 1 as [|b l Hb _ IH]; simpl; [reflexivity|].
  rewrite IH, N.mod_small by exact Hb. reflexivity.
Qed.

Lemma notSpace_no_space s :
  forallb notSpace s = true -> includes_char s (chr " ") = false.
Proof.
  unfold includes_char. change (chr " ") with 32%N.
  induction s as [|c s IH]; [reflexivity|]. cbn [existsb forallb].
  intros H. apply andb_prop in H as [Hc H]. rewrite (IH H), orb_false_r.
  destruct (N.eqb_spec 32 c) as [<-|]; [discriminate Hc|reflexivity].
Qed.

Lemma applies_base64 content bytes :
  100 < length content -> includes_char content (chr " ") = false ->
  atob content = Some bytes ->
  exists blob,
    applies Base64Token content = Some (FoundBlob blob)
    /\ concat (blob_parts blob) = bytes /\ blob_type blob = lit "image/png".
Proof.
  intros Hl Hs Ha. unfold applies.
  apply Nat.ltb_lt in Hl. rewrite Hl, Hs. simpl andb. cbv iota.
  destruct (b64toBlob content (lit "image/png") 512) as [blob|] eqn:E.
  - exists blob. apply b64toBlob_bytes in E as (bytes' & Ha' & Hc & Ht).
    rewrite Ha in Ha'. inversion Ha'; subst bytes'.
    rewrite Uint8Array_bytes in Hc by (eapply atob_bytes; eauto). auto.
  - unfold b64toBlob in E. rewrite Ha in E. discriminate.
Qed.

Lemma applies_markdown_none content :
  js_match markdownImageRe content = None -> applies MarkdownImage content = None.
Proof. intros H. unfold applies. rewrite H. reflexivity. Qed.

Lemma applies_url_none content :
  js_match urlRe content = None -> applies BareUrl content = None.
Proof. intros H. unfold applies. rewrite H. reflexivity. Qed.

Lemma parse_found w content s found :
  first_match strategies content = Some (s, found) ->
  parseReply w content = resolve w found.
Proof. intros H. unfold parseReply. rewrite H. reflexivity. Qed.

Lemma parse_not_found w content :
  first_match strategies content = None ->
  parseReply w content = throw (notFound content).
Proof. intros H. unfold parseReply. rewrite H. reflexivity. Qed.

(* ------------------------------------------------------------------ *)
(** ** Properties of the orchestrator *)
(* ------------------------------------------------------------------ *)

(** *** Index ranges *)

Lemma zseq_In n : forall i j, In j (zseq i n) <-> (i <= j < i + Z.of_nat n)%Z.
Proof.
  induction n as [|n IH]; intros i j.
  - simpl. lia.
  - cbn [zseq In]. rewrite IH. lia.
Qed.

Lemma zseq_app n m : forall i, zseq i (n + m) = zseq i n ++ zseq (i + Z.of_nat n) m.
Proof.
  induction n as [|n IH]; intros i.
  - simpl. f_equal. lia.
  - cbn [zseq Nat.add app]. rewrite IH. do 3 f_equal. lia.
Qed.

Lemma zseq_length n : forall i, length (zseq i n) = n.
Proof. induction n; intros; simpl; auto. Qed.

Lemma zseq_split n :
  forall i js1 j0 js2, zseq i n = js1 ++ j0 :: js2 ->
  (forall j, In j js1 -> j < j0)%Z /\ (forall j, In j js2 -> j0 < j)%Z.
Proof.
  induction n as [|n IH]; intros i js1 j0 js2 H.
  - destruct js1; discriminate H.
  - destruct js1 as [|j1 js1]; simpl in H; inversion H; subst; clear H.
    + split; [intros j []|]. intros j Hj. apply zseq_In in Hj. lia.
    + destruct (IH _ _ _ _ H2) as [Ha Hb]. split; [|exact Hb].
      intros j [<-|Hj]; [|auto].
      assert (In j0 (zseq (j1 + 1) n)) as Hin.
      { rewrite H2. apply in_or_app. right. left. reflexivity. }
      apply zseq_In in Hin. lia.
Qed.

Lemma members_In count i j :
  In j (members count i) <-> (i <= j < Z.min (i + batchSize) count)%Z.
Proof. unfold members, batchSize. rewrite zseq_In. lia. Qed.

Lemma members_length count i :
  (i < count)%Z ->
  length (members count i) = Z.to_nat (Z.min batchSize (count - i)).
Proof. intros H. unfold members, batchSize. rewrite zseq_length. lia. Qed.

(** *** The join *)

Section Join.

Context {A : Type}.
Implicit Types ps : list (N * result A).

Lemma first_rejection_none ps :
  first_rejection ps = None -> map snd ps = map Ok (fulfilled ps).
Proof.
  induction ps as [|[t [a|e]] ps IH]; simpl; intros H.
  - reflexivity.
  - rewrite (IH H). reflexivity.
  - destruct (first_rejection ps) as [[t' e']|]; [|discriminate].
    destruct (t' <? t)%N; discriminate.
Qed.

Lemma first_rejection_all_ok ps vs :
  map snd ps = map Ok vs -> first_rejection ps = None /\ fulfilled ps = vs.
Proof.
  revert vs. induction ps as [|[t r] ps IH]; intros [|v vs] H;
    simpl in H; try discriminate; [auto|].
  inversion H; subst. simpl. destruct (IH _ H2) as [-> ->]. auto.
Qed.

Lemma first_rejection_some ps t e :
  first_rejection ps = Some (t, e) ->
  exists l1 l2, ps = l1 ++ (t, Throw e) :: l2
    /\ (forall t' e', In (t', Throw e') l1 -> t < t')%N
    /\ (forall t' e', In (t', Throw e') l2 -> t <= t')%N.
Proof.
  revert t e. induction ps as [|[t0 [a|e0]] ps IH]; simpl; intros t e H.
  - discriminate.
  - destruct (IH _ _ H) as (l1 & l2 & -> & H1 & H2).
    exists ((t0, Ok a) :: l1), l2. repeat split; auto.
    intros t' e' [Hin|Hin]; [discriminate|eauto].
  - destruct (first_rejection ps) as [[t' e']|] eqn:E.
    + destruct (IH _ _ eq_refl) as (l1 & l2 & -> & H1 & H2).
      destruct (N.ltb_spec t' t0); inversion H; subst; clear H.
      * exists ((t0, Throw e0) :: l1), l2. repeat split; auto.
        intros t'' e'' [Hin|Hin]; [inversion Hin; subst; assumption|eauto].
      * exists [], (l1 ++ (t', Throw e') :: l2). repeat split; auto.
        { intros ? ? []. }
        intros t'' e'' Hin. apply in_app_or in Hin as [Hin|[Hin|Hin]].
        -- specialize (H1 _ _ Hin). lia.
        -- inversion Hin; subst. assumption.
        -- specialize (H2 _ _ Hin). lia.
    + inversion H; subst; clear H. exists [], ps. repeat split; auto.
      { intros ? ? []. }
      intros t' e' Hin. exfalso.
      apply first_rejection_none in E.
      apply (in_map snd) in Hin. rewrite E in Hin. simpl in Hin.
      apply in_map_iff in Hin as (? & Hx & _). discriminate.
Qed.

Lemma met_results now ps :
  map snd (map (fun p : N * result A => (N.max now (fst p), snd p)) ps) = map snd ps.
Proof. rewrite map_map. reflexivity. Qed.

Lemma Promise_all_ok now ps vs :
  Promise_all now ps = Ok vs <-> map snd ps = map Ok vs.
Proof.
  unfold Promise_all. split.
  - destruct (first_rejection _) as [[t e]|] eqn:E; [discriminate|].
    intros H; inversion H; subst.
    apply first_rejection_none in E. rewrite met_results in E.
    destruct (first_rejection_all_ok _ _ E) as [_ ->]. exact E.
  - intros H.
    assert (H' := H). rewrite <- (met_results now) in H'.
    destruct (first_rejection_all_ok _ _ H') as [-> _].
    destruct (first_rejection_all_ok _ _ H) as [_ ->]. reflexivity.
Qed.

Lemma Promise_all_same now ps e :
  ps <> [] -> (forall p, In p ps -> snd p = Throw e) -> Promise_all now ps = Throw e.
Proof.
  intros Hne Hall. unfold Promise_all.
  destruct (first_rejection _) as [[t e']|] eqn:E.
  - apply first_rejection_some in E as (l1 & l2 & Hs & _).
    assert (Hin : In (t, @Throw A e') (map (fun p => (N.max now (fst p), snd p)) ps)).
    { rewrite Hs. apply in_or_app. right. left. reflexivity. }
    apply in_map_iff in Hin as (p & Hp & Hin). inversion Hp as [[Ht He]].
    rewrite (Hall p Hin) in He. inversion He. reflexivity.
  - apply first_rejection_none in E. rewrite met_results in E.
    destruct ps as [|p ps]; [congruence|].
    specialize (Hall p (or_introl eq_refl)). destruct p as [t r].
    simpl in Hall. subst r.
    assert (Hin : In (@Throw A e) (map snd ((t, Throw e) :: ps))) by (left; reflexivity).
    rewrite E in Hin. apply in_map_iff in Hin as (? & Hx & _). discriminate.
Qed.

Lemma first_rejection_first (met : Z -> N) (res : Z -> result A) n i t e0 :
  first_rejection (map (fun j => (met j, res j)) (zseq i n)) = Some (t, e0) ->
  exists j0, In j0 (zseq i n) /\ res j0 = Throw e0
    /\ forall j e, In j (zseq i n) -> res j = Throw e ->
         (met j0 < met j)%N \/ (met j0 = met j /\ (j0 <= j)%Z).
Proof.
  intros E.
  apply first_rejection_some in E as (l1 & l2 & Hsplit & H1 & H2).
  apply map_eq_app in Hsplit as (js1 & js' & Hjs & <- & Hl).
  apply map_eq_cons in Hl as (j0 & js2 & -> & Hj0 & <-).
  inversion Hj0; subst; clear Hj0.
  destruct (zseq_split _ _ _ _ _ Hjs) as [Hlt Hgt].
  exists j0. split; [rewrite Hjs; apply in_or_app; right; left; reflexivity|].
  split; [auto|]. intros j e Hin Hres. rewrite Hjs in Hin.
  apply in_app_or in Hin as [Hin|[<-|Hin]].
  - left. apply (H1 (met j) e). rewrite <- Hres.
    apply (in_map (fun j => (met j, res j))). exact Hin.
  - right. split; [reflexivity|lia].
  - assert (met j0 <= met j)%N as Hle.
    { apply (H2 (met j) e). rewrite <- Hres.
      apply (in_map (fun j => (met j, res j))). exact Hin. }
    specialize (Hgt _ Hin). lia.
Qed.

(** The reason of the join over an indexed family: the rejected member
    whose rejection is met first, the one with the least index among those
    met at the same instant. *)
Lemma Promise_all_first now (time : Z -> N) (res : Z -> result A) n i e0 :
  Promise_all now (map (fun j => (time j, res j)) (zseq i n)) = Throw e0 ->
  exists j0, In j0 (zseq i n) /\ res j0 = Throw e0
    /\ forall j e, In j (zseq i n) -> res j = Throw e ->
         (N.max now (time j0) < N.max now (time j))%N
         \/ (N.max now (time j0) = N.max now (time j) /\ (j0 <= j)%Z).
Proof.
  unfold Promise_all. rewrite map_map. cbn [fst snd].
  destruct (first_rejection _) as [[t e]|] eqn:E; [|discriminate].
  intros H; inversion H; subst; clear H.
  apply (first_rejection_first (fun j => N.max now (time j)) res n i t e0 E).
Qed.

End Join.

(** *** The order of the requests of a group *)

Lemma Permutation_concat {A} (l l' : list (list A)) :
  Permutation l l' -> Permutation (concat l) (concat l').
Proof.
  induction 1; cbn [concat].
  - constructor.
  - apply Permutation_app_head. assumption.
  - rewrite !app_assoc. apply Permutation_app_tail, Permutation_app_comm.
  - etransitivity; eassumption.
Qed.

Lemma Permutation_filter_length {A} (p : A -> bool) (l l' : list A) :
  Permutation l l' -> length (filter p l) = length (filter p l').
Proof.
  induction 1; cbn [filter].
  - reflexivity.
  - destruct (p x); cbn [length]; congruence.
  - destruct (p x), (p y); reflexivity.
  - congruence.
Qed.

Lemma filter_split {A} (p : A -> bool) (l : list A) :
  Permutation l (filter p l ++ filter (fun x => negb (p x)) l).
Proof.
  induction l as [|a l IH]; cbn [filter]; [constructor|].
  destruct (p a); cbn [negb app].
  - constructor. exact IH.
  - apply Permutation_cons_app. exact IH.
Qed.

Lemma arrive_perm w p waiting : Permutation (arrive w p waiting) (p :: waiting).
Proof.
  induction waiting as [|q waiting IH]; cbn [arrive]; [reflexivity|].
  destruct (_ <? _)%N; [reflexivity|].
  rewrite IH. apply perm_swap.
Qed.

(** Whatever the instants, a group sends the requests of its frames, each
    once. *)
Lemma issued_perm w :
  forall frames waiting,
  Permutation (issued w frames waiting)
    (concat (map snd waiting) ++ concat (map snd frames)).
Proof.
  induction frames as [|[j requests] frames IH]; intros waiting.
  - cbn [issued map concat]. rewrite app_nil_r. reflexivity.
  - cbn [issued]. cbv zeta. rewrite IH.
    match goal with |- context [arrive w ?p ?later] =>
      rewrite (Permutation_concat _ _ (Permutation_map snd (arrive_perm w p later)))
    end.
    match goal with |- context [filter ?a waiting] =>
      rewrite (Permutation_concat _ _ (Permutation_map snd (filter_split a waiting)))
    end.
    cbn [map concat snd]. rewrite map_app, concat_app.
    rewrite <- (firstn_skipn 1 requests) at 3.
    rewrite <- !app_assoc. apply Permutation_app_head.
    match goal with |- Permutation (?f1 ++ ?sk ++ ?later ++ ?rest) _ =>
      transitivity ((f1 ++ sk) ++ later ++ rest);
        [rewrite <- app_assoc; reflexivity|];
      transitivity (later ++ (f1 ++ sk) ++ rest);
        [|rewrite <- app_assoc; reflexivity];
      apply Permutation_app_swap_app
    end.
Qed.

Lemma issued_In w frames ev :
  In ev (issued w frames []) <-> In ev (concat (map snd frames)).
Proof.
  pose proof (issued_perm w frames []) as H. cbn [map concat app] in H.
  split; intros Hin; [|symmetry in H]; exact (Permutation_in _ H Hin).
Qed.

Lemma issued_nil w frames :
  (forall f, In f frames -> snd f = []) -> issued w frames [] = [].
Proof.
  intros H. apply Permutation_nil. symmetry.
  rewrite issued_perm. cbn [map concat app].
  induction frames as [|f frames IH]; [reflexivity|].
  cbn [map concat]. rewrite (H f (or_introl eq_refl)). apply IH.
  intros f' Hf'. apply H. right. exact Hf'.
Qed.

Lemma no_chats (l : list (Z * list Event)) :
  (forall q, In q l -> filter isChat (snd q) = []) ->
  filter isChat (concat (map snd l)) = [].
Proof.
  induction l as [|q l IH]; intros H; [reflexivity|].
  cbn [map concat]. rewrite filter_app, (H q (or_introl eq_refl)), IH; [reflexivity|].
  intros q' Hq'. apply H. right. exact Hq'.
Qed.

(** The first requests of the frames are sent in the order in which the
    frames are started, whatever the instants. *)
Lemma issued_chats w :
  forall frames waiting,
  (forall q, In q waiting -> filter isChat (snd q) = []) ->
  (forall f, In f frames -> filter isChat (skipn 1 (snd f)) = []) ->
  filter isChat (issued w frames waiting)
  = concat (map (fun f => filter isChat (firstn 1 (snd f))) frames).
Proof.
  induction frames as [|[j requests] frames IH]; intros waiting Hw Hf.
  - cbn [issued map concat]. apply no_chats. exact Hw.
  - cbn [issued]. cbv zeta. rewrite !filter_app.
    rewrite no_chats.
    2:{ intros q Hq. apply filter_In in Hq as [Hq _]. apply Hw. exact Hq. }
    cbn [app map concat snd]. f_equal. apply IH.
    + intros q Hq. apply (Permutation_in _ (arrive_perm w _ _)) in Hq.
      destruct Hq as [<-|Hq].
      * apply (Hf (j, requests)). left. reflexivity.
      * apply filter_In in Hq as [Hq _]. apply Hw. exact Hq.
    + intros f Hin. apply Hf. right. exact Hin.
Qed.

Lemma last_zseq {B} (f : Z -> B) d n :
  forall i, last (map f (zseq i (S n))) d = f (i + Z.of_nat n)%Z.
Proof.
  induction n as [|n IH]; intros i.
  - cbn. f_equal. lia.
  - transitivity (last (map f (zseq (i + 1) (S n))) d); [reflexivity|].
    rewrite IH. f_equal. lia.
Qed.

(** *** Groups and the loop *)

Lemma fst_bind_ok {A B} (a : A) t (f : A -> Async B) :
  fst (bind (Ok a, t) f) = fst (f a).
Proof. unfold bind. destruct (f a). reflexivity. Qed.

Lemma frame_with_times w times imageBase64 mimeType prompt index total :
  generateSingleFrame (with_times w times) imageBase64 mimeType prompt index total
  = generateSingleFrame w imageBase64 mimeType prompt index total.
Proof. reflexivity. Qed.

Lemma frame_with_instants w starts replies settles
    imageBase64 mimeType prompt index total :
  generateSingleFrame (with_instants w starts replies settles)
    imageBase64 mimeType prompt index total
  = generateSingleFrame w imageBase64 mimeType prompt index total.
Proof. reflexivity. Qed.

Section Orchestrator.

Variable w : World.
Variables imageBase64 mimeType prompt : jsstring.
Variable count : Z.
Variable signal : option AbortSignal.

Local Abbreviation frame := (fun j => generateSingleFrame w imageBase64 mimeType prompt j count).
Local Abbreviation loop := (groupLoop w imageBase64 mimeType prompt count signal).
Local Abbreviation batch := (runBatch w imageBase64 mimeType prompt count).
Local Abbreviation joined := (fun i => last (map (starts_at w) (members count i)) 0%N).

Lemma batchLoop_zseq fuel :
  forall i j,
  batchLoop w imageBase64 mimeType prompt count fuel i j =
  map (fun j => (j, frame j))
    (zseq j (Nat.min fuel (Z.to_nat (Z.min (i + batchSize) count - j)))).
Proof.
  induction fuel as [|fuel IH]; intros i j; [reflexivity|].
  cbn [batchLoop]. destruct (Z.ltb_spec j (Z.min (i + batchSize) count)).
  - rewrite IH.
    replace (Z.to_nat (Z.min (i + batchSize) count - j))
      with (S (Z.to_nat (Z.min (i + batchSize) count - (j + 1)))) by lia.
    reflexivity.
  - replace (Z.to_nat (Z.min (i + batchSize) count - j)) with 0 by lia.
    rewrite Nat.min_0_r. reflexivity.
Qed.

Lemma runBatch_members i :
  batch i =
  (Promise_all (joined i)
     (map (fun j => (settles_at w j, fst (frame j))) (members count i)),
   issued w (map (fun j => (j, snd (frame j))) (members count i)) []).
Proof.
  unfold runBatch. rewrite batchLoop_zseq, !map_map. reflexivity.
Qed.

(** The join of a group is made when its last frame is started. *)
Lemma join_instant i :
  (i < count)%Z -> joined i = starts_at w (Z.min (i + batchSize) count - 1).
Proof.
  intros Hi. unfold members, batchSize.
  destruct (Nat.min (Z.to_nat 3) (Z.to_nat (Z.min (i + 3) count - i))) as [|n] eqn:E;
    [lia|].
  rewrite last_zseq. f_equal. lia.
Qed.

(** The requests of a group are those of its frames, each once. *)
Lemma runBatch_requests i :
  Permutation (snd (batch i)) (concat (map (fun j => snd (frame j)) (members count i))).
Proof.
  rewrite runBatch_members. cbn [snd]. rewrite issued_perm.
  cbn [map concat app]. rewrite map_map. reflexivity.
Qed.

Lemma runBatch_ok i :
  (forall j, In j (members count i) -> exists url, fst (frame j) = Ok url) ->
  exists urls, fst (batch i) = Ok urls.
Proof.
  intros H. rewrite runBatch_members. cbn [fst].
  assert (Hall : exists urls,
             map snd (map (fun j => (settles_at w j, fst (frame j))) (members count i))
             = map Ok urls).
  { induction (members count i) as [|j js IH]; [exists []; reflexivity|].
    destruct (H j (or_introl eq_refl)) as [url Hj].
    destruct IH as [urls Hu]; [intros; apply H; right; assumption|].
    exists (url :: urls). simpl. rewrite Hj. f_equal. exact Hu. }
  destruct Hall as [urls Hu]. exists urls. apply Promise_all_ok. exact Hu.
Qed.

Lemma groupLoop_done fuel g i urls :
  (count <= i)%Z -> loop fuel g i urls = ret urls.
Proof.
  intros H. destruct fuel; [reflexivity|]. cbn [groupLoop].
  destruct (Z.ltb_spec i count); [lia|reflexivity].
Qed.

Lemma groupLoop_step fuel g i urls :
  (i < count)%Z ->
  loop (S fuel) g i urls =
  if aborted signal g then throw abortedByUser
  else
    bind (batch i) (fun batchResults =>
      if aborted signal (S g) then throw abortedByUser
      else loop fuel (S g) (i + batchSize)%Z (urls ++ batchResults)).
Proof.
  intros H. cbn [groupLoop]. destruct (Z.ltb_spec i count); [reflexivity|lia].
Qed.

(** One more unit of fuel changes nothing once the fuel covers what is left
    of the range: the loop leaves through its test, never for want of fuel. *)
Lemma groupLoop_fuel fuel :
  forall g i urls, (count - i <= Z.of_nat fuel)%Z ->
  loop (S fuel) g i urls = loop fuel g i urls.
Proof.
  induction fuel as [|fuel IH]; intros g i urls H.
  - rewrite !groupLoop_done by lia. reflexivity.
  - destruct (Z.ltb_spec i count) as [Hi|Hi].
    + rewrite (groupLoop_step (S fuel)), (groupLoop_step fuel) by exact Hi.
      destruct (aborted signal g); [reflexivity|].
      destruct (batch i) as [[batchResults|e] t]; [|reflexivity].
      unfold bind. destruct (aborted signal (S g)); [reflexivity|].
      rewrite IH by (unfold batchSize; lia). reflexivity.
    + rewrite !groupLoop_done by lia. reflexivity.
Qed.

Lemma generateAnimationFrames_fuel fuel :
  Z.to_nat count <= fuel ->
  loop fuel 0 0%Z [] = generateAnimationFrames w imageBase64 mimeType prompt count signal.
Proof.
  unfold generateAnimationFrames. induction 1 as [|fuel Hle IH]; [reflexivity|].
  rewrite groupLoop_fuel by lia. exact IH.
Qed.

Lemma members_zseq i :
  (i < count)%Z ->
  zseq i (Z.to_nat (count - i)) =
  members count i ++ zseq (i + batchSize) (Z.to_nat (count - (i + batchSize))).
Proof.
  intros H. unfold members, batchSize.
  destruct (Z_lt_le_dec (count - i) 3) as [Hs|Hs].
  - replace (Z.to_nat (count - (i + 3))) with 0 by lia. cbn [zseq].
    rewrite app_nil_r. f_equal. lia.
  - replace (Nat.min (Z.to_nat 3) (Z.to_nat (Z.min (i + 3) count - i))) with 3 by lia.
    replace (Z.to_nat (count - i)) with (3 + Z.to_nat (count - (i + 3))) by lia.
    rewrite zseq_app. reflexivity.
Qed.

(** A run that returns has collected, in order, what every frame from [i]
    on was fulfilled with. *)
Lemma groupLoop_ok fuel :
  forall g i urls out trace,
  (count - i <= Z.of_nat fuel)%Z ->
  loop fuel g i urls = (Ok out, trace) ->
  exists rest, out = urls ++ rest
    /\ map Ok rest = map (fun j => fst (frame j)) (zseq i (Z.to_nat (count - i))).
Proof.
  induction fuel as [|fuel IH]; intros g i urls out trace Hf H.
  - cbn in H. inversion H; subst. exists []. rewrite app_nil_r.
    replace (Z.to_nat (count - i)) with 0 by lia. auto.
  - destruct (Z.ltb_spec i count) as [Hi|Hi].
    + rewrite groupLoop_step in H by exact Hi.
      destruct (aborted signal g); [discriminate|].
      rewrite runBatch_members in H.
      destruct (Promise_all _) as [vs|e] eqn:EP; [|discriminate].
      unfold bind in H. destruct (aborted signal (S g)); [discriminate|].
      destruct (loop fuel (S g) (i + batchSize)%Z (urls ++ vs)) as [r t'] eqn:EL.
      inversion H; subst; clear H.
      apply IH in EL as (rest & -> & Hrest); [|unfold batchSize; lia].
      exists (vs ++ rest). rewrite app_assoc. split; [reflexivity|].
      rewrite members_zseq by exact Hi. rewrite !map_app, Hrest. f_equal.
      apply Promise_all_ok in EP. rewrite map_map in EP. symmetry. exact EP.
    + rewrite groupLoop_done in H by lia. inversion H; subst.
      exists []. rewrite app_nil_r.
      replace (Z.to_nat (count - i)) with 0 by lia. auto.
Qed.

End Orchestrator.

(** A group that succeeds does so whatever the instants, and sends the
    same requests in the same order whatever the instants at which its
    frames settle. *)
Lemma runBatch_instants w starts replies settles imageBase64 mimeType prompt count i vs :
  fst (runBatch w imageBase64 mimeType prompt count i) = Ok vs ->
  fst (runBatch (with_instants w starts replies settles)
         imageBase64 mimeType prompt count i) = Ok vs.
Proof.
  rewrite !runBatch_members. cbn [fst]. intros H.
  apply Promise_all_ok in H. apply Promise_all_ok.
  rewrite map_map in *. exact H.
Qed.

Lemma runBatch_times w times imageBase64 mimeType prompt count i vs :
  fst (runBatch w imageBase64 mimeType prompt count i) = Ok vs ->
  runBatch (with_times w times) imageBase64 mimeType prompt count i
  = (Ok vs, snd (runBatch w imageBase64 mimeType prompt count i)).
Proof.
  rewrite !runBatch_members. cbn [fst snd]. intros H. f_equal.
  apply Promise_all_ok in H. apply Promise_all_ok.
  rewrite map_map in *. exact H.
Qed.

(** A run that returns does so whatever the instants at which the frames
    settle. *)
Lemma groupLoop_times w times imageBase64 mimeType prompt count signal fuel :
  forall g i urls out trace,
  groupLoop w imageBase64 mimeType prompt count signal fuel g i urls
  = (Ok out, trace) ->
  groupLoop (with_times w times) imageBase64 mimeType prompt count signal
    fuel g i urls = (Ok out, trace).
Proof.
  induction fuel as [|fuel IH]; intros g i urls out trace H; [exact H|].
  destruct (Z.ltb_spec i count) as [Hi|Hi].
  - rewrite groupLoop_step in H |- * by exact Hi.
    destruct (aborted signal g); [discriminate|].
    destruct (runBatch w imageBase64 mimeType prompt count i) as [[vs|e] t] eqn:EB;
      [|discriminate].
    rewrite (runBatch_times w times _ _ _ _ i vs) by (rewrite EB; reflexivity).
    rewrite EB. unfold bind in *. cbn [snd].
    destruct (aborted signal (S g)); [discriminate|].
    destruct (groupLoop w _ _ _ _ _ fuel (S g) (i + batchSize)%Z (urls ++ vs))
      as [r t'] eqn:EL.
    inversion H; subst; clear H.
    rewrite (IH _ _ _ _ _ EL). reflexivity.
  - rewrite groupLoop_done in H |- * by lia. exact H.
Qed.

Lemma groupLoop_instants w starts replies settles
    imageBase64 mimeType prompt count signal fuel :
  forall g i urls out,
  fst (groupLoop w imageBase64 mimeType prompt count signal fuel g i urls) = Ok out ->
  fst (groupLoop (with_instants w starts replies settles)
         imageBase64 mimeType prompt count signal fuel g i urls) = Ok out.
Proof.
  induction fuel as [|fuel IH]; intros g i urls out H; [exact H|].
  destruct (Z.ltb_spec i count) as [Hi|Hi].
  - rewrite groupLoop_step in H |- * by exact Hi.
    destruct (aborted signal g); [discriminate|].
    destruct (runBatch w imageBase64 mimeType prompt count i) as [[vs|e] t] eqn:EB;
      [|discriminate].
    pose proof (runBatch_instants w starts replies settles
                  imageBase64 mimeType prompt count i vs) as EB'.
    rewrite EB in EB'. specialize (EB' eq_refl).
    destruct (runBatch (with_instants w starts replies settles)
                imageBase64 mimeType prompt count i) as [r' t'].
    cbn [fst] in EB'. subst r'. rewrite fst_bind_ok in *.
    destruct (aborted signal (S g)); [discriminate|].
    apply IH. exact H.
  - rewrite groupLoop_done in H |- * by lia. exact H.
Qed.

(* ------------------------------------------------------------------ *)
(** ** The response parser: claims *)
(* ------------------------------------------------------------------ *)




(** C6. When strategy (a) or (b) has matched a URL and fetching it fails, the
    frame does not fail: it returns the matched URL itself. *)
Theorem fetch_failure_returns_matched_url
    w imageBase64 mimeType prompt index total key reply url :
  env_API_KEY w = Some key -> truthy key = true ->
  replyContent w (newClient key)
    (frameRequest imageBase64 mimeType prompt index total) = Ok (JsString reply) ->
  applies MarkdownImage reply = Some (FoundUrl url)
  \/ (applies MarkdownImage reply = None
      /\ applies BareUrl reply = Some (FoundUrl url)) ->
  fetch_blob w url = None ->
  generateSingleFrame w imageBase64 mimeType prompt index total =
  (Ok (PlainUrl url),
   [ChatCompletion (newClient key)
      (frameRequest imageBase64 mimeType prompt index total);
    Fetch url]).
Proof.
  intros Hk Hkt Hr Hm Hf.
  assert (Ht : truthy reply = true).
  { destruct reply; [|reflexivity]. destruct Hm as [H|[_ H]]; discriminate H. }
  rewrite (frame_parses w _ _ _ _ _ key Hk Hkt reply Hr Ht).
  assert (Hp : parseReply w reply = fetchAndCreateBlobUrl w url).
  { unfold parseReply, strategies, first_match.
    destruct Hm as [H|[H1 H2]]; [rewrite H|rewrite H1, H2]; reflexivity. }
  rewrite Hp, (fetch_fallback w url Hf). reflexivity.
Qed.

Lemma fetch_failure_returns_matched_url_witness :
  generateSingleFrame (hostWith (answer markdownSample) offline steady)
    refImage png walk 0 1 =
  (Ok (PlainUrl urlSample),
   [ChatCompletion (newClient sampleKey) (frameRequest refImage png walk 0 1);
    Fetch urlSample])
  /\ generateSingleFrame (hostWith (answer urlSample) offline steady)
       refImage png walk 0 1 =
     (Ok (PlainUrl urlSample),
      [ChatCompletion (newClient sampleKey) (frameRequest refImage png walk 0 1);
       Fetch urlSample]).
Proof.
  split.
  - apply (fetch_failure_returns_matched_url
             (hostWith (answer markdownSample) offline steady)
             refImage png walk 0 1 sampleKey markdownSample urlSample);
      [reflexivity|reflexivity|reflexivity|left; reflexivity|reflexivity].
  - apply (fetch_failure_returns_matched_url
             (hostWith (answer urlSample) offline steady)
             refImage png walk 0 1 sampleKey urlSample urlSample);
      [reflexivity|reflexivity|reflexivity|right; split; reflexivity|reflexivity].
Defined.

(** C4, as the specification states it, fails on base64 broken into lines:
    the reply below has no whitespace-free run of 100 characters (its longest
    has 50), no URL and no markdown image, and the frame succeeds with the 75
    decoded bytes. *)
Lemma wrapped_base64_is_decoded :
  longestRun wrapped = 50
  /\ js_match urlRe wrapped = None
  /\ js_match markdownImageRe wrapped = None
  /\ generateSingleFrame (hostWith (answer wrapped) offline steady)
       refImage png walk 0 1 =
     (Ok (BlobUrl (mkBlob [repeat 0%N 75] png)),
      [ChatCompletion (newClient sampleKey) (frameRequest refImage png walk 0 1)]).
Proof. repeat split; vm_compute; reflexivity. Qed.

(** C4, amended.  A reply on which strategies (a) and (b) find nothing and
    which strategy (c) turns down (at most 100 characters, or a space, or
    refused by the base64 decoder) makes the frame fail, having sent the one
    request, with an error whose message contains the first 100 characters of
    the reply; unless the reply is empty, it is the diagnostic error. *)
Theorem unparsable_reply_diagnostic
    w imageBase64 mimeType prompt index total key reply :
  env_API_KEY w = Some key -> truthy key = true ->
  replyContent w (newClient key)
    (frameRequest imageBase64 mimeType prompt index total) = Ok (JsString reply) ->
  applies MarkdownImage reply = None ->
  applies BareUrl reply = None ->
  (length reply <= 100 \/ includes_char reply (chr " ") = true
   \/ atob reply = None) ->
  exists e,
    generateSingleFrame w imageBase64 mimeType prompt index total =
    (Throw e,
     [ChatCompletion (newClient key)
        (frameRequest imageBase64 mimeType prompt index total)])
    /\ infix_of (js_slice reply 0 100) (message e)
    /\ (truthy reply = true ->
        e = Error (lit "Could not find image in response: "
                   ++ firstn 100 reply ++ lit "...")).
Proof.
  intros Hk Hkt Hr H1 H2 H3.
  rewrite (frame_settles w _ _ _ _ _ key Hk Hkt _ Hr).
  destruct (truthy reply) eqn:Ht.
  - exists (notFound reply).
    rewrite (parse_not_found w reply
               (first_match_none reply H1 H2 (base64_rejected reply H3))).
    split; [reflexivity|]. split; [|reflexivity].
    unfold notFound, message. eexists _, _. reflexivity.
  - exists noContent. split; [reflexivity|]. split; [|discriminate].
    destruct reply; [|discriminate]. exists [], (message noContent). reflexivity.
Qed.

Lemma unparsable_reply_diagnostic_witness :
  exists e,
    generateSingleFrame (hostWith (answer (lit "I cannot draw that.")) offline steady)
      refImage png walk 0 1 =
    (Throw e,
     [ChatCompletion (newClient sampleKey) (frameRequest refImage png walk 0 1)])
    /\ infix_of (js_slice (lit "I cannot draw that.") 0 100) (message e)
    /\ (truthy (lit "I cannot draw that.") = true ->
        e = Error (lit "Could not find image in response: "
                   ++ firstn 100 (lit "I cannot draw that.") ++ lit "...")).
Proof.
  apply (unparsable_reply_diagnostic
           (hostWith (answer (lit "I cannot draw that.")) offline steady)
           refImage png walk 0 1 sampleKey (lit "I cannot draw that."));
    [reflexivity|reflexivity|reflexivity|reflexivity|reflexivity|].
  left. vm_compute. lia.
Defined.

(** C10, as stated, fails when the reply holds a URL: the reply below is
    longer than 100 characters, has no space and is refused by the base64
    decoder, yet the frame is resolved by strategy (b) and returns. *)
Lemma undecodable_reply_with_url_resolves :
  (100 < length longUrl)
  /\ includes_char longUrl (chr " ") = false
  /\ atob longUrl = None
  /\ generateSingleFrame (hostWith (answer longUrl) offline steady)
       refImage png walk 0 1 =
     (Ok (PlainUrl longUrl),
      [ChatCompletion (newClient sampleKey) (frameRequest refImage png walk 0 1);
       Fetch longUrl]).
Proof. repeat split; vm_compute; try reflexivity. lia. Qed.

(** C10, amended.  A reply of more than 100 characters without a space that
    the base64 decoder refuses, and in which strategies (a) and (b) find
    nothing, does not let the decoding failure out: the frame fails with the
    diagnostic error. *)
Theorem undecodable_token_diagnostic
    w imageBase64 mimeType prompt index total key reply :
  env_API_KEY w = Some key -> truthy key = true ->
  replyContent w (newClient key)
    (frameRequest imageBase64 mimeType prompt index total) = Ok (JsString reply) ->
  100 < length reply ->
  includes_char reply (chr " ") = false ->
  atob reply = None ->
  applies MarkdownImage reply = None ->
  applies BareUrl reply = None ->
  b64toBlob reply (lit "image/png") 512 = None
  /\ generateSingleFrame w imageBase64 mimeType prompt index total =
     (Throw (notFound reply),
      [ChatCompletion (newClient key)
         (frameRequest imageBase64 mimeType prompt index total)]).
Proof.
  intros Hk Hkt Hr Hl Hs Ha H1 H2. split.
  - unfold b64toBlob. rewrite Ha. reflexivity.
  - assert (Ht : truthy reply = true) by (destruct reply; [simpl in Hl; lia|reflexivity]).
    rewrite (frame_parses w _ _ _ _ _ key Hk Hkt reply Hr Ht).
    rewrite (parse_not_found w reply
               (first_match_none reply H1 H2
                  (base64_rejected reply (or_intror (or_intror Ha))))).
    reflexivity.
Qed.

Lemma undecodable_token_diagnostic_witness :
  b64toBlob dashes (lit "image/png") 512 = None
  /\ generateSingleFrame (hostWith (answer dashes) offline steady)
       refImage png walk 0 1 =
     (Throw (notFound dashes),
      [ChatCompletion (newClient sampleKey) (frameRequest refImage png walk 0 1)]).
Proof.
  apply (undecodable_token_diagnostic
           (hostWith (answer dashes) offline steady)
           refImage png walk 0 1 sampleKey dashes);
    try (vm_compute; reflexivity).
  vm_compute. lia.
Defined.




(* ------------------------------------------------------------------ *)
(** ** The orchestrator and the credential: claims *)
(* ------------------------------------------------------------------ *)

Lemma zseq_nth_error n :
  forall i k j, nth_error (zseq i n) k = Some j -> j = (i + Z.of_nat k)%Z.
Proof.
  induction n as [|n IH]; intros i k j H; [destruct k; discriminate|].
  destruct k as [|k]; simpl in H.
  - inversion H. lia.
  - apply IH in H. lia.
Qed.

(** C1. A successful call with [count = N], [N] not negative, returns exactly
    [N] results, the result at position [k] being what frame [k] was
    fulfilled with; and the same call returns the same sequence whatever the
    instants at which the frames of a group settle, and whatever the
    instants at which they are started and answered. *)
Theorem successful_run_is_indexed
    w imageBase64 mimeType prompt N signal urls trace :
  (0 <= N)%Z ->
  generateAnimationFrames w imageBase64 mimeType prompt N signal = (Ok urls, trace) ->
  Z.of_nat (length urls) = N
  /\ (forall k url,
        nth_error urls k = Some url ->
        fst (generateSingleFrame w imageBase64 mimeType prompt (Z.of_nat k) N)
        = Ok url)
  /\ (forall times,
        generateAnimationFrames (with_times w times) imageBase64 mimeType prompt
          N signal = (Ok urls, trace))
  /\ (forall starts replies settles,
        fst (generateAnimationFrames (with_instants w starts replies settles)
               imageBase64 mimeType prompt N signal) = Ok urls).
Proof.
  intros HN H. unfold generateAnimationFrames in *.
  destruct (groupLoop_ok w imageBase64 mimeType prompt N signal
              (Z.to_nat N) 0 0%Z [] urls trace) as (rest & Hout & Hrest);
    [lia|exact H|].
  simpl in Hout. subst rest. rewrite Z.sub_0_r in Hrest.
  split; [|split; [|split]].
  - apply (f_equal (@length _)) in Hrest.
    rewrite !length_map, zseq_length in Hrest. lia.
  - intros k url Hk.
    apply (map_nth_error Ok) in Hk. rewrite Hrest in Hk.
    rewrite nth_error_map in Hk.
    destruct (nth_error (zseq 0 (Z.to_nat N)) k) as [j|] eqn:Ej; [|discriminate].
    apply zseq_nth_error in Ej. subst j. simpl in Hk.
    inversion Hk as [Hk']. reflexivity.
  - intros times. apply groupLoop_times. exact H.
  - intros starts replies settles. apply groupLoop_instants.
    rewrite H. reflexivity.
Qed.

Lemma successful_run_is_indexed_witness :
  Z.of_nat (length (map numberedUrl [0; 1; 2; 3; 4; 5; 6]%Z)) = 7%Z
  /\ (forall k url,
        nth_error (map numberedUrl [0; 1; 2; 3; 4; 5; 6]%Z) k = Some url ->
        fst (generateSingleFrame (hostWith numbered offline reversed)
               refImage png walk (Z.of_nat k) 7) = Ok url)
  /\ (forall times,
        fst (generateAnimationFrames
               (with_times (hostWith numbered offline reversed) times)
               refImage png walk 7 None)
        = Ok (map numberedUrl [0; 1; 2; 3; 4; 5; 6]%Z))
  /\ (forall starts replies settles,
        fst (generateAnimationFrames
               (with_instants (hostWith numbered offline reversed)
                  starts replies settles)
               refImage png walk 7 None)
        = Ok (map numberedUrl [0; 1; 2; 3; 4; 5; 6]%Z)).
Proof.
  destruct (generateAnimationFrames (hostWith numbered offline reversed)
              refImage png walk 7 None) as [r trace] eqn:E.
  assert (Hr : r = Ok (map numberedUrl [0; 1; 2; 3; 4; 5; 6]%Z)).
  { apply (f_equal fst) in E. vm_compute in E. symmetry. exact E. }
  subst r.
  destruct (successful_run_is_indexed
              (hostWith numbered offline reversed) refImage png walk 7 None
              (map numberedUrl [0; 1; 2; 3; 4; 5; 6]%Z) trace
              ltac:(lia) E) as (H1 & H2 & H3 & H4).
  split; [exact H1|]. split; [exact H2|]. split; [|exact H4].
  intros times. rewrite (H3 times). reflexivity.
Defined.

Lemma groupLoop_aborts w imageBase64 mimeType prompt count signal k fuel :
  forall g i urls,
  i = (3 * Z.of_nat g)%Z -> g <= k -> (3 * Z.of_nat k < count)%Z ->
  (count - i <= Z.of_nat fuel)%Z ->
  (forall j, (0 <= j < Z.min (3 * (Z.of_nat k + 1)) count)%Z ->
     exists url, fst (generateSingleFrame w imageBase64 mimeType prompt j count) = Ok url) ->
  aborted signal (S k) = true ->
  fst (groupLoop w imageBase64 mimeType prompt count signal fuel g i urls)
  = Throw abortedByUser.
Proof.
  induction fuel as [|fuel IH]; intros g i urls Hi Hg Hk Hf Hok Hab; [lia|].
  rewrite groupLoop_step by lia.
  destruct (aborted signal g) eqn:Eg; [reflexivity|].
  destruct (runBatch_ok w imageBase64 mimeType prompt count i) as [vs Hvs].
  { intros j Hj. apply members_In in Hj. unfold batchSize in Hj. apply Hok. lia. }
  destruct (runBatch w imageBase64 mimeType prompt count i) as [r t].
  simpl in Hvs. subst r. rewrite fst_bind_ok.
  destruct (aborted signal (S g)) eqn:Eg'; [reflexivity|].
  assert (g <> k) by congruence.
  apply IH; auto; unfold batchSize; lia.
Qed.

(** C3. With at least one group to run: if the token is aborted when the call
    is made, the call fails with the cancellation error and sends nothing; if
    it is aborted when group [k] has been joined (groups [0] to [k] having
    succeeded), the call fails with the cancellation error as well.  In both
    cases nothing of what was computed is returned. *)
Theorem abort_at_group_boundary
    w imageBase64 mimeType prompt count s :
  (0 < count)%Z ->
  (aborted_after s 0 = true ->
   generateAnimationFrames w imageBase64 mimeType prompt count (Some s)
   = (Throw abortedByUser, []))
  /\ (forall k,
        (3 * Z.of_nat k < count)%Z ->
        (forall j, (0 <= j < Z.min (3 * (Z.of_nat k + 1)) count)%Z ->
           exists url,
             fst (generateSingleFrame w imageBase64 mimeType prompt j count) = Ok url) ->
        aborted_after s (S k) = true ->
        fst (generateAnimationFrames w imageBase64 mimeType prompt count (Some s))
        = Throw abortedByUser).
Proof.
  intros Hc. unfold generateAnimationFrames. split.
  - intros Hab. destruct (Z.to_nat count) as [|fuel] eqn:E; [lia|].
    rewrite groupLoop_step by lia. simpl aborted. rewrite Hab. reflexivity.
  - intros k Hk Hok Hab.
    apply (groupLoop_aborts w imageBase64 mimeType prompt count (Some s) k);
      auto; lia.
Qed.

Lemma abort_at_group_boundary_witness :
  generateAnimationFrames (hostWith numbered offline steady)
    refImage png walk 7 (Some (abortedFrom 0)) = (Throw abortedByUser, [])
  /\ fst (generateAnimationFrames (hostWith numbered offline steady)
            refImage png walk 7 (Some (abortedFrom 2))) = Throw abortedByUser.
Proof.
  split.
  - apply (abort_at_group_boundary (hostWith numbered offline steady)
             refImage png walk 7 (abortedFrom 0)); [lia|reflexivity].
  - destruct (abort_at_group_boundary (hostWith numbered offline steady)
                refImage png walk 7 (abortedFrom 2)) as [_ H]; [lia|].
    apply (H 1%nat); [lia| |reflexivity].
    intros j Hj.
    assert (j = 0 \/ j = 1 \/ j = 2 \/ j = 3 \/ j = 4 \/ j = 5)%Z
      as [->|[->|[->|[->|[->| ->]]]]] by lia;
      eexists; vm_compute; reflexivity.
Defined.

(** C9. When [count] is zero or negative the call returns the empty sequence
    and sends nothing, whatever the token and the credential are; the loop
    does so with any amount of fuel. *)
Theorem empty_run
    w imageBase64 mimeType prompt count signal :
  (count <= 0)%Z ->
  generateAnimationFrames w imageBase64 mimeType prompt count signal = (Ok [], [])
  /\ forall fuel,
       groupLoop w imageBase64 mimeType prompt count signal fuel 0 0%Z []
       = (Ok [], []).
Proof.
  intros Hc.
  assert (H : forall fuel,
             groupLoop w imageBase64 mimeType prompt count signal fuel 0 0%Z []
             = (Ok [], [])).
  { intros fuel. apply groupLoop_done. lia. }
  split; [apply H|exact H].
Qed.

Lemma empty_run_witness :
  generateAnimationFrames studioHost refImage png walk 0 (Some (abortedFrom 0))
  = (Ok [], [])
  /\ generateAnimationFrames (hostWith numbered online steady)
       refImage png walk (-2) (Some (abortedFrom 0)) = (Ok [], []).
Proof.
  split.
  - apply (empty_run studioHost refImage png walk 0 (Some (abortedFrom 0))). lia.
  - apply (empty_run (hostWith numbered online steady) refImage png walk (-2)
             (Some (abortedFrom 0))). lia.
Defined.

(** C7, as stated, fails on both counts: without a credential in the
    environment [checkApiKey] answers [true] when the AI Studio bridge says
    so, and a call for no frame returns instead of failing. *)
Lemma missing_credential_not_always_refused :
  env_API_KEY studioHost = None
  /\ checkApiKey studioHost = true
  /\ generateAnimationFrames studioHost refImage png walk 0 None = (Ok [], []).
Proof. repeat split; reflexivity. Qed.

(** C7, amended.  Without a credential in the environment, [checkApiKey]
    answers [true] only if the AI Studio bridge is there and says so; every
    frame request fails with the configuration error before anything is
    sent, and so does every call that starts a group (at least one frame
    asked for, token not aborted when the call is made). *)
Theorem missing_credential w :
  truthy_opt (env_API_KEY w) = false ->
  (checkApiKey w = true <-> aistudio_hasSelectedApiKey w = Some (Some true))
  /\ (forall imageBase64 mimeType prompt index total,
        generateSingleFrame w imageBase64 mimeType prompt index total
        = (Throw noApiKey, []))
  /\ (forall imageBase64 mimeType prompt count signal,
        (0 < count)%Z -> aborted signal 0 = false ->
        generateAnimationFrames w imageBase64 mimeType prompt count signal
        = (Throw noApiKey, [])).
Proof.
  intros Hk. split; [|split].
  - unfold checkApiKey.
    assert (E : match env_API_KEY w with
                | Some key => truthy key && (0 <? length key)%nat
                | None => false
                end = false).
    { destruct (env_API_KEY w) as [key|]; [|reflexivity].
      simpl in Hk. rewrite Hk. reflexivity. }
    rewrite E. destruct (aistudio_hasSelectedApiKey w) as [[[|]|]|];
      split; congruence.
  - intros. apply missing_key_frame. exact Hk.
  - intros imageBase64 mimeType prompt count signal Hc Hab.
    unfold generateAnimationFrames.
    destruct (Z.to_nat count) as [|fuel] eqn:E; [lia|].
    rewrite groupLoop_step by lia. rewrite Hab, runBatch_members.
    assert (Hne : members count 0 <> []).
    { intros Hnil. apply (f_equal (@length _)) in Hnil.
      rewrite members_length in Hnil by lia. unfold batchSize in Hnil.
      simpl in Hnil. lia. }
    rewrite (Promise_all_same _ _ noApiKey).
    + cbn [bind]. f_equal. apply issued_nil.
      intros f Hf. apply in_map_iff in Hf as (j & <- & _). cbn [snd].
      rewrite missing_key_frame by exact Hk. reflexivity.
    + destruct (members count 0); [congruence|discriminate].
    + intros p Hp. apply in_map_iff in Hp as (j & <- & _). cbn [snd].
      rewrite missing_key_frame by exact Hk. reflexivity.
Qed.

Lemma missing_credential_witness :
  (checkApiKey emptyKeyHost = true <-> @None (option bool) = Some (Some true))
  /\ generateSingleFrame emptyKeyHost refImage png walk 0 4 = (Throw noApiKey, [])
  /\ generateAnimationFrames emptyKeyHost refImage png walk 4 (Some (abortedFrom 1))
     = (Throw noApiKey, []).
Proof.
  destruct (missing_credential emptyKeyHost eq_refl) as (H1 & H2 & H3).
  split; [exact H1|]. split; [apply H2|]. apply H3; [lia|reflexivity].
Defined.

(** A run whose groups before [g] succeed and which is not cancelled up to
    the start of group [g] ends as the join of group [g] says when that join
    is rejected. *)
Lemma groupLoop_reaches w imageBase64 mimeType prompt count signal g e fuel :
  forall g0 i urls,
  i = (3 * Z.of_nat g0)%Z -> g0 <= g -> (3 * Z.of_nat g < count)%Z ->
  (count - i <= Z.of_nat fuel)%Z ->
  (forall j, (0 <= j < 3 * Z.of_nat g)%Z ->
     exists url, fst (generateSingleFrame w imageBase64 mimeType prompt j count) = Ok url) ->
  (forall b, b <= g -> aborted signal b = false) ->
  fst (runBatch w imageBase64 mimeType prompt count (3 * Z.of_nat g)) = Throw e ->
  fst (groupLoop w imageBase64 mimeType prompt count signal fuel g0 i urls)
  = Throw e.
Proof.
  induction fuel as [|fuel IH]; intros g0 i urls Hi Hg Hk Hf Hok Hab Hrej; [lia|].
  rewrite groupLoop_step by lia. rewrite (Hab g0 Hg).
  destruct (Nat.eq_dec g0 g) as [->|Hne].
  - subst i.
    destruct (runBatch w imageBase64 mimeType prompt count (3 * Z.of_nat g))
      as [r t]. simpl in Hrej. subst r. reflexivity.
  - destruct (runBatch_ok w imageBase64 mimeType prompt count i) as [vs Hvs].
    { intros j Hj. apply members_In in Hj. unfold batchSize in Hj. apply Hok. lia. }
    destruct (runBatch w imageBase64 mimeType prompt count i) as [r t].
    simpl in Hvs. subst r. rewrite fst_bind_ok.
    rewrite (Hab (S g0)) by lia.
    apply IH; auto; unfold batchSize; lia.
Qed.




(* ------------------------------------------------------------------ *)
(** ** The outcomes of one frame *)
(* ------------------------------------------------------------------ *)

(** *** The requests of one frame *)

Lemma parseReply_trace w content :
  snd (parseReply w content) = []
  \/ exists s url,
       first_match strategies content = Some (s, FoundUrl url)
       /\ snd (parseReply w content) = [Fetch url].
Proof.
  unfold parseReply.
  destruct (first_match strategies content) as [[s [u|b]]|] eqn:E; auto.
  right. exists s, u. split; [reflexivity|]. simpl. rewrite fetch_total. reflexivity.
Qed.

Lemma frame_trace w imageBase64 mimeType prompt index total :
  let frame := generateSingleFrame w imageBase64 mimeType prompt index total in
  (truthy_opt (env_API_KEY w) = false /\ snd frame = [])
  \/ exists key,
       env_API_KEY w = Some key /\ truthy key = true
       /\ let sent := ChatCompletion (newClient key)
                        (frameRequest imageBase64 mimeType prompt index total) in
          (snd frame = [sent]
           \/ exists reply s url,
                replyContent w (newClient key)
                  (frameRequest imageBase64 mimeType prompt index total)
                = Ok (JsString reply)
                /\ first_match strategies reply = Some (s, FoundUrl url)
                /\ snd frame = [sent; Fetch url]).
Proof.
  intros frame. subst frame.
  destruct (truthy_opt (env_API_KEY w)) eqn:Hk.
  - right. destruct (env_API_KEY w) as [key|] eqn:Ek; [|discriminate].
    exists key. split; [reflexivity|]. split; [exact Hk|]. cbv zeta.
    rewrite (frame_settles w _ _ _ _ _ key Ek Hk _ eq_refl).
    destruct (replyContent w _ _) as [v|e]; auto.
    destruct v as [| |b|n|reply|items|props];
      try (left; match goal with |- context [if ?c then _ else _] => destruct c end;
           reflexivity);
      try (left; reflexivity).
    destruct (truthy reply); auto. cbn [snd].
    destruct (parseReply_trace w reply) as [->|(s & url & Hm & ->)]; auto.
    right. exists reply, s, url. auto.
  - left. rewrite missing_key_frame by exact Hk. auto.
Qed.

Lemma frame_trace_length w imageBase64 mimeType prompt index total :
  length (snd (generateSingleFrame w imageBase64 mimeType prompt index total)) <= 2.
Proof.
  destruct (frame_trace w imageBase64 mimeType prompt index total)
    as [[_ ->]|(key & _ & _ & [->|(? & ? & ? & _ & _ & ->)])]; simpl; lia.
Qed.

Lemma frame_chats w imageBase64 mimeType prompt index total key :
  env_API_KEY w = Some key -> truthy key = true ->
  filter isChat (snd (generateSingleFrame w imageBase64 mimeType prompt index total))
  = [ChatCompletion (newClient key)
       (frameRequest imageBase64 mimeType prompt index total)].
Proof.
  intros Ek Hk.
  destruct (frame_trace w imageBase64 mimeType prompt index total)
    as [[Hf _]|(key' & Ek' & _ & H)].
  - rewrite Ek in Hf. simpl in Hf. congruence.
  - rewrite Ek in Ek'. inversion Ek'; subst key'. cbv zeta in H.
    destruct H as [->|(? & ? & ? & _ & _ & ->)]; reflexivity.
Qed.

Lemma frame_chat_event w imageBase64 mimeType prompt index total c req :
  In (ChatCompletion c req)
     (snd (generateSingleFrame w imageBase64 mimeType prompt index total)) ->
  req = frameRequest imageBase64 mimeType prompt index total
  /\ exists key, env_API_KEY w = Some key /\ truthy key = true /\ c = newClient key.
Proof.
  intros Hin.
  destruct (frame_trace w imageBase64 mimeType prompt index total)
    as [[_ E]|(key & Ek & Hk & H)].
  - rewrite E in Hin. destruct Hin.
  - cbv zeta in H. destruct H as [E|(? & ? & ? & _ & _ & E)]; rewrite E in Hin.
    + destruct Hin as [Hin|[]]. inversion Hin; subst. eauto.
    + destruct Hin as [Hin|[Hin|[]]]; [|discriminate]. inversion Hin; subst. eauto.
Qed.

Lemma found_url_occurs reply s url :
  first_match strategies reply = Some (s, FoundUrl url) -> infix_of url reply.
Proof.
  unfold strategies, first_match.
  destruct (applies MarkdownImage reply) as [x|] eqn:E1.
  - intros H; inversion H; subst.
    apply applies_markdown_shape in E1 as (pre & alt & post & -> & _).
    exists (pre ++ lit "![" ++ alt ++ lit "]("), (lit ")" ++ post).
    rewrite <- !app_assoc. reflexivity.
  - destruct (applies BareUrl reply) as [x|] eqn:E2.
    + intros H; inversion H; subst.
      apply applies_url_shape in E2 as (pre & tail & post & -> & _).
      exists pre, post. reflexivity.
    + destruct (applies Base64Token reply) as [x|] eqn:E3; [|discriminate].
      intros H; inversion H; subst. unfold applies in E3.
      destruct (_ && _); [|discriminate].
      destruct (b64toBlob reply _ _); discriminate.
Qed.

(** X5. A frame sends nothing without a credential; otherwise it sends the
    chat request and then at most one fetch, and the URL fetched is a piece
    of the text the service replied. *)
Theorem frame_requests w imageBase64 mimeType prompt index total :
  (truthy_opt (env_API_KEY w) = false
   /\ snd (generateSingleFrame w imageBase64 mimeType prompt index total) = [])
  \/ exists key,
       env_API_KEY w = Some key /\ truthy key = true
       /\ (snd (generateSingleFrame w imageBase64 mimeType prompt index total)
           = [ChatCompletion (newClient key)
                (frameRequest imageBase64 mimeType prompt index total)]
           \/ exists reply url,
                replyContent w (newClient key)
                  (frameRequest imageBase64 mimeType prompt index total)
                = Ok (JsString reply)
                /\ infix_of url reply
                /\ snd (generateSingleFrame w imageBase64 mimeType prompt index total)
                   = [ChatCompletion (newClient key)
                        (frameRequest imageBase64 mimeType prompt index total);
                      Fetch url]).
Proof.
  destruct (frame_trace w imageBase64 mimeType prompt index total)
    as [H|(key & Ek & Hk & H)]; [left; exact H|].
  right. exists key. split; [exact Ek|]. split; [exact Hk|]. cbv zeta in H.
  destruct H as [H|(reply & s & url & Hr & Hm & H)]; [left; exact H|].
  right. exists reply, url. split; [exact Hr|]. split; [|exact H].
  eapply found_url_occurs; eauto.
Qed.

(** What makes the reading of a response throw: the response is [undefined]
    or [null], or it has no [choices]. *)
Lemma content_of_throws w response e :
  content_of w response = Throw e ->
  (nullish response = true
   /\ e = TypeError (complains w (ReadOf response (lit "choices"))))
  \/ (nullish response = false /\ nullish (property response ChoicesP) = true
      /\ e = TypeError (complains w (ReadOf (property response ChoicesP) (lit "0")))).
Proof.
  unfold content_of, read.
  destruct (nullish response) eqn:E1.
  - intros H; inversion H. auto.
  - destruct (nullish (property response ChoicesP)) eqn:E2; [|discriminate].
    intros H; inversion H. auto.
Qed.

(** X6. A frame fails for one of six reasons only: the credential is
    missing; the service rejected the request (its error is passed on
    unchanged); the response cannot be read, being [undefined] or [null] or
    without choices, and the engine throws a [TypeError]; the reply has no
    content; the content is not a text, and the engine throws a [TypeError]
    when [match] is called on it; or no strategy matches the reply.  A frame
    that fails has fetched nothing, and a failed fetch is never the
    reason. *)
Theorem frame_failure_reasons w imageBase64 mimeType prompt index total e :
  fst (generateSingleFrame w imageBase64 mimeType prompt index total) = Throw e ->
  (truthy_opt (env_API_KEY w) = false /\ e = noApiKey
   /\ snd (generateSingleFrame w imageBase64 mimeType prompt index total) = [])
  \/ exists key,
       env_API_KEY w = Some key /\ truthy key = true
       /\ snd (generateSingleFrame w imageBase64 mimeType prompt index total)
          = [ChatCompletion (newClient key)
               (frameRequest imageBase64 mimeType prompt index total)]
       /\ let call :=
            completion w (newClient key)
              (frameRequest imageBase64 mimeType prompt index total) in
          (call = Throw e
           \/ exists response,
                call = Ok response
                /\ ((nullish response = true
                     /\ e = TypeError (complains w (ReadOf response (lit "choices"))))
                    \/ (nullish response = false
                        /\ nullish (property response ChoicesP) = true
                        /\ e = TypeError
                                (complains w
                                   (ReadOf (property response ChoicesP) (lit "0"))))
                    \/ exists content,
                         content_of w response = Ok content
                         /\ ((ToBoolean content = false /\ e = noContent)
                             \/ (ToBoolean content = true
                                 /\ (forall reply, content <> JsString reply)
                                 /\ e = TypeError
                                         (complains w (CallOf content (lit "match"))))
                             \/ exists reply,
                                  content = JsString reply /\ reply <> []
                                  /\ first_match strategies reply = None
                                  /\ e = notFound reply))).
Proof.
  destruct (truthy_opt (env_API_KEY w)) eqn:Hk.
  - destruct (env_API_KEY w) as [key|] eqn:Ek; [|discriminate]. simpl in Hk.
    rewrite (frame_settles w _ _ _ _ _ key Ek Hk _ eq_refl).
    intros H. right. exists key. split; [reflexivity|]. split; [exact Hk|]. cbv zeta.
    unfold replyContent in *.
    destruct (completion w _ _) as [response|e'] eqn:Ec.
    2:{ inversion H; subst. split; [reflexivity|]. left. reflexivity. }
    destruct (content_of w response) as [content|e'] eqn:Er.
    2:{ inversion H; subst. split; [reflexivity|]. right. exists response.
        split; [reflexivity|].
        apply content_of_throws in Er as [[? ?]|(? & ? & ?)]; auto. }
    match goal with |- ?T = ?S /\ _ =>
      cut (T = S
           /\ ((ToBoolean content = false /\ e = noContent)
               \/ (ToBoolean content = true
                   /\ (forall reply, content <> JsString reply)
                   /\ e = TypeError (complains w (CallOf content (lit "match"))))
               \/ exists reply,
                    content = JsString reply /\ reply <> []
                    /\ first_match strategies reply = None
                    /\ e = notFound reply))
    end.
    { intros [Ht Hc]. split; [exact Ht|]. right. exists response.
      split; [reflexivity|]. right. right. exists content. auto. }
    destruct content as [| |b|n|reply|items|props]; cbv beta iota in H |- *;
      try (destruct (ToBoolean _) eqn:Et; cbn [fst snd] in H |- *;
           inversion H; subst; (split; [reflexivity|]);
           [right; left; split; [reflexivity|]; split; [intros; discriminate|reflexivity]
           |left; split; reflexivity]).
    destruct reply as [|c reply]; cbn [truthy] in *.
    + inversion H; subst. split; [reflexivity|]. left. auto.
    + unfold parseReply in *.
      destruct (first_match strategies (c :: reply)) as [[s [u|b]]|] eqn:Em.
      * simpl in H. rewrite fetch_total in H. discriminate H.
      * discriminate H.
      * inversion H; subst. split; [reflexivity|]. right. right.
        exists (c :: reply). repeat split; auto. discriminate.
  - rewrite missing_key_frame by exact Hk. intros H. inversion H; subst. auto.
Qed.

Lemma frame_failure_reasons_witness :
  exists e,
    fst (generateSingleFrame (hostWith unavailable offline steady) refImage png walk 0 4)
    = Throw e
    /\ e = TypeError (lit "Cannot read properties of undefined (reading '0')")
    /\ exists response,
         completion (hostWith unavailable offline steady) (newClient sampleKey)
           (frameRequest refImage png walk 0 4) = Ok response
         /\ nullish response = false
         /\ nullish (property response ChoicesP) = true.
Proof.
  exists (TypeError (lit "Cannot read properties of undefined (reading '0')")).
  assert (H : fst (generateSingleFrame (hostWith unavailable offline steady)
                     refImage png walk 0 4)
              = Throw (TypeError (lit "Cannot read properties of undefined (reading '0')")))
    by (vm_compute; reflexivity).
  split; [exact H|]. split; [reflexivity|].
  destruct (frame_failure_reasons _ _ _ _ _ _ _ H)
    as [(Hk & _)|(key & Ek & _ & _ & Hc)]; [discriminate Hk|].
  inversion Ek; subst key. cbv zeta in Hc.
  destruct Hc as [Hc|(response & Hc & Hr)]; [discriminate Hc|].
  exists response. split; [exact Hc|].
  inversion Hc; subst response.
  destruct Hr as [[Hn _]|[(Hn1 & Hn2 & _)|(content & Hr & _)]].
  - discriminate Hn.
  - split; assumption.
  - discriminate Hr.
Defined.

(** X7. A frame that succeeds has received a non-empty reply and returns one
    of three things: the blob fetched from a URL found in the reply, that
    URL itself when the fetch failed, or, having fetched nothing, a PNG blob
    decoded from the whole reply, which is then longer than 100 characters
    and free of spaces. *)
Theorem frame_success_shape w imageBase64 mimeType prompt index total url :
  fst (generateSingleFrame w imageBase64 mimeType prompt index total) = Ok url ->
  exists key reply,
    env_API_KEY w = Some key /\ truthy key = true
    /\ replyContent w (newClient key)
         (frameRequest imageBase64 mimeType prompt index total) = Ok (JsString reply)
    /\ reply <> []
    /\ let sent := ChatCompletion (newClient key)
                     (frameRequest imageBase64 mimeType prompt index total) in
       let requests := snd (generateSingleFrame w imageBase64 mimeType prompt index total) in
       ((exists found,
           infix_of found reply /\ requests = [sent; Fetch found]
           /\ ((fetch_blob w found = None /\ url = PlainUrl found)
               \/ exists blob, fetch_blob w found = Some blob /\ url = BlobUrl blob))
        \/ (exists blob,
              url = BlobUrl blob /\ requests = [sent]
              /\ b64toBlob reply (lit "image/png") 512 = Some blob
              /\ blob_type blob = lit "image/png"
              /\ 100 < length reply /\ ~ In (chr " ") reply)).
Proof.
  destruct (truthy_opt (env_API_KEY w)) eqn:Hk.
  2:{ rewrite missing_key_frame by exact Hk. discriminate. }
  destruct (env_API_KEY w) as [key|] eqn:Ek; [|discriminate]. simpl in Hk.
  rewrite (frame_settles w _ _ _ _ _ key Ek Hk _ eq_refl).
  destruct (replyContent w _ _) as [v|e'] eqn:Ec; [|discriminate].
  destruct v as [| |b|n|reply|items|props];
    try (match goal with |- context [if ?c then _ else _] => destruct c end;
         discriminate);
    try discriminate.
  destruct reply as [|c reply]; [discriminate|]. cbn [truthy].
  intros H. exists key, (c :: reply).
  split; [reflexivity|]. split; [exact Hk|]. split; [exact Ec|].
  split; [discriminate|]. cbv zeta. cbn [fst snd] in *.
  unfold parseReply in *.
  destruct (first_match strategies (c :: reply)) as [[s [u|b]]|] eqn:Em;
    [| |discriminate H].
  - left. exists u. split; [eapply found_url_occurs; eauto|].
    simpl resolve in *. rewrite fetch_total in *. cbn [fst snd] in *.
    split; [reflexivity|].
    destruct (fetch_blob w u) as [blob|]; inversion H; subst; eauto.
  - right. simpl in H. inversion H; subst. exists b.
    split; [reflexivity|]. split; [reflexivity|].
    unfold strategies, first_match in Em.
    destruct (applies MarkdownImage (c :: reply)) as [[?|?]|] eqn:E1;
      [discriminate Em
      |unfold applies in E1; destruct (and_then _ _); discriminate E1|].
    destruct (applies BareUrl (c :: reply)) as [[?|?]|] eqn:E2;
      [discriminate Em
      |unfold applies in E2; destruct (and_then _ _); discriminate E2|].
    destruct (applies Base64Token (c :: reply)) as [x|] eqn:E3; [|discriminate].
    inversion Em; subst x; clear Em. unfold applies in E3.
    destruct (Nat.ltb_spec 100 (length (c :: reply))) as [Hl|]; [|discriminate].
    destruct (includes_char (c :: reply) (chr " ")) eqn:Hs; [discriminate|].
    cbn [andb negb] in E3.
    destruct (b64toBlob (c :: reply) (lit "image/png") 512) as [b'|] eqn:Eb;
      [|discriminate].
    inversion E3; subst b'. split; [reflexivity|].
    split; [apply b64toBlob_bytes in Eb as (? & _ & _ & Ht); exact Ht|].
    split; [exact Hl|].
    intros Hin. unfold includes_char in Hs.
    assert (existsb (N.eqb (chr " ")) (c :: reply) = true) as Hex.
    { apply existsb_exists. exists (chr " "). split; [exact Hin|apply N.eqb_refl]. }
    congruence.
Qed.

Lemma frame_success_shape_witness :
  exists key reply,
    env_API_KEY (hostWith (answer urlInSentence) offline steady) = Some key
    /\ truthy key = true
    /\ replyContent (hostWith (answer urlInSentence) offline steady) (newClient key)
         (frameRequest refImage png walk 2 4) = Ok (JsString reply)
    /\ reply <> []
    /\ let sent := ChatCompletion (newClient key) (frameRequest refImage png walk 2 4) in
       let requests :=
         snd (generateSingleFrame (hostWith (answer urlInSentence) offline steady)
                refImage png walk 2 4) in
       ((exists found,
           infix_of found reply /\ requests = [sent; Fetch found]
           /\ ((fetch_blob (hostWith (answer urlInSentence) offline steady) found = None
                /\ PlainUrl (lit "https://x/y.png),") = PlainUrl found)
               \/ exists blob,
                    fetch_blob (hostWith (answer urlInSentence) offline steady) found
                    = Some blob
                    /\ PlainUrl (lit "https://x/y.png),") = BlobUrl blob))
        \/ (exists blob,
              PlainUrl (lit "https://x/y.png),") = BlobUrl blob /\ requests = [sent]
              /\ b64toBlob reply (lit "image/png") 512 = Some blob
              /\ blob_type blob = lit "image/png"
              /\ 100 < length reply /\ ~ In (chr " ") reply)).
Proof.
  apply (frame_success_shape (hostWith (answer urlInSentence) offline steady)
           refImage png walk 2 4 (PlainUrl (lit "https://x/y.png),"))).
  vm_compute. reflexivity.
Defined.

(* ------------------------------------------------------------------ *)
(** ** Blobs and base64 *)
(* ------------------------------------------------------------------ *)

(** *** The slices of a blob *)

Lemma sliceLoop_nth s n :
  0 < n ->
  forall fuel offset, length s - offset <= fuel ->
  forall k,
    nth_error (sliceLoop fuel s n offset) k =
    if (offset + k * n <? length s)%nat
    then Some (Uint8Array (firstn n (skipn (offset + k * n) s)))
    else None.
Proof.
  intros Hn. induction fuel as [|fuel IH]; intros offset Hf k.
  - cbn [sliceLoop]. destruct (Nat.ltb_spec (offset + k * n) (length s)); [lia|].
    destruct k; reflexivity.
  - cbn [sliceLoop]. destruct (Nat.ltb_spec offset (length s)) as [Ho|Ho].
    + destruct k as [|k].
      * cbn [nth_error]. rewrite Nat.mul_0_l, Nat.add_0_r.
        destruct (Nat.ltb_spec offset (length s)); [|lia].
        unfold js_slice. do 3 f_equal. lia.
      * cbn [nth_error]. rewrite IH by lia.
        replace (offset + n + k * n) with (offset + S k * n) by lia. reflexivity.
    + destruct (Nat.ltb_spec (offset + k * n) (length s)); [lia|].
      destruct k; reflexivity.
Qed.

Lemma sliceLoop_length s n :
  0 < n ->
  forall fuel offset, length s - offset <= fuel ->
  length (sliceLoop fuel s n offset) = (length s - offset + n - 1) / n.
Proof.
  intros Hn. induction fuel as [|fuel IH]; intros offset Hf.
  - cbn [sliceLoop length]. symmetry. apply Nat.div_small. lia.
  - cbn [sliceLoop]. destruct (Nat.ltb_spec offset (length s)) as [Ho|Ho].
    + cbn [length]. rewrite IH by lia.
      destruct (Nat.le_gt_cases n (length s - offset)) as [Hge|Hlt].
      * replace (length s - offset + n - 1)
          with ((length s - (offset + n) + n - 1) + 1 * n) by lia.
        rewrite Nat.div_add by lia. lia.
      * replace (length s - (offset + n) + n - 1) with (n - 1) by lia.
        rewrite (Nat.div_small (n - 1)) by lia.
        apply (Nat.div_unique _ _ 1 (length s - offset - 1)); lia.
    + cbn [length]. symmetry. apply Nat.div_small. lia.
Qed.

(** X8. [b64toBlob] fails exactly when [atob] refuses its input.  Otherwise
    the blob has the content type asked for and holds the decoded bytes cut
    into consecutive slices of [sliceSize] bytes, the last one possibly
    shorter and none of them empty: part [k] is the bytes from [k * sliceSize]
    on, there are as many parts as the bytes need, and the parts put end to
    end are the decoded bytes. *)
Theorem b64toBlob_slices b64Data contentType sliceSize :
  0 < sliceSize ->
  match b64toBlob b64Data contentType sliceSize with
  | None => atob b64Data = None
  | Some blob =>
      exists bytes,
        atob b64Data = Some bytes
        /\ blob_type blob = contentType
        /\ length (blob_parts blob) = (length bytes + sliceSize - 1) / sliceSize
        /\ (forall k part,
              nth_error (blob_parts blob) k = Some part ->
              part = firstn sliceSize (skipn (k * sliceSize) bytes)
              /\ 0 < length part <= sliceSize)
        /\ concat (blob_parts blob) = bytes
  end.
Proof.
  intros Hn. unfold b64toBlob.
  destruct (atob b64Data) as [bytes|] eqn:Ea; [|reflexivity].
  exists bytes. cbn [blob_type blob_parts].
  pose proof (atob_bytes _ _ Ea) as Hb.
  split; [reflexivity|]. split; [reflexivity|]. split; [|split].
  - rewrite sliceLoop_length by lia. f_equal. lia.
  - intros k part Hk. rewrite sliceLoop_nth in Hk by lia. cbn [Nat.add] in Hk.
    destruct (Nat.ltb_spec (k * sliceSize) (length bytes)) as [Hlt|]; [|discriminate].
    inversion Hk; subst part; clear Hk.
    assert (Hsub : Forall (fun b => (b < 256)%N)
                     (firstn sliceSize (skipn (k * sliceSize) bytes))).
    { apply Forall_forall. intros b Hin. rewrite Forall_forall in Hb. apply Hb.
      rewrite <- (firstn_skipn (k * sliceSize) bytes). apply in_or_app. right.
      rewrite <- (firstn_skipn sliceSize (skipn (k * sliceSize) bytes)).
      apply in_or_app. left. exact Hin. }
    rewrite (Uint8Array_bytes _ Hsub). split; [reflexivity|].
    rewrite length_firstn, length_skipn. lia.
  - rewrite sliceLoop_concat by lia. cbn [skipn]. apply Uint8Array_bytes. exact Hb.
Qed.

Lemma b64toBlob_slices_witness :
  match b64toBlob (repeat (chr "A") 2000) png 512 with
  | None => atob (repeat (chr "A") 2000) = None
  | Some blob =>
      exists bytes,
        atob (repeat (chr "A") 2000) = Some bytes
        /\ blob_type blob = png
        /\ length (blob_parts blob) = (length bytes + 512 - 1) / 512
        /\ (forall k part,
              nth_error (blob_parts blob) k = Some part ->
              part = firstn 512 (skipn (k * 512) bytes)
              /\ 0 < length part <= 512)
        /\ concat (blob_parts blob) = bytes
  end.
Proof. apply (b64toBlob_slices (repeat (chr "A") 2000) png 512). lia. Defined.

(** *** Decoding what was encoded *)

Lemma lor_mul_pow2 y k x : (x < 2 ^ k -> N.lor (y * 2 ^ k) x = y * 2 ^ k + x)%N.
Proof.
  intros Hx. rewrite <- N.shiftl_mul_pow2.
  assert (Hd : N.land (N.shiftl y k) x = 0%N).
  { apply N.bits_inj_0. intros i. rewrite N.land_spec.
    destruct (N.lt_ge_cases i k) as [Hi|Hi].
    - rewrite N.shiftl_spec_low by exact Hi. reflexivity.
    - destruct (N.eq_dec x 0) as [->|Hn]; [rewrite N.bits_0; apply andb_false_r|].
      rewrite (N.bits_above_log2 x i), andb_false_r; [reflexivity|].
      apply N.log2_lt_pow2; [lia|]. eapply N.lt_le_trans; [exact Hx|].
      apply N.pow_le_mono_r; lia. }
  rewrite <- N.lxor_lor by exact Hd. rewrite <- N.add_nocarry_lxor by exact Hd.
  reflexivity.
Qed.

Lemma land_255_mod n : N.land n 255 = (n mod 256)%N.
Proof. change 255%N with (N.ones 8). rewrite N.land_ones. reflexivity. Qed.

Lemma decode_four a b c rest :
  (a < 256 -> b < 256 -> c < 256 ->
   decodeSextets (a / 4 :: (a mod 4) * 16 + b / 16 :: (b mod 16) * 4 + c / 64
                    :: c mod 64 :: rest)
   = a :: b :: c :: decodeSextets rest)%N.
Proof.
  intros Ha Hb Hc. cbn [decodeSextets].
  assert (Hdiv : (a mod 4 < 4 /\ b mod 16 < 16 /\ c mod 64 < 64
                  /\ a / 4 < 64 /\ b / 16 < 16 /\ c / 64 < 4)%N).
  { repeat split; try (apply N.mod_lt; lia); apply N.Div0.div_lt_upper_bound; lia. }
  destruct Hdiv as (? & ? & ? & ? & ? & ?).
  assert (En : N.lor (N.lor (N.shiftl (a / 4) 18) (N.shiftl ((a mod 4) * 16 + b / 16) 12))
                 (N.lor (N.shiftl ((b mod 16) * 4 + c / 64) 6) (c mod 64))
               = (a * 65536 + b * 256 + c)%N).
  { rewrite !N.shiftl_mul_pow2.
    rewrite (lor_mul_pow2 _ 6) by (change (2 ^ 6)%N with 64%N; assumption).
    rewrite (lor_mul_pow2 _ 18)
      by (change (2 ^ 18)%N with 262144%N; change (2 ^ 12)%N with 4096%N; lia).
    replace (a / 4 * 2 ^ 18 + ((a mod 4) * 16 + b / 16) * 2 ^ 12)%N
      with ((a / 4 * 64 + ((a mod 4) * 16 + b / 16)) * 2 ^ 12)%N
      by (change (2 ^ 18)%N with 262144%N; change (2 ^ 12)%N with 4096%N; lia).
    rewrite (lor_mul_pow2 _ 12)
      by (change (2 ^ 12)%N with 4096%N; change (2 ^ 6)%N with 64%N; lia).
    change (2 ^ 12)%N with 4096%N. change (2 ^ 6)%N with 64%N.
    pose proof (N.div_mod a 4 ltac:(lia)). pose proof (N.div_mod b 16 ltac:(lia)).
    pose proof (N.div_mod c 64 ltac:(lia)). lia. }
  rewrite En, !land_255_mod, !N.shiftr_div_pow2.
  change (2 ^ 16)%N with 65536%N. change (2 ^ 8)%N with 256%N.
  assert (E1 : ((a * 65536 + b * 256 + c) / 65536 = a)%N).
  { symmetry. apply (N.div_unique _ 65536 a (b * 256 + c)); lia. }
  assert (E2 : ((a * 65536 + b * 256 + c) / 256 = a * 256 + b)%N).
  { symmetry. apply (N.div_unique _ 256 _ c); lia. }
  rewrite E1, E2. f_equal; [apply N.mod_small; lia|].
  f_equal; [symmetry; apply (N.mod_unique _ 256 a); lia|].
  f_equal. symmetry. apply (N.mod_unique _ 256 (a * 256 + b)); lia.
Qed.

Lemma decode_two a b :
  (a < 256 -> b < 256 ->
   decodeSextets [a / 4; (a mod 4) * 16 + b / 16; (b mod 16) * 4] = [a; b])%N.
Proof.
  intros Ha Hb. cbn [decodeSextets].
  assert (Hdiv : (a mod 4 < 4 /\ b mod 16 < 16 /\ a / 4 < 64 /\ b / 16 < 16)%N).
  { repeat split; try (apply N.mod_lt; lia); apply N.Div0.div_lt_upper_bound; lia. }
  destruct Hdiv as (? & ? & ? & ?).
  assert (En : N.lor (N.lor (N.shiftl (a / 4) 12) (N.shiftl ((a mod 4) * 16 + b / 16) 6))
                 ((b mod 16) * 4)
               = (a * 1024 + b * 4)%N).
  { rewrite !N.shiftl_mul_pow2.
    rewrite (lor_mul_pow2 _ 12)
      by (change (2 ^ 12)%N with 4096%N; change (2 ^ 6)%N with 64%N; lia).
    replace (a / 4 * 2 ^ 12 + ((a mod 4) * 16 + b / 16) * 2 ^ 6)%N
      with ((a / 4 * 64 + ((a mod 4) * 16 + b / 16)) * 2 ^ 6)%N
      by (change (2 ^ 12)%N with 4096%N; change (2 ^ 6)%N with 64%N; lia).
    rewrite (lor_mul_pow2 _ 6) by (change (2 ^ 6)%N with 64%N; lia).
    change (2 ^ 6)%N with 64%N.
    pose proof (N.div_mod a 4 ltac:(lia)). pose proof (N.div_mod b 16 ltac:(lia)). lia. }
  rewrite En, !land_255_mod, !N.shiftr_div_pow2.
  change (2 ^ 10)%N with 1024%N. change (2 ^ 2)%N with 4%N.
  assert (E1 : ((a * 1024 + b * 4) / 1024 = a)%N).
  { symmetry. apply (N.div_unique _ 1024 a (b * 4)); lia. }
  assert (E2 : ((a * 1024 + b * 4) / 4 = a * 256 + b)%N).
  { symmetry. apply (N.div_unique _ 4 _ 0); lia. }
  rewrite E1, E2. f_equal; [apply N.mod_small; lia|].
  f_equal. symmetry. apply (N.mod_unique _ 256 a); lia.
Qed.

Lemma decode_one a :
  (a < 256 -> decodeSextets [a / 4; (a mod 4) * 16] = [a])%N.
Proof.
  intros Ha. cbn [decodeSextets].
  assert (Hdiv : (a mod 4 < 4 /\ a / 4 < 64)%N).
  { split; [apply N.mod_lt; lia|apply N.Div0.div_lt_upper_bound; lia]. }
  destruct Hdiv as (? & ?).
  assert (En : N.lor (N.shiftl (a / 4) 6) ((a mod 4) * 16) = (a * 16)%N).
  { rewrite !N.shiftl_mul_pow2.
    rewrite (lor_mul_pow2 _ 6) by (change (2 ^ 6)%N with 64%N; lia).
    change (2 ^ 6)%N with 64%N. pose proof (N.div_mod a 4 ltac:(lia)). lia. }
  rewrite En, !land_255_mod, !N.shiftr_div_pow2. change (2 ^ 4)%N with 16%N.
  rewrite N.div_mul by lia. f_equal. apply N.mod_small. lia.
Qed.

(** The values are below 64, decode to the bytes, and their number has the
    remainder that goes with the padding. *)
Lemma sextetsOf_spec :
  forall n bytes, length bytes <= n ->
  Forall (fun b => (b < 256)%N) bytes ->
  Forall (fun v => (v < 64)%N) (sextetsOf bytes)
  /\ decodeSextets (sextetsOf bytes) = bytes
  /\ exists k,
       length (sextetsOf bytes) + length (paddingOf bytes) = 4 * k
       /\ length (sextetsOf bytes) mod 4 <> 1.
Proof.
  induction n as [|n IH]; intros bytes Hl Hb.
  - destruct bytes; [|simpl in Hl; lia].
    repeat split; auto. exists 0. split; [reflexivity|discriminate].
  - destruct bytes as [|a [|b [|c rest]]].
    + repeat split; auto. exists 0. split; [reflexivity|discriminate].
    + inversion Hb as [|? ? Ha _]; subst. split; [|split].
      * cbn [sextetsOf]. repeat constructor.
        -- apply N.Div0.div_lt_upper_bound; lia.
        -- pose proof (N.mod_lt a 4 ltac:(lia)). lia.
      * apply decode_one; exact Ha.
      * exists 1. split; [reflexivity|discriminate].
    + inversion Hb as [|? ? Ha Hb']; subst. inversion Hb' as [|? ? Hb2 _]; subst.
      split; [|split].
      * cbn [sextetsOf]. repeat constructor.
        -- apply N.Div0.div_lt_upper_bound; lia.
        -- pose proof (N.mod_lt a 4 ltac:(lia)).
           assert (b / 16 < 16)%N by (apply N.Div0.div_lt_upper_bound; lia). lia.
        -- pose proof (N.mod_lt b 16 ltac:(lia)). lia.
      * apply decode_two; assumption.
      * exists 1. split; [reflexivity|discriminate].
    + inversion Hb as [|? ? Ha Hb']; subst. inversion Hb' as [|? ? Hb2 Hb'']; subst.
      inversion Hb'' as [|? ? Hc Hrest]; subst.
      destruct (IH rest) as (Hv & Hd & k & Hk & Hm); [simpl in Hl; lia|exact Hrest|].
      split; [|split].
      * cbn [sextetsOf]. repeat constructor; try exact Hv.
        -- apply N.Div0.div_lt_upper_bound; lia.
        -- pose proof (N.mod_lt a 4 ltac:(lia)).
           assert (b / 16 < 16)%N by (apply N.Div0.div_lt_upper_bound; lia). lia.
        -- pose proof (N.mod_lt b 16 ltac:(lia)).
           assert (c / 64 < 4)%N by (apply N.Div0.div_lt_upper_bound; lia). lia.
        -- apply N.mod_lt. lia.
      * cbn [sextetsOf]. rewrite decode_four by assumption. rewrite Hd. reflexivity.
      * exists (S k). cbn [sextetsOf length].
        assert (Hp : paddingOf (a :: b :: c :: rest) = paddingOf rest).
        { unfold paddingOf. cbn [length].
          replace (S (S (S (length rest)))) with (length rest + 1 * 3) by lia.
          rewrite Nat.Div0.mod_add. reflexivity. }
        rewrite Hp. split; [lia|].
        replace (S (S (S (S (length (sextetsOf rest))))))
          with (length (sextetsOf rest) + 1 * 4) by lia.
        rewrite Nat.Div0.mod_add. exact Hm.
Qed.

Lemma base64Char_spec v :
  (v < 64)%N ->
  base64Value (base64Char v) = Some v
  /\ isAsciiWhitespace (base64Char v) = false
  /\ (base64Char v =? 61)%N = false.
Proof.
  intros Hv.
  assert (H : forall n : nat, n < 64 ->
            base64Value (base64Char (N.of_nat n)) = Some (N.of_nat n)
            /\ isAsciiWhitespace (base64Char (N.of_nat n)) = false
            /\ (base64Char (N.of_nat n) =? 61)%N = false).
  { intros n Hn.
    do 64 (destruct n as [|n]; [vm_compute; auto|]). lia. }
  rewrite <- (N2Nat.id v). apply H. lia.
Qed.

Lemma sextets_of_chars vs :
  Forall (fun v => (v < 64)%N) vs -> sextets (map base64Char vs) = Some vs.
Proof.
  induction 1 as [|v vs Hv _ IH]; [reflexivity|].
  cbn [map sextets]. destruct (base64Char_spec v Hv) as (-> & _). rewrite IH.
  reflexivity.
Qed.

Lemma chars_not_padding vs c :
  Forall (fun v => (v < 64)%N) vs -> In c (map base64Char vs) -> (c =? 61)%N = false.
Proof.
  intros Hvs Hin. apply in_map_iff in Hin as (v & <- & Hv).
  rewrite Forall_forall in Hvs. apply (base64Char_spec v (Hvs v Hv)).
Qed.

Lemma filter_encoded bytes :
  Forall (fun v => (v < 64)%N) (sextetsOf bytes) ->
  filter (fun c => negb (isAsciiWhitespace c)) (encodeBase64 bytes) = encodeBase64 bytes.
Proof.
  intros Hvs. unfold encodeBase64. rewrite filter_app. f_equal.
  - induction Hvs as [|v vs Hv _ IH]; [reflexivity|].
    cbn [map filter]. destruct (base64Char_spec v Hv) as (_ & -> & _).
    cbn [negb]. rewrite IH. reflexivity.
  - unfold paddingOf. destruct (length bytes mod 3) as [|[|?]]; reflexivity.
Qed.

Lemma stripPadding_encoded bytes :
  Forall (fun v => (v < 64)%N) (sextetsOf bytes) ->
  stripPadding (encodeBase64 bytes) = map base64Char (sextetsOf bytes).
Proof.
  intros Hvs. unfold encodeBase64, stripPadding.
  set (X := map base64Char (sextetsOf bytes)).
  assert (Hlast : forall y r, rev X = y :: r -> (y =? 61)%N = false).
  { intros y r Hr. apply (chars_not_padding (sextetsOf bytes)); [exact Hvs|].
    fold X. apply in_rev. rewrite Hr. left. reflexivity. }
  unfold paddingOf. destruct (length bytes mod 3) as [|[|?]].
  - rewrite app_nil_r. destruct (rev X) as [|y r] eqn:Er; [reflexivity|].
    rewrite (Hlast y r eq_refl). reflexivity.
  - rewrite rev_app_distr. cbn [rev app]. rewrite N.eqb_refl.
    apply rev_involutive.
  - rewrite rev_app_distr. cbn [rev app]. rewrite N.eqb_refl.
    destruct (rev X) as [|y r] eqn:Er.
    + rewrite <- (rev_involutive X), Er. reflexivity.
    + rewrite (Hlast y r eq_refl). rewrite <- Er. apply rev_involutive.
Qed.

(** [atob] undoes the encoding. *)
Lemma atob_encodeBase64 bytes :
  Forall (fun b => (b < 256)%N) bytes -> atob (encodeBase64 bytes) = Some bytes.
Proof.
  intros Hb.
  destruct (sextetsOf_spec (length bytes) bytes (le_n _) Hb)
    as (Hvs & Hdec & k & Hlen & Hmod).
  unfold atob. rewrite (filter_encoded bytes Hvs).
  assert (Hl : length (encodeBase64 bytes) mod 4 = 0).
  { unfold encodeBase64. rewrite length_app, length_map, Hlen.
    rewrite Nat.mul_comm. apply Nat.Div0.mod_mul. }
  rewrite Hl. cbn [Nat.eqb]. rewrite (stripPadding_encoded bytes Hvs).
  rewrite length_map.
  destruct (Nat.eqb_spec (length (sextetsOf bytes) mod 4) 1); [contradiction|].
  rewrite (sextets_of_chars _ Hvs). cbn [option_map]. rewrite Hdec. reflexivity.
Qed.

(** X18. [b64toBlob] undoes standard base64: given the padded base64 text of
    a sequence of bytes, it returns a blob of the content type asked for
    whose parts, put end to end, are exactly these bytes. *)
Theorem b64toBlob_decodes_base64 bytes contentType sliceSize :
  0 < sliceSize ->
  Forall (fun b => (b < 256)%N) bytes ->
  exists blob,
    b64toBlob (encodeBase64 bytes) contentType sliceSize = Some blob
    /\ blob_type blob = contentType
    /\ concat (blob_parts blob) = bytes.
Proof.
  intros Hn Hb.
  pose proof (b64toBlob_slices (encodeBase64 bytes) contentType sliceSize Hn) as H.
  pose proof (atob_encodeBase64 bytes Hb) as Ha.
  destruct (b64toBlob (encodeBase64 bytes) contentType sliceSize) as [blob|];
    [|congruence].
  destruct H as (bytes' & Ha' & Ht & _ & _ & Hc).
  rewrite Ha in Ha'. inversion Ha'; subst bytes'.
  exists blob. auto.
Qed.

Lemma b64toBlob_decodes_base64_witness :
  exists blob,
    b64toBlob (encodeBase64 (lit "hello")) png 512 = Some blob
    /\ blob_type blob = png
    /\ concat (blob_parts blob) = lit "hello".
Proof.
  apply (b64toBlob_decodes_base64 (lit "hello") png 512); [lia|].
  repeat constructor.
Defined.

Example encodeBase64_hello : encodeBase64 (lit "hello") = lit "aGVsbG8=".
Proof. reflexivity. Qed.

Example encodeBase64_png_signature :
  encodeBase64 [137; 80; 78; 71; 13; 10; 26; 10]%N = lit "iVBORw0KGgo=".
Proof. reflexivity. Qed.

(* ------------------------------------------------------------------ *)
(** ** The requests and the outcomes of a run *)
(* ------------------------------------------------------------------ *)

(** *** The groups a run starts *)

Lemma runBatch_all_ok w imageBase64 mimeType prompt count i urls :
  fst (runBatch w imageBase64 mimeType prompt count i) = Ok urls ->
  forall j, In j (members count i) ->
  exists url, fst (generateSingleFrame w imageBase64 mimeType prompt j count) = Ok url.
Proof.
  rewrite runBatch_members. cbn [fst]. intros H j Hj.
  apply Promise_all_ok in H. rewrite map_map in H. cbn [snd] in H.
  apply (in_map (fun j => fst (generateSingleFrame w imageBase64 mimeType prompt j count)))
    in Hj.
  rewrite H in Hj. apply in_map_iff in Hj as (url & Hu & _). eauto.
Qed.

Lemma runBatch_throw w imageBase64 mimeType prompt count i e :
  fst (runBatch w imageBase64 mimeType prompt count i) = Throw e ->
  exists j, In j (members count i)
    /\ fst (generateSingleFrame w imageBase64 mimeType prompt j count) = Throw e.
Proof.
  rewrite runBatch_members. cbn [fst]. unfold members. intros H.
  apply (Promise_all_first _ (settles_at w)
           (fun j => fst (generateSingleFrame w imageBase64 mimeType prompt j count)))
    in H as (j0 & Hj0 & He & _).
  eauto.
Qed.

Section Groups.

Variable w : World.
Variables imageBase64 mimeType prompt : jsstring.
Variable count : Z.
Variable signal : option AbortSignal.

Local Abbreviation frame := (fun j => generateSingleFrame w imageBase64 mimeType prompt j count).
Local Abbreviation loop := (groupLoop w imageBase64 mimeType prompt count signal).
Local Abbreviation batch := (runBatch w imageBase64 mimeType prompt count).

(** The requests of a run are those of its first [n] groups, each in full;
    every group but the last one started has succeeded, and the token was
    seen not aborted before and after each of them. *)
Lemma groupLoop_groups fuel :
  forall g i urls, (count - i <= Z.of_nat fuel)%Z ->
  exists n,
    snd (loop fuel g i urls)
    = concat (map (fun k => snd (batch (i + 3 * Z.of_nat k)%Z)) (seq 0 n))
    /\ (forall k, k < n -> (i + 3 * Z.of_nat k < count)%Z /\ aborted signal (g + k) = false)
    /\ (forall k, S k < n ->
          (exists vs, fst (batch (i + 3 * Z.of_nat k)%Z) = Ok vs)
          /\ aborted signal (g + S k) = false).
Proof.
  induction fuel as [|fuel IH]; intros g i urls Hf.
  - exists 0. rewrite groupLoop_done by lia. repeat split; intros; lia.
  - destruct (Z.ltb_spec i count) as [Hi|Hi].
    2:{ exists 0. rewrite groupLoop_done by lia. repeat split; intros; lia. }
    rewrite groupLoop_step by exact Hi.
    destruct (aborted signal g) eqn:Eg.
    { exists 0. repeat split; intros; lia. }
    assert (H0 : forall k, k < 1 ->
               (i + 3 * Z.of_nat k < count)%Z /\ aborted signal (g + k) = false).
    { intros k Hk. assert (k = 0) by lia. subst k.
      rewrite Nat.add_0_r. split; [lia|exact Eg]. }
    assert (Ei : (i + 3 * Z.of_nat 0 = i)%Z) by lia.
    destruct (batch i) as [[vs|e] t] eqn:Eb.
    2:{ exists 1. cbn [bind snd]. split; [|split; [exact H0|intros; lia]].
        cbn [seq map concat]. rewrite Ei, Eb, app_nil_r. reflexivity. }
    cbn [bind]. destruct (aborted signal (S g)) eqn:Eg'.
    { exists 1. cbn [throw snd]. split; [|split; [exact H0|intros; lia]].
      cbn [seq map concat]. rewrite Ei, Eb. reflexivity. }
    destruct (IH (S g) (i + batchSize)%Z (urls ++ vs)) as (n & Htr & Hstart & Hok);
      [unfold batchSize; lia|].
    destruct (loop fuel (S g) (i + batchSize)%Z (urls ++ vs)) as [r t'].
    cbn [snd] in *. exists (S n). split; [|split].
    + rewrite <- cons_seq, <- seq_shift, map_cons, map_map. cbn [concat].
      rewrite Ei, Eb. cbn [snd]. f_equal. rewrite Htr. f_equal.
      apply map_ext. intros k. do 2 f_equal. unfold batchSize. lia.
    + intros [|k] Hk; [apply H0; lia|].
      destruct (Hstart k ltac:(lia)) as [Ha Hb]. unfold batchSize in Ha.
      split; [lia|]. rewrite <- Nat.add_succ_comm. exact Hb.
    + intros [|k] Hk.
      * rewrite Ei, Eb. split; [exists vs; reflexivity|].
        rewrite Nat.add_1_r. exact Eg'.
      * destruct (Hok k ltac:(lia)) as [[vs' Ha] Hb]. split.
        -- exists vs'. rewrite <- Ha. do 2 f_equal. unfold batchSize. lia.
        -- rewrite <- Nat.add_succ_comm. exact Hb.
Qed.

(** Every request of a run belongs to a frame of a group that was started. *)
Lemma run_event ev :
  In ev (snd (generateAnimationFrames w imageBase64 mimeType prompt count signal)) ->
  exists n k j,
    k < n /\ In j (members count (3 * Z.of_nat k)) /\ In ev (snd (frame j))
    /\ (forall k', k' < n ->
          (3 * Z.of_nat k' < count)%Z /\ aborted signal k' = false
          /\ forall j', In j' (members count (3 * Z.of_nat k')) ->
               forall ev', In ev' (snd (frame j')) ->
               In ev' (snd (generateAnimationFrames w imageBase64 mimeType prompt
                              count signal)))
    /\ (forall k', S k' < n ->
          (forall j', In j' (members count (3 * Z.of_nat k')) ->
             exists url, fst (frame j') = Ok url)
          /\ aborted signal (S k') = false).
Proof.
  unfold generateAnimationFrames.
  destruct (groupLoop_groups (Z.to_nat count) 0 0%Z []) as (n & Htr & Hstart & Hok);
    [lia|].
  rewrite Htr. intros Hin.
  apply in_concat in Hin as (t & Ht & Hev).
  apply in_map_iff in Ht as (k & <- & Hk). apply in_seq in Hk.
  apply (Permutation_in _ (runBatch_requests w imageBase64 mimeType prompt count _))
    in Hev.
  apply in_concat in Hev as (t' & Ht' & Hev).
  apply in_map_iff in Ht' as (j & <- & Hj).
  exists n, k, j. split; [lia|]. split; [exact Hj|]. split; [exact Hev|]. split.
  - intros k' Hk'. destruct (Hstart k' Hk') as [Ha Hb]. split; [lia|].
    split; [exact Hb|]. intros j' Hj' ev' Hev'.
    apply in_concat. exists (snd (batch (0 + 3 * Z.of_nat k')%Z)). split.
    + apply in_map_iff. exists k'. split; [reflexivity|]. apply in_seq. lia.
    + apply (Permutation_in _
                 (Permutation_sym
                    (runBatch_requests w imageBase64 mimeType prompt count _))).
      apply in_concat.
      exists (snd (frame j')). split; [|exact Hev'].
      apply in_map_iff. exists j'. split; [reflexivity|exact Hj'].
  - intros k' Hk'. destruct (Hok k' Hk') as [[vs Ha] Hb]. split; [|exact Hb].
    intros j' Hj'. apply (runBatch_all_ok _ _ _ _ _ _ _ Ha). exact Hj'.
Qed.

End Groups.

Section Runs.

Variable w : World.
Variables imageBase64 mimeType prompt : jsstring.
Variable count : Z.
Variable signal : option AbortSignal.

Local Abbreviation frame := (fun j => generateSingleFrame w imageBase64 mimeType prompt j count).
Local Abbreviation loop := (groupLoop w imageBase64 mimeType prompt count signal).
Local Abbreviation batch := (runBatch w imageBase64 mimeType prompt count).
Local Abbreviation run := (generateAnimationFrames w imageBase64 mimeType prompt count signal).

(** The chat requests of a group are sent in the order of its frames. *)
Lemma runBatch_chats i :
  filter isChat (snd (batch i))
  = concat (map (fun j => filter isChat (snd (frame j))) (members count i)).
Proof.
  rewrite runBatch_members. cbn [snd]. rewrite issued_chats.
  - rewrite map_map. f_equal. apply map_ext. intros j. cbn [snd].
    destruct (frame_trace w imageBase64 mimeType prompt j count)
      as [[_ ->]|(key & _ & _ & [->|(? & ? & ? & _ & _ & ->)])]; reflexivity.
  - intros q [].
  - intros f Hf. apply in_map_iff in Hf as (j & <- & _). cbn [snd].
    destruct (frame_trace w imageBase64 mimeType prompt j count)
      as [[_ ->]|(key & _ & _ & [->|(? & ? & ? & _ & _ & ->)])]; reflexivity.
Qed.

Lemma groupLoop_ok_trace fuel :
  forall g i urls out trace,
  (count - i <= Z.of_nat fuel)%Z ->
  loop fuel g i urls = (Ok out, trace) ->
  Permutation trace
    (concat (map (fun j => snd (frame j)) (zseq i (Z.to_nat (count - i)))))
  /\ filter isChat trace
     = concat (map (fun j => filter isChat (snd (frame j)))
                 (zseq i (Z.to_nat (count - i)))).
Proof.
  induction fuel as [|fuel IH]; intros g i urls out trace Hf H.
  - cbn in H. inversion H; subst.
    replace (Z.to_nat (count - i)) with 0 by lia. split; [constructor|reflexivity].
  - destruct (Z.ltb_spec i count) as [Hi|Hi].
    + rewrite groupLoop_step in H by exact Hi.
      destruct (aborted signal g); [discriminate|].
      pose proof (runBatch_requests w imageBase64 mimeType prompt count i) as Hp.
      pose proof (runBatch_chats i) as Hc.
      destruct (batch i) as [[vs|e] t]; [|discriminate]. cbn [snd] in Hp, Hc.
      unfold bind in H. destruct (aborted signal (S g)); [discriminate|].
      destruct (loop fuel (S g) (i + batchSize)%Z (urls ++ vs)) as [r t'] eqn:EL.
      inversion H; subst; clear H.
      apply IH in EL as [EL1 EL2]; [|unfold batchSize; lia].
      rewrite members_zseq by exact Hi. rewrite !map_app, !concat_app. split.
      * apply Permutation_app; assumption.
      * rewrite filter_app, Hc, EL2. reflexivity.
    + rewrite groupLoop_done in H by lia. inversion H; subst.
      replace (Z.to_nat (count - i)) with 0 by lia. split; [constructor|reflexivity].
Qed.

Lemma groupLoop_succeeds fuel :
  forall g i urls,
  (count - i <= Z.of_nat fuel)%Z ->
  (forall j, (i <= j < count)%Z -> exists url, fst (frame j) = Ok url) ->
  (forall b, aborted signal b = false) ->
  exists out trace, loop fuel g i urls = (Ok out, trace).
Proof.
  induction fuel as [|fuel IH]; intros g i urls Hf Hok Hab.
  - rewrite groupLoop_done by lia. eexists _, _. reflexivity.
  - destruct (Z.ltb_spec i count) as [Hi|Hi].
    + rewrite groupLoop_step by exact Hi. rewrite Hab.
      destruct (runBatch_ok w imageBase64 mimeType prompt count i) as [vs Hvs].
      { intros j Hj. apply members_In in Hj. apply Hok. lia. }
      destruct (batch i) as [r t]. cbn [fst] in Hvs. subst r.
      cbn [bind]. rewrite Hab.
      destruct (IH (S g) (i + batchSize)%Z (urls ++ vs)) as (out & tr & ->).
      * unfold batchSize. lia.
      * intros j Hj. apply Hok. unfold batchSize in Hj. lia.
      * exact Hab.
      * eexists _, _. reflexivity.
    + rewrite groupLoop_done by lia. eexists _, _. reflexivity.
Qed.

Lemma groupLoop_failure fuel :
  forall g i urls e,
  fst (loop fuel g i urls) = Throw e ->
  e = abortedByUser
  \/ exists j, (i <= j < count)%Z /\ fst (frame j) = Throw e.
Proof.
  induction fuel as [|fuel IH]; intros g i urls e H; [discriminate H|].
  destruct (Z.ltb_spec i count) as [Hi|Hi].
  - rewrite groupLoop_step in H by exact Hi.
    destruct (aborted signal g); [inversion H; auto|].
    destruct (batch i) as [[vs|e'] t] eqn:Eb.
    + rewrite fst_bind_ok in H.
      destruct (aborted signal (S g)); [inversion H; auto|].
      apply IH in H as [H|(j & Hj & Hfj)]; [auto|].
      right. exists j. split; [unfold batchSize in Hj; lia|exact Hfj].
    + cbn in H. inversion H; subst e'. right.
      destruct (runBatch_throw w imageBase64 mimeType prompt count i e) as (j & Hj & Hfj).
      { rewrite Eb. reflexivity. }
      apply members_In in Hj. exists j. split; [lia|exact Hfj].
  - rewrite groupLoop_done in H by lia. discriminate H.
Qed.

Lemma batch_trace_bound i :
  length (snd (batch i)) <= 2 * length (members count i)
  /\ length (filter isChat (snd (batch i))) <= length (members count i).
Proof.
  rewrite (Permutation_length (runBatch_requests w imageBase64 mimeType prompt count i)).
  rewrite (Permutation_filter_length isChat _ _
             (runBatch_requests w imageBase64 mimeType prompt count i)).
  induction (members count i) as [|j js [IH1 IH2]]; [simpl; lia|].
  cbn [map concat length]. rewrite filter_app, !length_app.
  pose proof (frame_trace_length w imageBase64 mimeType prompt j count) as H2.
  assert (H1 : length (filter isChat (snd (frame j))) <= 1).
  { destruct (frame_trace w imageBase64 mimeType prompt j count)
      as [[_ ->]|(key & _ & _ & [->|(? & ? & ? & _ & _ & ->)])]; simpl; lia. }
  lia.
Qed.

Lemma groupLoop_trace_bound fuel :
  forall g i urls,
  length (snd (loop fuel g i urls)) <= 2 * Z.to_nat (count - i)
  /\ length (filter isChat (snd (loop fuel g i urls))) <= Z.to_nat (count - i).
Proof.
  induction fuel as [|fuel IH]; intros g i urls; [simpl; lia|].
  destruct (Z.ltb_spec i count) as [Hi|Hi].
  - rewrite groupLoop_step by exact Hi.
    destruct (aborted signal g); [simpl; lia|].
    destruct (batch_trace_bound i) as [B1 B2].
    rewrite members_length in B1, B2 by exact Hi. unfold batchSize in B1, B2.
    destruct (batch i) as [[vs|e'] t]; cbn [snd] in B1, B2.
    + cbn [bind]. destruct (aborted signal (S g)).
      * cbn [throw snd]. rewrite app_nil_r. lia.
      * destruct (IH (S g) (i + batchSize)%Z (urls ++ vs)) as [I1 I2].
        destruct (loop fuel (S g) (i + batchSize)%Z (urls ++ vs)) as [r t'].
        cbn [snd] in *. rewrite filter_app, !length_app.
        unfold batchSize in I1, I2. lia.
    + cbn [bind snd]. lia.
  - rewrite groupLoop_done by lia. simpl. lia.
Qed.

End Runs.

Lemma filter_concat_map {A B} (p : B -> bool) (f : A -> list B) (g : A -> B) l :
  (forall a, filter p (f a) = [g a]) ->
  filter p (concat (map f l)) = map g l.
Proof.
  intros H. induction l as [|a l IH]; [reflexivity|].
  cbn [map concat]. rewrite filter_app, H, IH. reflexivity.
Qed.

(** What a chat request found in the requests of a run says about the run. *)
Lemma run_chat_event w imageBase64 mimeType prompt count signal c req :
  In (ChatCompletion c req)
     (snd (generateAnimationFrames w imageBase64 mimeType prompt count signal)) ->
  exists j key,
    req = frameRequest imageBase64 mimeType prompt j count
    /\ (0 <= j < count)%Z
    /\ env_API_KEY w = Some key /\ truthy key = true /\ c = newClient key
    /\ (forall j', (0 <= j' < 3 * (j / 3))%Z ->
          exists url,
            fst (generateSingleFrame w imageBase64 mimeType prompt j' count) = Ok url)
    /\ (forall b, (Z.of_nat b <= j / 3)%Z -> aborted signal b = false)
    /\ (forall j', (3 * (j / 3) <= j' < Z.min (3 * (j / 3) + 3) count)%Z ->
          In (ChatCompletion c (frameRequest imageBase64 mimeType prompt j' count))
             (snd (generateAnimationFrames w imageBase64 mimeType prompt count signal))).
Proof.
  intros Hin.
  destruct (run_event w imageBase64 mimeType prompt count signal _ Hin)
    as (n & k & j & Hk & Hj & Hev & Hstart & Hok).
  apply frame_chat_event in Hev as (-> & key & Ek & Hkey & ->).
  apply members_In in Hj. unfold batchSize in Hj.
  assert (Hdiv : (j / 3 = Z.of_nat k)%Z).
  { symmetry. apply (Z.div_unique j 3 (Z.of_nat k) (j - 3 * Z.of_nat k)); lia. }
  exists j, key. rewrite Hdiv.
  split; [reflexivity|]. split; [lia|]. split; [exact Ek|]. split; [exact Hkey|].
  split; [reflexivity|]. split; [|split].
  - intros j' Hj'.
    assert (Hk' : S (Z.to_nat (j' / 3)) < n).
    { assert (j' / 3 < Z.of_nat k)%Z by (apply Z.div_lt_upper_bound; lia).
      assert (0 <= j' / 3)%Z by (apply Z.div_pos; lia). lia. }
    destruct (Hok _ Hk') as [Hall _]. apply Hall. apply members_In.
    unfold batchSize.
    assert (0 <= j' / 3)%Z by (apply Z.div_pos; lia).
    rewrite Z2Nat.id by assumption.
    pose proof (Z.mul_div_le j' 3 ltac:(lia)).
    pose proof (Z.mul_succ_div_gt j' 3 ltac:(lia)). lia.
  - intros b Hb. destruct (Hstart b ltac:(lia)) as (_ & Hab & _). exact Hab.
  - intros j' Hj'. destruct (Hstart k Hk) as (_ & _ & Hall).
    apply (Hall j').
    + apply members_In. unfold batchSize. lia.
    + assert (Hf : In (ChatCompletion (newClient key)
                         (frameRequest imageBase64 mimeType prompt j' count))
                      (filter isChat
                         (snd (generateSingleFrame w imageBase64 mimeType prompt j' count)))).
      { rewrite (frame_chats w _ _ _ _ _ key Ek Hkey). left. reflexivity. }
      apply filter_In in Hf as [Hf _]. exact Hf.
Qed.

(** X9. A run that returns has sent the requests of its frames, each once,
    and nothing else; its chat requests were sent in the order of the
    indices [0] to [count - 1], one per frame.  Where the fetches fall
    between them depends on the instants at which the service answers. *)
Theorem successful_run_requests
    w imageBase64 mimeType prompt count signal key urls trace :
  env_API_KEY w = Some key -> truthy key = true ->
  generateAnimationFrames w imageBase64 mimeType prompt count signal = (Ok urls, trace) ->
  Permutation trace
    (concat (map (fun j => snd (generateSingleFrame w imageBase64 mimeType prompt j count))
               (zseq 0 (Z.to_nat count))))
  /\ filter isChat trace
     = map (fun j => ChatCompletion (newClient key)
                       (frameRequest imageBase64 mimeType prompt j count))
         (zseq 0 (Z.to_nat count)).
Proof.
  intros Ek Hk H. unfold generateAnimationFrames in H.
  apply groupLoop_ok_trace in H as [H1 H2]; [|lia]. rewrite Z.sub_0_r in H1, H2.
  split; [exact H1|]. rewrite H2. clear H1 H2.
  induction (zseq 0 (Z.to_nat count)) as [|j js IH]; [reflexivity|].
  cbn [map concat]. rewrite (frame_chats w _ _ _ _ _ key Ek Hk), IH. reflexivity.
Qed.

Lemma successful_run_requests_witness :
  Permutation
    (snd (generateAnimationFrames (hostWith numbered offline reversed)
            refImage png walk 4 None))
    (concat (map (fun j => snd (generateSingleFrame (hostWith numbered offline reversed)
                                  refImage png walk j 4))
               (zseq 0 (Z.to_nat 4))))
  /\ filter isChat (snd (generateAnimationFrames (hostWith numbered offline reversed)
                           refImage png walk 4 None))
     = map (fun j => ChatCompletion (newClient sampleKey) (frameRequest refImage png walk j 4))
         (zseq 0 (Z.to_nat 4)).
Proof.
  destruct (generateAnimationFrames (hostWith numbered offline reversed)
              refImage png walk 4 None) as [r trace] eqn:E.
  assert (Hr : r = Ok (map numberedUrl [0; 1; 2; 3]%Z)).
  { apply (f_equal fst) in E. vm_compute in E. symmetry. exact E. }
  subst r. cbn [snd].
  exact (successful_run_requests (hostWith numbered offline reversed)
           refImage png walk 4 None sampleKey _ trace eq_refl eq_refl E).
Defined.

(** The run of the witness: the frames of the first group are answered in
    the reverse order and fetch in that order, after the three chat
    requests; with quick answers every frame has fetched when the next one
    is started. *)
Example requests_when_answers_are_reversed :
  snd (generateAnimationFrames (hostWith numbered offline reversed)
         refImage png walk 4 None)
  = [ChatCompletion (newClient sampleKey) (frameRequest refImage png walk 0 4);
     ChatCompletion (newClient sampleKey) (frameRequest refImage png walk 1 4);
     ChatCompletion (newClient sampleKey) (frameRequest refImage png walk 2 4);
     Fetch (lit "https://cdn/f2"); Fetch (lit "https://cdn/f1");
     Fetch (lit "https://cdn/f0");
     ChatCompletion (newClient sampleKey) (frameRequest refImage png walk 3 4);
     Fetch (lit "https://cdn/f3")].
Proof. vm_compute. reflexivity. Qed.

Example requests_when_answers_are_quick :
  snd (generateAnimationFrames (hostWith numbered offline quick)
         refImage png walk 4 None)
  = [ChatCompletion (newClient sampleKey) (frameRequest refImage png walk 0 4);
     Fetch (lit "https://cdn/f0");
     ChatCompletion (newClient sampleKey) (frameRequest refImage png walk 1 4);
     Fetch (lit "https://cdn/f1");
     ChatCompletion (newClient sampleKey) (frameRequest refImage png walk 2 4);
     Fetch (lit "https://cdn/f2");
     ChatCompletion (newClient sampleKey) (frameRequest refImage png walk 3 4);
     Fetch (lit "https://cdn/f3")].
Proof. vm_compute. reflexivity. Qed.

(** X10. Failure stops a run at the end of the group in which it happens: a
    chat request is sent for frame [j] only if every frame of the groups
    before the group of [j] has succeeded. *)
Theorem request_implies_earlier_groups_succeeded
    w imageBase64 mimeType prompt count signal c req :
  In (ChatCompletion c req)
     (snd (generateAnimationFrames w imageBase64 mimeType prompt count signal)) ->
  let j := (frame_number (text req) - 1)%Z in
  req = frameRequest imageBase64 mimeType prompt j count
  /\ (0 <= j < count)%Z
  /\ forall j', (0 <= j' < 3 * (j / 3))%Z ->
       exists url,
         fst (generateSingleFrame w imageBase64 mimeType prompt j' count) = Ok url.
Proof.
  intros Hin. apply run_chat_event in Hin
    as (j & key & -> & Hj & _ & _ & _ & Hprev & _).
  cbn [frameRequest text frame_number]. replace (j + 1 - 1)%Z with j by lia.
  cbv zeta. auto.
Qed.

Lemma request_implies_earlier_groups_succeeded_witness :
  frameRequest refImage png walk 5 7 = frameRequest refImage png walk 5 7
  /\ (0 <= 5 < 7)%Z
  /\ forall j', (0 <= j' < 3 * (5 / 3))%Z ->
       exists url,
         fst (generateSingleFrame (hostWith failingAt4 offline steady)
                refImage png walk j' 7) = Ok url.
Proof.
  apply (request_implies_earlier_groups_succeeded
           (hostWith failingAt4 offline steady) refImage png walk 7 None
           (newClient sampleKey) (frameRequest refImage png walk 5 7)).
  vm_compute. repeat (first [left; reflexivity | right]).
Defined.

(** X11. The frames of a group are all requested once the group is started,
    also when one of them fails early: if the chat request of a frame was
    sent, so were those of all the frames of its group. *)
Theorem group_is_requested_in_full
    w imageBase64 mimeType prompt count signal c req :
  In (ChatCompletion c req)
     (snd (generateAnimationFrames w imageBase64 mimeType prompt count signal)) ->
  let j := (frame_number (text req) - 1)%Z in
  forall j', (3 * (j / 3) <= j' < Z.min (3 * (j / 3) + 3) count)%Z ->
    In (ChatCompletion c (frameRequest imageBase64 mimeType prompt j' count))
       (snd (generateAnimationFrames w imageBase64 mimeType prompt count signal)).
Proof.
  intros Hin. apply run_chat_event in Hin
    as (j & key & -> & _ & _ & _ & _ & _ & _ & Hall).
  cbn [frameRequest text frame_number]. replace (j + 1 - 1)%Z with j by lia.
  exact Hall.
Qed.

Lemma group_is_requested_in_full_witness :
  In (ChatCompletion (newClient sampleKey) (frameRequest refImage png walk 4 7))
     (snd (generateAnimationFrames (hostWith failingAt4 offline steady)
             refImage png walk 7 None))
  /\ In (ChatCompletion (newClient sampleKey) (frameRequest refImage png walk 5 7))
        (snd (generateAnimationFrames (hostWith failingAt4 offline steady)
                refImage png walk 7 None)).
Proof.
  assert (H : In (ChatCompletion (newClient sampleKey) (frameRequest refImage png walk 3 7))
                (snd (generateAnimationFrames (hostWith failingAt4 offline steady)
                        refImage png walk 7 None))).
  { vm_compute. repeat (first [left; reflexivity | right]). }
  split.
  - apply (group_is_requested_in_full
             (hostWith failingAt4 offline steady) refImage png walk 7 None
             (newClient sampleKey) (frameRequest refImage png walk 3 7) H 4%Z).
    vm_compute. split; [discriminate|reflexivity].
  - apply (group_is_requested_in_full
             (hostWith failingAt4 offline steady) refImage png walk 7 None
             (newClient sampleKey) (frameRequest refImage png walk 3 7) H 5%Z).
    vm_compute. split; [discriminate|reflexivity].
Defined.

(** X12. Cancellation stops the requests: when the token is seen aborted
    once [b] groups have been joined, no chat request is ever sent for a
    frame of a later group, that is for an index from [3 * b] on. *)
Theorem no_request_after_abort
    w imageBase64 mimeType prompt count signal b c req :
  aborted signal b = true ->
  In (ChatCompletion c req)
     (snd (generateAnimationFrames w imageBase64 mimeType prompt count signal)) ->
  (frame_number (text req) - 1 < 3 * Z.of_nat b)%Z.
Proof.
  intros Hab Hin. apply run_chat_event in Hin
    as (j & key & -> & Hj & _ & _ & _ & _ & Hnot & _).
  cbn [frameRequest text frame_number]. replace (j + 1 - 1)%Z with j by lia.
  destruct (Z_lt_le_dec j (3 * Z.of_nat b)) as [Hlt|Hge]; [exact Hlt|].
  assert (Z.of_nat b <= j / 3)%Z by (apply Z.div_le_lower_bound; lia).
  rewrite (Hnot b) in Hab by assumption. discriminate.
Qed.

Lemma no_request_after_abort_witness :
  (frame_number (text (frameRequest refImage png walk 2 7)) - 1 < 3 * Z.of_nat 1)%Z.
Proof.
  apply (no_request_after_abort (hostWith numbered offline steady)
           refImage png walk 7 (Some (abortedFrom 1)) 1
           (newClient sampleKey) (frameRequest refImage png walk 2 7)).
  - reflexivity.
  - vm_compute. repeat (first [left; reflexivity | right]).
Defined.

(** X13. A run fails for two reasons only: cancellation, or the failure of
    one of its frames, whose error it passes on unchanged. *)
Theorem run_failure_reasons
    w imageBase64 mimeType prompt count signal e :
  fst (generateAnimationFrames w imageBase64 mimeType prompt count signal) = Throw e ->
  e = abortedByUser
  \/ exists j,
       (0 <= j < count)%Z
       /\ fst (generateSingleFrame w imageBase64 mimeType prompt j count) = Throw e.
Proof. apply groupLoop_failure. Qed.

Lemma run_failure_reasons_witness :
  Error (lit "429 Too Many Requests") = abortedByUser
  \/ exists j,
       (0 <= j < 7)%Z
       /\ fst (generateSingleFrame (hostWith failingAt4 offline steady)
                 refImage png walk j 7)
          = Throw (Error (lit "429 Too Many Requests")).
Proof.
  apply (run_failure_reasons (hostWith failingAt4 offline steady)
           refImage png walk 7 None (Error (lit "429 Too Many Requests"))).
  vm_compute. reflexivity.
Defined.

(** X14. A run sends at most [count] chat requests and at most twice as many
    requests in all, whatever happens to it; none when [count] is not
    positive. *)
Theorem run_requests_bounded w imageBase64 mimeType prompt count signal :
  length (filter isChat
            (snd (generateAnimationFrames w imageBase64 mimeType prompt count signal)))
  <= Z.to_nat count
  /\ length (snd (generateAnimationFrames w imageBase64 mimeType prompt count signal))
     <= 2 * Z.to_nat count.
Proof.
  unfold generateAnimationFrames.
  destruct (groupLoop_trace_bound w imageBase64 mimeType prompt count signal
              (Z.to_nat count) 0 0%Z []) as [H1 H2].
  rewrite Z.sub_0_r in H1, H2. auto.
Qed.

(** X15. A run whose frames all succeed and whose token is never seen aborted
    returns. *)
Theorem run_succeeds
    w imageBase64 mimeType prompt count signal :
  (forall j, (0 <= j < count)%Z ->
     exists url,
       fst (generateSingleFrame w imageBase64 mimeType prompt j count) = Ok url) ->
  (forall b, aborted signal b = false) ->
  exists urls trace,
    generateAnimationFrames w imageBase64 mimeType prompt count signal = (Ok urls, trace).
Proof.
  intros Hok Hab. apply groupLoop_succeeds; auto. lia.
Qed.

Lemma run_succeeds_witness :
  exists urls trace,
    generateAnimationFrames (hostWith numbered online reversed)
      refImage png walk 5 (Some (mkSignal (fun _ => false))) = (Ok urls, trace).
Proof.
  apply (run_succeeds (hostWith numbered online reversed) refImage png walk 5
           (Some (mkSignal (fun _ => false)))).
  - intros j Hj.
    assert (j = 0 \/ j = 1 \/ j = 2 \/ j = 3 \/ j = 4)%Z
      as [->|[->|[->|[->| ->]]]] by lia;
      eexists; vm_compute; reflexivity.
  - reflexivity.
Defined.

(** X16. [checkApiKey] never says no when a client can be built: with a
    non-empty credential in the environment it answers [true] without
    looking at the bridge, and when it answers [false] no client can be
    built, so that every frame fails with the configuration error before
    sending anything. *)
Theorem checkApiKey_guards_generation w :
  (truthy_opt (env_API_KEY w) = true -> checkApiKey w = true)
  /\ (checkApiKey w = false ->
      getAiClient w = (Throw noApiKey, [])
      /\ forall imageBase64 mimeType prompt index total,
           generateSingleFrame w imageBase64 mimeType prompt index total
           = (Throw noApiKey, [])).
Proof.
  assert (H : truthy_opt (env_API_KEY w) = true -> checkApiKey w = true).
  { unfold checkApiKey. destruct (env_API_KEY w) as [[|c key]|]; try discriminate.
    reflexivity. }
  split; [exact H|]. intros Hc.
  assert (Hk : truthy_opt (env_API_KEY w) = false).
  { destruct (truthy_opt (env_API_KEY w)); [|reflexivity].
    rewrite H in Hc by reflexivity. discriminate. }
  split.
  - unfold getAiClient. rewrite Hk. reflexivity.
  - intros. apply missing_key_frame. exact Hk.
Qed.

Lemma checkApiKey_guards_generation_witness :
  checkApiKey brokenStudioHost = true
  /\ getAiClient unselectedHost = (Throw noApiKey, []).
Proof.
  split.
  - apply (checkApiKey_guards_generation brokenStudioHost). reflexivity.
  - apply (checkApiKey_guards_generation unselectedHost). reflexivity.
Defined.

(** X17. [promptApiKeySelection] never fails, and it warns and alerts exactly
    when [getAiClient] would throw: it stays silent when a client can be
    built, and otherwise writes one warning and shows the one alert that
    asks to configure the key. *)
Theorem promptApiKeySelection_matches_getAiClient w :
  fst (promptApiKeySelection w) = Ok tt
  /\ match fst (getAiClient w) with
     | Ok _ => snd (promptApiKeySelection w) = []
     | Throw e =>
         e = noApiKey
         /\ snd (promptApiKeySelection w)
            = [ConsoleWarn (lit "API Key not found in environment.");
               Alert configureKeyNotice]
     end.
Proof.
  unfold promptApiKeySelection, getAiClient.
  destruct (env_API_KEY w) as [[|c key]|]; cbn; auto.
Qed.
